(** * Calendar + Gmail agent: the slot-filling dialogue state machine

    A shallow embedding of [app/api/server.py] (helpers, tools, the policy
    step [decide_and_act] and the turn handler [agent_chat]) together with
    the two service clients of [app/services], and the properties of the
    specification proved or refuted over it.

    Conventions of the embedding.
    - Text is [string] (ASCII); the regular expressions of the source are
      values of a small regex syntax run by a backtracking matcher that
      follows the search order of Python's [re] (leftmost, ordered
      alternation, greedy repetition).
    - The session dictionary [AgentState] is a record; the slot dictionary
      has its nine fixed keys as fields, at the types the source annotates
      ([str | None], attendees a list of [str]).
    - Everything outside the repository is an explicit environment [Env]:
      the completion collaborator, [json.loads], [dateutil], pydantic's
      [EmailStr], the Calendar and Gmail endpoints, the clock.
    - Python exceptions are the [Raise] outcome of a state-and-log monad;
      the log records every call on a collaborator object. *)

From Stdlib Require Import String Ascii List Bool Arith ZArith Lia.
Import ListNotations.
Open Scope string_scope.
Open Scope nat_scope.
Open Scope list_scope.

Set Implicit Arguments.

(* ===================================================================== *)
(** ** Text primitives (Python [str] methods used by the source)          *)
(* ===================================================================== *)

Module Text.

Abbreviation chars := list_ascii_of_string.
Abbreviation str := string_of_list_ascii.

Definition code (c : ascii) : nat := nat_of_ascii c.

Definition is_upper (c : ascii) : bool := (65 <=? code c) && (code c <=? 90).
Definition is_lower (c : ascii) : bool := (97 <=? code c) && (code c <=? 122).
Definition is_digit (c : ascii) : bool := (48 <=? code c) && (code c <=? 57).
Definition is_alpha (c : ascii) : bool := is_upper c || is_lower c.

(** [\w] on ASCII text: letters, digits and the underscore. *)
Definition is_word (c : ascii) : bool :=
  is_alpha c || is_digit c || (code c =? 95).

(** [\s] and [str.isspace]: tab, LF, VT, FF, CR, FS..US and the space. *)
Definition is_space (c : ascii) : bool :=
  ((9 <=? code c) && (code c <=? 13)) ||
  ((28 <=? code c) && (code c <=? 32)).

(** Text within ASCII: every character is below 128. On such text the
    classes above, the case mappings below and the matcher of [Re] are
    those of Python's [str] and [re]; beyond ASCII Python's follow Unicode,
    so what is proved of a class or of a case mapping is stated for ASCII
    text. *)
Definition is_ascii_char (c : ascii) : bool := code c <? 128.
Definition is_ascii (s : string) : bool := forallb is_ascii_char (chars s).

Definition lower_char (c : ascii) : ascii :=
  if is_upper c then ascii_of_nat (code c + 32) else c.
Definition upper_char (c : ascii) : ascii :=
  if is_lower c then ascii_of_nat (code c - 32) else c.

Definition lower_l (l : list ascii) : list ascii := map lower_char l.
Definition upper_l (l : list ascii) : list ascii := map upper_char l.

(** [s.lower()] and [s.upper()]. *)
Definition lower (s : string) : string := str (lower_l (chars s)).
Definition upper (s : string) : string := str (upper_l (chars s)).

Fixpoint prefix_l (p s : list ascii) : bool :=
  match p, s with
  | [], _ => true
  | a :: p', b :: s' => Ascii.eqb a b && prefix_l p' s'
  | _ :: _, [] => false
  end.

Fixpoint contains_l (p s : list ascii) : bool :=
  prefix_l p s ||
  match s with
  | [] => false
  | _ :: s' => contains_l p s'
  end.

(** [p in s] for strings. *)
Definition contains (p s : string) : bool := contains_l (chars p) (chars s).

(** [sep.join(l)]. *)
Fixpoint join (sep : string) (l : list string) : string :=
  match l with
  | [] => ""
  | [x] => x
  | x :: tl => (x ++ sep ++ join sep tl)%string
  end.

Fixpoint lstrip_l (l : list ascii) : list ascii :=
  match l with
  | c :: tl => if is_space c then lstrip_l tl else l
  | [] => []
  end.

(** [s.strip()]. *)
Definition strip (s : string) : string :=
  str (rev (lstrip_l (rev (lstrip_l (chars s))))).

(** [s.index(c)] for a one-character needle: [None] stands for the
    [ValueError] of a missing needle. *)
Fixpoint index_l (c : ascii) (l : list ascii) : option nat :=
  match l with
  | [] => None
  | x :: tl => if Ascii.eqb x c then Some 0
               else option_map S (index_l c tl)
  end.

(** [s.rindex(c)]. *)
Fixpoint rindex_l (c : ascii) (l : list ascii) : option nat :=
  match l with
  | [] => None
  | x :: tl => match rindex_l c tl with
               | Some i => Some (S i)
               | None => if Ascii.eqb x c then Some 0 else None
               end
  end.

(** [s[i:j]] for [0 <= i], [0 <= j]. *)
Definition slice (s : list ascii) (i j : nat) : list ascii :=
  firstn (j - i) (skipn i s).

(** Python truthiness of a [str | None] value. *)
Definition truthy (v : option string) : bool :=
  match v with
  | Some s => negb (String.eqb s "")
  | None => false
  end.

(** [v or d] for a [str | None] value and a string default. *)
Definition or_str (v : option string) (d : string) : string :=
  match v with
  | Some s => if String.eqb s "" then d else s
  | None => d
  end.

(** The double quote, and characters outside ASCII used by the templates
    (the curly quotes of [CONFIRM_TEMPLATE], UTF-8 encoded). *)
Definition dq : string := String (ascii_of_nat 34) "".
Definition nl : string := String (ascii_of_nat 10) "".
Definition ldquo : string :=
  String (ascii_of_nat 226) (String (ascii_of_nat 128) (String (ascii_of_nat 156) "")).
Definition rdquo : string :=
  String (ascii_of_nat 226) (String (ascii_of_nat 128) (String (ascii_of_nat 157) "")).

End Text.

(* ===================================================================== *)
(** ** Regular expressions: syntax and a backtracking matcher            *)
(* ===================================================================== *)

Module Re.
Import Text.

(** The fragment of Python's [re] syntax the source uses. [Chr p] is one
    character satisfying [p] (a literal, a class, [.]); [Star] is the
    greedy [*]; [WordB] is [\b]; [Grp] is a capturing group. *)
Inductive re : Type :=
| Eps
| Chr (p : ascii -> bool)
| Cat (a b : re)
| Alt (a b : re)
| Star (a : re)
| WordB
| Grp (a : re).

Definition Plus (a : re) : re := Cat a (Star a).
Definition Opt (a : re) : re := Alt a Eps.

(** Matcher state: the character before the cursor (for [\b]), the text
    from the cursor on, and the text of the group captured last. *)
Record mstate : Type := MState {
  prev : option ascii;
  rest : list ascii;
  grp : option (list ascii)
}.

Definition word_opt (c : option ascii) : bool :=
  match c with Some x => is_word x | None => false end.

Definition at_boundary (st : mstate) : bool :=
  xorb (word_opt (prev st)) (word_opt (hd_error (rest st))).

(** The loop of a greedy [*]: one more round of [step] that consumes text
    is tried before leaving the loop. [fuel] bounds the rounds by the
    length of the text left. *)
Fixpoint star_loop (step : (mstate -> option mstate) -> mstate -> option mstate)
                   (k : mstate -> option mstate) (fuel : nat) (st : mstate)
  : option mstate :=
  match fuel with
  | 0 => k st
  | S f =>
      match step (fun st' =>
                    if length (rest st') <? length (rest st)
                    then star_loop step k f st' else None) st with
      | Some x => Some x
      | None => k st
      end
  end.

(** [m r k st]: match [r] at the cursor of [st], then continue with [k];
    the first success in Python's backtracking order. *)
Fixpoint m (r : re) (k : mstate -> option mstate) (st : mstate)
  : option mstate :=
  match r with
  | Eps => k st
  | Chr p =>
      match rest st with
      | c :: tl => if p c then k (MState (Some c) tl (grp st)) else None
      | [] => None
      end
  | Cat a b => m a (m b k) st
  | Alt a b =>
      match m a k st with
      | Some x => Some x
      | None => m b k st
      end
  | Star a => star_loop (m a) k (S (length (rest st))) st
  | WordB => if at_boundary st then k st else None
  | Grp a =>
      m a (fun st' =>
             k (MState (prev st') (rest st')
                  (Some (firstn (length (rest st) - length (rest st')) (rest st)))))
        st
  end.

(** A match object: where it starts, its text ([group(0)]), the captured
    group if any, and the text and context after it. *)
Record rmatch : Type := RMatch {
  m_start : nat;
  m_text : list ascii;
  m_group : option (list ascii);
  m_prev : option ascii;
  m_rest : list ascii
}.

Definition match_here (r : re) (pv : option ascii) (s : list ascii)
                      (off : nat) : option rmatch :=
  match m r Some (MState pv s None) with
  | Some st => Some (RMatch off (firstn (length s - length (rest st)) s)
                            (grp st) (prev st) (rest st))
  | None => None
  end.

(** [pattern.search]: the leftmost position with a match. *)
Fixpoint search_from (r : re) (pv : option ascii) (s : list ascii)
                     (off : nat) : option rmatch :=
  match match_here r pv s off with
  | Some x => Some x
  | None =>
      match s with
      | [] => None
      | c :: tl => search_from r (Some c) tl (S off)
      end
  end.

Definition search (r : re) (s : string) : option rmatch :=
  search_from r None (chars s) 0.

(** What [findall] lists for a match: the group when the pattern has one,
    the whole match otherwise. *)
Definition item (x : rmatch) : list ascii :=
  match m_group x with Some g => g | None => m_text x end.

(** [pattern.findall]: successive non-overlapping matches. After an empty
    match the scan moves one character on. *)
Fixpoint findall_from (fuel : nat) (r : re) (pv : option ascii)
                      (s : list ascii) : list (list ascii) :=
  match fuel with
  | 0 => []
  | S f =>
      match search_from r pv s 0 with
      | None => []
      | Some x =>
          item x ::
          match m_text x, m_rest x with
          | [], [] => []
          | [], c :: tl => findall_from f r (Some c) tl
          | _ :: _, tl => findall_from f r (m_prev x) tl
          end
      end
  end.

Definition findall (r : re) (s : string) : list string :=
  map str (findall_from (S (String.length s)) r None (chars s)).

(** Pattern builders. *)
Definition ch (c : ascii) : re := Chr (Ascii.eqb c).
Definition ch_i (c : ascii) : re :=
  Chr (fun x => Ascii.eqb (lower_char x) (lower_char c)).

Fixpoint lit_l (l : list ascii) : re :=
  match l with
  | [] => Eps
  | [c] => ch c
  | c :: tl => Cat (ch c) (lit_l tl)
  end.
Fixpoint lit_i_l (l : list ascii) : re :=
  match l with
  | [] => Eps
  | [c] => ch_i c
  | c :: tl => Cat (ch_i c) (lit_i_l tl)
  end.

(** A literal, and a literal under [re.I]. *)
Definition lit (s : string) : re := lit_l (chars s).
Definition lit_i (s : string) : re := lit_i_l (chars s).

Fixpoint alts (l : list re) : re :=
  match l with
  | [] => Chr (fun _ => false)
  | [a] => a
  | a :: tl => Alt a (alts tl)
  end.

Fixpoint cats (l : list re) : re :=
  match l with
  | [] => Eps
  | [a] => a
  | a :: tl => Cat a (cats tl)
  end.

Definition w_ : re := Chr is_word.
Definition s_ : re := Chr is_space.
Definition S_ : re := Chr (fun c => negb (is_space c)).
Definition dot : re := Chr (fun c => negb (Ascii.eqb c (ascii_of_nat 10))).

End Re.

(* ===================================================================== *)
(** ** Config / Patterns ([server.py], lines 60-94)                      *)
(* ===================================================================== *)

Module Patterns.
Import Text Re.

Definition bounded (words : list re) : re :=
  cats [WordB; Grp (alts words); WordB].

(** [don'?t] *)
Definition dont_i : re := cats [lit_i "don"; Opt (ch "'"); lit_i "t"].

(** [YES_RE], compiled with [re.I]. *)
Definition YES_RE : re :=
  bounded (map lit_i ["yes"; "yep"; "yeah"; "sure"; "confirm"; "go ahead";
                      "proceed"; "looks good"; "create it"; "do it"]).

(** [NO_RE], compiled with [re.I]. *)
Definition NO_RE : re :=
  bounded [lit_i "no"; lit_i "nah"; lit_i "stop"; lit_i "cancel"; dont_i;
           lit_i "hold"; lit_i "wait"].

(** [NO_EMAIL_RE], compiled with [re.I]. *)
Definition NO_EMAIL_RE : re :=
  cats [WordB; Grp (alts [dont_i; lit_i "do not"; lit_i "no"; lit_i "skip"]);
        Plus s_; lit_i "email"; WordB].

(** [[\w\.-]] *)
Definition email_chr : re :=
  Chr (fun c => is_word c || Ascii.eqb c "." || Ascii.eqb c "-").

(** [EMAIL_RE = [\w\.-]+@[\w\.-]+\.\w+] *)
Definition EMAIL_RE : re :=
  cats [Plus email_chr; ch "@"; Plus email_chr; ch "."; Plus w_].

(** [URL_RE = https?://\S+] *)
Definition URL_RE : re :=
  cats [lit "http"; Opt (ch "s"); lit "://"; Plus S_].

Definition REQUIRED : list string :=
  ["title"; "start_iso"; "end_iso"; "timezone"].

Definition TZ_WORDS : list (string * string) :=
  [("pacific", "America/Los_Angeles");
   ("mountain", "America/Denver");
   ("central", "America/Chicago");
   ("eastern", "America/New_York")].

Definition TZ_ABBR : list (string * string) :=
  [("PT", "America/Los_Angeles"); ("PST", "America/Los_Angeles");
   ("PDT", "America/Los_Angeles");
   ("MT", "America/Denver"); ("MST", "America/Denver");
   ("MDT", "America/Denver");
   ("CT", "America/Chicago"); ("CST", "America/Chicago");
   ("CDT", "America/Chicago");
   ("ET", "America/New_York"); ("EST", "America/New_York");
   ("EDT", "America/New_York")].

(** The alternation of [_detect_tz_tokens], in the order of the source. *)
Definition TZ_TOKENS : list string :=
  ["PDT"; "PST"; "PT"; "MDT"; "MST"; "MT"; "CDT"; "CST"; "CT";
   "EDT"; "EST"; "ET"].

(** [\b(PDT|PST|PT|MDT|MST|MT|CDT|CST|CT|EDT|EST|ET)\b] with [re.I]. *)
Definition TZ_RE : re := bounded (map lit_i TZ_TOKENS).

(** [\bwith\s+([A-Z][a-zA-Z]+)\b] *)
Definition TITLE_RE : re :=
  cats [WordB; lit "with"; Plus s_;
        Grp (Cat (Chr is_upper) (Plus (Chr is_alpha))); WordB].

(** [\b(check|verify|see)\b.*\b(avail|availability|free|busy)\b]; the
    source only tests whether it matches, the groups are not read. *)
Definition AVAIL_RE_1 : re :=
  cats [WordB; alts (map lit ["check"; "verify"; "see"]); WordB; Star dot;
        WordB; alts (map lit ["avail"; "availability"; "free"; "busy"]);
        WordB].

(** [\bam i (free|busy)\b] *)
Definition AVAIL_RE_2 : re :=
  cats [WordB; lit "am i "; alts (map lit ["free"; "busy"]); WordB].

Definition EVENT_LINK_LABEL : string := "Link".

(** [dict.get] on a table with string keys. *)
Fixpoint assoc {A} (k : string) (l : list (string * A)) : option A :=
  match l with
  | [] => None
  | (k', v) :: tl => if String.eqb k k' then Some v else assoc k tl
  end.

(** [bool(pattern.search(text))] *)
Definition matches (r : re) (s : string) : bool :=
  match search r s with Some _ => true | None => false end.

End Patterns.

(* ===================================================================== *)
(** ** Values exchanged with the collaborators                           *)
(* ===================================================================== *)

Module Data.
Import Text Patterns.
Local Open Scope string_scope.

(** What [json.loads] returns. Numbers are kept as integers. *)
#[warnings="-register-all"]
Inductive json : Type :=
| JNull
| JBool (b : bool)
| JNum (n : Z)
| JStr (s : string)
| JArr (l : list json)
| JObj (kvs : list (string * json)).

(** Python truthiness of a decoded value. *)
Definition json_truthy (v : json) : bool :=
  match v with
  | JNull => false
  | JBool b => b
  | JNum n => negb (Z.eqb n 0)
  | JStr s => negb (String.eqb s "")
  | JArr l => match l with [] => false | _ => true end
  | JObj kvs => match kvs with [] => false | _ => true end
  end.

(** [v in (None, "", [])] *)
Definition json_blank (v : json) : bool :=
  match v with
  | JNull => true
  | JStr s => String.eqb s ""
  | JArr [] => true
  | _ => false
  end.

(** Python exceptions: the class name and [str(e)]. *)
Inductive exn : Type := Exn (cls : string) (msg : string).

Definition exn_msg (e : exn) : string := let 'Exn _ m := e in m.

(** The result dictionaries of the service clients:
    [{"ok": True, "data": {...}}] and [{"ok": False, "error": "..."}]. *)
Inductive ToolResult : Type :=
| ResOk (data : list (string * option string))
| ResErr (error : string).


(** [(r.get("data", {}) or {}).get(k)] *)
Definition data_get (k : string) (r : ToolResult) : option string :=
  match r with
  | ResOk d => match assoc k d with Some v => v | None => None end
  | ResErr _ => None
  end.

(** [r.get(k)] for a key that is neither ["ok"], ["data"] nor ["error"]. *)
Definition top_get (k : string) (r : ToolResult) : option string := None.

(** Outcome of a request to a Google endpoint inside the clients' [try]:
    a response, an [HttpError], or any other exception (credentials,
    transport), which the clients do not catch. *)
Inductive api_outcome (A : Type) : Type :=
| ApiOk (a : A)
| ApiHttpError (msg : string)
| ApiOther (e : exn).
Arguments ApiOk {A} a.
Arguments ApiHttpError {A} msg.
Arguments ApiOther {A} e.

(** [app/config.py]: the frozen [Settings] dataclass. *)
Record Settings : Type := {
  google_client_secret_path : string;
  google_token_path : string;
  gmail_from : string;
  llm_model : string;
  default_timezone : string
}.

(** The fallbacks of [os.getenv] in [app/config.py]. *)
Definition default_settings : Settings :=
  {| google_client_secret_path := "google_client_secret.json";
     google_token_path := "token.json";
     gmail_from := "";
     llm_model := "phi3:mini";
     default_timezone := "America/Chicago" |}.

(** [app/domain/schemas.py]: [EventIn] after validation. *)
Record EventIn : Type := {
  ev_title : string;
  ev_start_iso : string;
  ev_end_iso : string;
  ev_timezone : string;
  ev_attendees : list string;
  ev_location : option string;
  ev_description : option string;
  ev_recurrence : option string
}.

(** The request body [CalendarClient.create_event] builds. The optional
    keys are present only when the value is truthy. *)
Record CalBody : Type := {
  b_summary : string;
  b_start : string * string;
  b_end : string * string;
  b_attendees : option (list string);
  b_location : option string;
  b_description : option string;
  b_recurrence : option (list string)
}.

(** The request body of [CalendarClient.get_busy]. *)
Record BusyBody : Type := {
  q_timeMin : string;
  q_timeMax : string;
  q_timeZone : string
}.

(** A busy block [{"start": ..., "end": ...}]. *)
Definition busy_block : Type := (option string * option string)%type.

(** What [dateutil.parser.parse] returns: the wall-clock time in seconds,
    the UTC offset when the text carries one, and the rendering by
    [isoformat(timespec="seconds")]. *)
Record datetime : Type := {
  dt_local : Z;
  dt_offset : option Z;
  dt_iso : string
}.

(** Everything outside the repository that a turn talks to. [None] from a
    parser stands for the exception it raises. *)
Record Env : Type := {
  settings : Settings;
  (** [dateutil.parser.parse] *)
  dtparse_parse : string -> option datetime;
  (** UTC offset of [tz.gettz(DEFAULT_TZ)] at a wall-clock time; the
      configured zone is one [dateutil] knows *)
  default_utcoffset : Z -> Z;
  (** [time.strftime("%Y-%m-%d (%A)")] *)
  time_strftime : string;
  (** [llm.complete(prompt).text]: the text, or the exception raised *)
  llm_complete : string -> exn + string;
  (** [json.loads] *)
  json_loads : string -> option json;
  (** pydantic's [EmailStr]: the validated address, or a validation error *)
  email_str : string -> option string;
  (** [events().insert(...).execute()]: the [id] and [htmlLink] of the
      response *)
  calendar_insert : CalBody -> api_outcome (option string * option string);
  (** [freebusy().query(...).execute()] *)
  calendar_freebusy : BusyBody -> api_outcome (list busy_block);
  (** [base64.urlsafe_b64encode(msg.encode()).decode()] *)
  b64 : string -> string;
  (** [users().messages().send(...).execute()]: the [id] of the response *)
  gmail_send : string -> api_outcome (option string)
}.

End Data.

(* ===================================================================== *)
(** ** Session state                                                      *)
(* ===================================================================== *)

Module State.
Import Text Patterns Data.
Local Open Scope string_scope.

(** The slot dictionary: its nine keys are created by [_new_session] and
    never added to or removed. *)
Record Slots : Type := {
  title : option string;
  start_iso : option string;
  end_iso : option string;
  timezone : option string;
  attendees : list string;
  location : option string;
  description : option string;
  recurrence : option string;
  link : option string
}.

(** [AgentState] ([TypedDict], [total=False]): keys a fresh session does
    not have are [option]s. *)
Record AgentState : Type := {
  slots : Slots;
  history : list (string * string);
  busy : option (list busy_block);
  created_event : option ToolResult;
  email_result : option ToolResult;
  reply : string;
  new_user_message : option string;
  awaiting_confirm : bool;
  confirm_summary : string
}.

(** The dictionaries the tools and the policy step return. *)
Record Updates : Type := {
  u_busy : option (list busy_block);
  u_created_event : option ToolResult;
  u_email_result : option ToolResult;
  u_reply : option string;
  u_awaiting_confirm : option bool;
  u_confirm_summary : option string
}.

Definition no_updates : Updates :=
  {| u_busy := None; u_created_event := None; u_email_result := None;
     u_reply := None; u_awaiting_confirm := None; u_confirm_summary := None |}.

(** [{"reply": r}] *)
Definition upd_reply (r : string) : Updates :=
  {| u_busy := None; u_created_event := None; u_email_result := None;
     u_reply := Some r; u_awaiting_confirm := None; u_confirm_summary := None |}.

(** [{"awaiting_confirm": True, "confirm_summary": s, "reply": s}] *)
Definition upd_confirm (s : string) : Updates :=
  {| u_busy := None; u_created_event := None; u_email_result := None;
     u_reply := Some s; u_awaiting_confirm := Some true;
     u_confirm_summary := Some s |}.

Definition or_else {A} (a : option A) (d : A) : A :=
  match a with Some x => x | None => d end.

Definition first_some {A} (a b : option A) : option A :=
  match a with Some _ => a | None => b end.

(** [state.update(updates)] *)
Definition state_update (u : Updates) (st : AgentState) : AgentState :=
  {| slots := slots st;
     history := history st;
     busy := first_some (u_busy u) (busy st);
     created_event := first_some (u_created_event u) (created_event st);
     email_result := first_some (u_email_result u) (email_result st);
     reply := or_else (u_reply u) (reply st);
     new_user_message := new_user_message st;
     awaiting_confirm := or_else (u_awaiting_confirm u) (awaiting_confirm st);
     confirm_summary := or_else (u_confirm_summary u) (confirm_summary st) |}.

Definition set_slots (s : Slots) (st : AgentState) : AgentState :=
  {| slots := s; history := history st; busy := busy st;
     created_event := created_event st; email_result := email_result st;
     reply := reply st; new_user_message := new_user_message st;
     awaiting_confirm := awaiting_confirm st;
     confirm_summary := confirm_summary st |}.

(** [state["history"].append({"role": role, "content": content})] *)
Definition history_append (role content : string) (st : AgentState)
  : AgentState :=
  {| slots := slots st; history := (history st ++ [(role, content)])%list;
     busy := busy st;
     created_event := created_event st; email_result := email_result st;
     reply := reply st; new_user_message := new_user_message st;
     awaiting_confirm := awaiting_confirm st;
     confirm_summary := confirm_summary st |}.

Definition set_new_user_message (t : string) (st : AgentState) : AgentState :=
  {| slots := slots st; history := history st; busy := busy st;
     created_event := created_event st; email_result := email_result st;
     reply := reply st; new_user_message := Some t;
     awaiting_confirm := awaiting_confirm st;
     confirm_summary := confirm_summary st |}.

(** [state["awaiting_confirm"] = b; state["confirm_summary"] = s] *)
Definition set_confirm (b : bool) (s : string) (st : AgentState) : AgentState :=
  {| slots := slots st; history := history st; busy := busy st;
     created_event := created_event st; email_result := email_result st;
     reply := reply st; new_user_message := new_user_message st;
     awaiting_confirm := b; confirm_summary := s |}.

Definition set_title (v : option string) (s : Slots) : Slots :=
  {| title := v; start_iso := start_iso s; end_iso := end_iso s;
     timezone := timezone s; attendees := attendees s; location := location s;
     description := description s; recurrence := recurrence s; link := link s |}.
Definition set_start_iso (v : option string) (s : Slots) : Slots :=
  {| title := title s; start_iso := v; end_iso := end_iso s;
     timezone := timezone s; attendees := attendees s; location := location s;
     description := description s; recurrence := recurrence s; link := link s |}.
Definition set_end_iso (v : option string) (s : Slots) : Slots :=
  {| title := title s; start_iso := start_iso s; end_iso := v;
     timezone := timezone s; attendees := attendees s; location := location s;
     description := description s; recurrence := recurrence s; link := link s |}.
Definition set_timezone (v : option string) (s : Slots) : Slots :=
  {| title := title s; start_iso := start_iso s; end_iso := end_iso s;
     timezone := v; attendees := attendees s; location := location s;
     description := description s; recurrence := recurrence s; link := link s |}.
Definition set_attendees (v : list string) (s : Slots) : Slots :=
  {| title := title s; start_iso := start_iso s; end_iso := end_iso s;
     timezone := timezone s; attendees := v; location := location s;
     description := description s; recurrence := recurrence s; link := link s |}.
Definition set_location (v : option string) (s : Slots) : Slots :=
  {| title := title s; start_iso := start_iso s; end_iso := end_iso s;
     timezone := timezone s; attendees := attendees s; location := v;
     description := description s; recurrence := recurrence s; link := link s |}.
Definition set_description (v : option string) (s : Slots) : Slots :=
  {| title := title s; start_iso := start_iso s; end_iso := end_iso s;
     timezone := timezone s; attendees := attendees s; location := location s;
     description := v; recurrence := recurrence s; link := link s |}.
Definition set_recurrence (v : option string) (s : Slots) : Slots :=
  {| title := title s; start_iso := start_iso s; end_iso := end_iso s;
     timezone := timezone s; attendees := attendees s; location := location s;
     description := description s; recurrence := v; link := link s |}.
Definition set_link (v : option string) (s : Slots) : Slots :=
  {| title := title s; start_iso := start_iso s; end_iso := end_iso s;
     timezone := timezone s; attendees := attendees s; location := location s;
     description := description s; recurrence := recurrence s; link := v |}.

(** [bool(slots.get(k))] *)
Definition slot_truthy (k : string) (s : Slots) : bool :=
  if String.eqb k "title" then truthy (title s)
  else if String.eqb k "start_iso" then truthy (start_iso s)
  else if String.eqb k "end_iso" then truthy (end_iso s)
  else if String.eqb k "timezone" then truthy (timezone s)
  else if String.eqb k "attendees"
       then match attendees s with [] => false | _ => true end
  else if String.eqb k "location" then truthy (location s)
  else if String.eqb k "description" then truthy (description s)
  else if String.eqb k "recurrence" then truthy (recurrence s)
  else if String.eqb k "link" then truthy (link s)
  else false.

(** [slots[k] = v] for a key holding [str | None]; [None] when [k] is no
    such key. *)
Definition set_str_slot (k : string) (v : option string) (s : Slots)
  : option Slots :=
  if String.eqb k "title" then Some (set_title v s)
  else if String.eqb k "start_iso" then Some (set_start_iso v s)
  else if String.eqb k "end_iso" then Some (set_end_iso v s)
  else if String.eqb k "timezone" then Some (set_timezone v s)
  else if String.eqb k "location" then Some (set_location v s)
  else if String.eqb k "description" then Some (set_description v s)
  else if String.eqb k "recurrence" then Some (set_recurrence v s)
  else if String.eqb k "link" then Some (set_link v s)
  else None.

(** What happened on the collaborator objects during a turn, oldest first.
    [EvToolCreateEvent b] marks an entry into [tool_create_event] and keeps
    the value of [awaiting_confirm] the tool was handed. *)
Inductive Event : Type :=
| EvLlm (prompt : string)
| EvToolCreateEvent (awaiting : bool)
| EvCalCreateEvent (e : EventIn)
| EvCalInsert (b : CalBody)
| EvCalGetBusy (s e tz : string)
| EvCalFreeBusy (b : BusyBody)
| EvGmSend (to : list string) (subject body : string)
| EvGmailSend (raw : string).

(** An event on the Calendar collaborator. *)
Definition is_calendar_event (e : Event) : bool :=
  match e with
  | EvCalCreateEvent _ | EvCalInsert _ | EvCalGetBusy _ _ _
  | EvCalFreeBusy _ => true
  | _ => false
  end.

End State.

(* ===================================================================== *)
(** ** A monad for one turn: session state, call log, exceptions         *)
(* ===================================================================== *)

Module Turn.
Import Data State.

Inductive outcome (A : Type) : Type :=
| Ok (a : A)
| Raise (e : exn).
Arguments Ok {A} a.
Arguments Raise {A} e.

(** The session dictionary (mutated in place by the source) and the log. *)
Record World : Type := {
  sess : AgentState;
  log : list Event
}.

Definition M (A : Type) : Type := World -> World * outcome A.

Definition ret {A} (a : A) : M A := fun w => (w, Ok a).

Definition bind {A B} (c : M A) (f : A -> M B) : M B :=
  fun w =>
    match c w with
    | (w', Ok a) => f a w'
    | (w', Raise e) => (w', Raise e)
    end.

Definition raise {A} (e : exn) : M A := fun w => (w, Raise e).

(** [try: c except Exception as e: h e] *)
Definition try_catch {A} (c : M A) (h : exn -> M A) : M A :=
  fun w =>
    match c w with
    | (w', Ok a) => (w', Ok a)
    | (w', Raise e) => h e w'
    end.

Definition get : M AgentState := fun w => (w, Ok (sess w)).

Definition modify (f : AgentState -> AgentState) : M unit :=
  fun w => ({| sess := f (sess w); log := log w |}, Ok tt).

Definition modify_slots (f : Slots -> Slots) : M unit :=
  modify (fun st => set_slots (f (slots st)) st).

Definition emit (e : Event) : M unit :=
  fun w => ({| sess := sess w; log := (log w ++ [e])%list |}, Ok tt).

Definition lift {A} (o : outcome A) : M A := fun w => (w, o).

Declare Scope turn_scope.
Delimit Scope turn_scope with turn.
Notation "x <- c ;; k" := (bind c (fun x => k))
  (at level 61, c at next level, right associativity) : turn_scope.
Notation "c ;; k" := (bind c (fun _ => k))
  (at level 61, right associativity) : turn_scope.

(** Run a computation on a session with an empty log. *)
Definition run {A} (c : M A) (st : AgentState) : World * outcome A :=
  c {| sess := st; log := [] |}.

End Turn.

(* ===================================================================== *)
(** ** Basic helpers ([server.py], lines 96-187)                         *)
(* ===================================================================== *)

Module Helpers.
Import Text Re Patterns Data State.
Local Open Scope string_scope.

Section WithEnv.
Variable E : Env.

(** [DEFAULT_TZ = getattr(settings, "default_timezone", ...)] *)
Definition DEFAULT_TZ : string := default_timezone (settings E).

Definition is_affirmative (text : string) : bool := matches YES_RE text.
Definition is_negative (text : string) : bool := matches NO_RE text.
Definition wants_no_email (text : string) : bool :=
  matches NO_EMAIL_RE (lower text).

(** The instant of an aware datetime, as [_parse_dt] makes it: a naive
    parse is placed in [DEFAULT_TZ]. *)
Definition dt_instant (d : datetime) : Z :=
  match dt_offset d with
  | Some o => (dt_local d - o)%Z
  | None => (dt_local d - default_utcoffset E (dt_local d))%Z
  end.

(** [_parse_dt]: [None] when [dateutil] raises. *)
Definition _parse_dt (s : string) : option datetime := dtparse_parse E s.

(** [sdt >= edt] on two results of [_parse_dt]: datetimes sharing the
    zone object of [DEFAULT_TZ] compare by wall-clock time, any other
    pair by instant. *)
Definition dt_ge (a b : datetime) : bool :=
  match dt_offset a, dt_offset b with
  | None, None => (dt_local b <=? dt_local a)%Z
  | _, _ => (dt_instant b <=? dt_instant a)%Z
  end.

(** One round of the loop of [_normalize_times]. *)
Definition normalize_one (v : option string) : option string :=
  match v with
  | Some s =>
      if String.eqb s "" then v
      else match dtparse_parse E s with
           | Some d => Some (dt_iso d)
           | None => v
           end
  | None => None
  end.

Definition _normalize_times (s : Slots) : Slots :=
  let s := set_start_iso (normalize_one (start_iso s)) s in
  let s := set_end_iso (normalize_one (end_iso s)) s in
  if truthy (timezone s) then s else set_timezone (Some DEFAULT_TZ) s.

Definition ORDER_LABEL : string := "end_iso (must be after start_iso)".

Definition _missing (s : Slots) : list string :=
  let miss := filter (fun k => negb (slot_truthy k s)) REQUIRED in
  match start_iso s, end_iso s with
  | Some si, Some ei =>
      if truthy (Some si) && truthy (Some ei) then
        match _parse_dt si, _parse_dt ei with
        | Some sdt, Some edt =>
            if dt_ge sdt edt then (miss ++ [ORDER_LABEL])%list else miss
        | _, _ => miss
        end
      else miss
  | _, _ => miss
  end.

End WithEnv.

(** [m[-1]] of a non-empty list, [None] on the empty one. *)
Definition last_opt {A} (l : list A) : option A :=
  match rev l with
  | [] => None
  | x :: _ => Some x
  end.

Definition _detect_tz_tokens (text : string) : option string :=
  let t := lower text in
  match find (fun wz => contains (fst wz) t) TZ_WORDS with
  | Some (_, zone) => Some zone
  | None =>
      match last_opt (findall TZ_RE text) with
      | Some tok => assoc (upper tok) TZ_ABBR
      | None => None
      end
  end.

Definition _cheap_title (text : string) : string :=
  match search TITLE_RE text with
  | Some x => "Meeting with " ++ str (item x)
  | None => "Meeting"
  end.

Definition mem (x : string) (l : list string) : bool :=
  existsb (String.eqb x) l.

(** The loop over [emails] of [_preextract_slots]: [seen] is computed once,
    before the loop, and each email whose lower-case form is not in it is
    appended. *)
Definition add_emails (emails : list string) (atts : list string)
  : list string :=
  let seen := map lower atts in
  (atts ++ filter (fun e => negb (mem (lower e) seen)) emails)%list.

(** [# emails]: the addresses of the message join the attendees. *)
Definition extract_emails (text : string) (s : Slots) : Slots :=
  let emails := findall EMAIL_RE text in
  match emails with
  | [] => s
  | _ => set_attendees (add_emails emails (attendees s)) s
  end.

(** [# first URL as link]: only when the link slot is not set. *)
Definition extract_link (text : string) (s : Slots) : Slots :=
  if truthy (link s) then s
  else match search URL_RE text with
       | Some x => set_link (Some (str (m_text x))) s
       | None => s
       end.

(** [# tz hint] *)
Definition extract_tz (text : string) (s : Slots) : Slots :=
  match _detect_tz_tokens text with
  | Some z => if truthy (Some z) then set_timezone (Some z) s else s
  | None => s
  end.

Definition _preextract_slots (st : AgentState) : AgentState :=
  let text := or_str (new_user_message st) "" in
  if String.eqb text "" then st
  else
    set_slots
      (extract_tz text (extract_link text (extract_emails text (slots st))))
      st.

Section WithEnv2.
Variable E : Env.

(** [CONFIRM_TEMPLATE.format(...)] *)
Definition _build_confirm_summary (s : Slots) : string :=
  let title := or_str (title s) "Untitled" in
  let start := or_str (start_iso s) "?" in
  let end_ := or_str (end_iso s) "?" in
  let tzid := or_str (timezone s) (DEFAULT_TZ E) in
  let atts := match attendees s with
              | [] => "none"
              | l => let j := join ", " l in
                     if String.eqb j "" then "none" else j
              end in
  let loc := if truthy (location s)
             then ", location: " ++ or_str (location s) "" else "" in
  let lnk := if truthy (link s)
             then ", link: " ++ or_str (link s) "" else "" in
  "Create " ++ ldquo ++ title ++ rdquo ++ " from " ++ start ++ " to " ++ end_
  ++ " (" ++ tzid ++ ") with attendees [" ++ atts ++ "]" ++ loc ++ lnk
  ++ "? (yes/no)".

(** [wants_check_availability] *)
Definition wants_check_availability (text : string) : bool :=
  let t := lower text in
  matches AVAIL_RE_1 t || matches AVAIL_RE_2 t.

End WithEnv2.

End Helpers.

(* ===================================================================== *)
(** ** The service clients ([app/services])                              *)
(* ===================================================================== *)

Module Services.
Import Text Patterns Data State Turn.
Local Open Scope string_scope.
Local Open Scope turn_scope.

(** Run-time objects held in attributes of the clients. *)
Inductive pyobj : Type :=
| ObjAuth        (** a [GoogleAuth] *)
| ObjService     (** a built [googleapiclient] service *)
| ObjMethod (name : string).

(** An instance: the name of its class, the attributes assigned on it, and
    the methods its class defines. *)
Record instance : Type := {
  cls_name : string;
  attrs : list (string * pyobj);
  methods : list string
}.

(** [CalendarClient.__init__]: the only assignment is [self._auth = auth]. *)
Definition CalendarClient (auth : pyobj) : instance :=
  {| cls_name := "CalendarClient";
     attrs := [("_auth", auth)];
     methods := ["__init__"; "_svc"; "create_event"; "get_busy"] |}.

(** [GmailClient.__init__] *)
Definition GmailClient (auth : pyobj) : instance :=
  {| cls_name := "GmailClient";
     attrs := [("_auth", auth)];
     methods := ["__init__"; "_svc"; "send"] |}.

(** Attribute lookup [self.name]: instance attributes, then the class. *)
Definition getattr (self : instance) (name : string) : outcome pyobj :=
  match assoc name (attrs self) with
  | Some o => Ok o
  | None =>
      if existsb (String.eqb name) (methods self) then Ok (ObjMethod name)
      else Raise (Exn "AttributeError"
                      ("'" ++ cls_name self ++ "' object has no attribute '"
                       ++ name ++ "'"))
  end.

(** The module-level objects of [server.py]. *)
Definition auth : pyobj := ObjAuth.
Definition cal : instance := CalendarClient auth.
Definition gm : instance := GmailClient auth.

Definition opt_if (b : bool) {A} (a : A) : option A :=
  if b then Some a else None.

Section WithEnv.
Variable E : Env.

(** The request body of [CalendarClient.create_event]. *)
Definition cal_body (e : EventIn) : CalBody :=
  {| b_summary := ev_title e;
     b_start := (ev_start_iso e, ev_timezone e);
     b_end := (ev_end_iso e, ev_timezone e);
     b_attendees :=
       match ev_attendees e with [] => None | l => Some l end;
     b_location := opt_if (truthy (ev_location e)) (or_str (ev_location e) "");
     b_description :=
       opt_if (truthy (ev_description e)) (or_str (ev_description e) "");
     b_recurrence :=
       opt_if (truthy (ev_recurrence e)) [or_str (ev_recurrence e) ""] |}.

(** What [create_event] returns for an outcome of the request; [None] when
    the exception is not an [HttpError] and passes through. *)
Definition cal_result (o : api_outcome (option string * option string))
  : option ToolResult :=
  match o with
  | ApiOk (id, htmlLink) => Some (ResOk [("id", id); ("link", htmlLink)])
  | ApiHttpError msg => Some (ResErr msg)
  | ApiOther _ => None
  end.

(** [CalendarClient.create_event] *)
Definition create_event (self : instance) (e : EventIn) : M ToolResult :=
  emit (EvCalCreateEvent e) ;;
  let body := cal_body e in
  emit (EvCalInsert body) ;;
  match calendar_insert E body with
  | ApiOk (id, htmlLink) => ret (ResOk [("id", id); ("link", htmlLink)])
  | ApiHttpError msg => ret (ResErr msg)
  | ApiOther ex => raise ex
  end.

(** [CalendarClient.get_busy]: the request goes through [self.service]. *)
Definition get_busy (self : instance) (start_iso end_iso timezone : string)
  : M (list busy_block) :=
  emit (EvCalGetBusy start_iso end_iso timezone) ;;
  let body := {| q_timeMin := start_iso; q_timeMax := end_iso;
                 q_timeZone := timezone |} in
  service <- lift (getattr self "service") ;;
  match service with
  | ObjService =>
      emit (EvCalFreeBusy body) ;;
      match calendar_freebusy E body with
      | ApiOk blocks => ret blocks
      | ApiHttpError msg => raise (Exn "HttpError" msg)
      | ApiOther ex => raise ex
      end
  | ObjAuth =>
      raise (Exn "AttributeError"
                 "'GoogleAuth' object has no attribute 'freebusy'")
  | ObjMethod _ =>
      raise (Exn "AttributeError" "'function' object has no attribute 'freebusy'")
  end.

(** [GmailClient.send] *)
Definition send (self : instance) (to : list string)
                (subject body_text : string) : M ToolResult :=
  emit (EvGmSend to subject body_text) ;;
  if String.eqb (gmail_from (settings E)) "" then
    ret (ResErr "GMAIL_FROM not set")
  else
    let msg := "From: " ++ gmail_from (settings E) ++ nl
               ++ "To: " ++ join ", " to ++ nl
               ++ "Subject: " ++ subject ++ nl ++ nl ++ body_text in
    let raw := b64 E msg in
    emit (EvGmailSend raw) ;;
    match gmail_send E raw with
    | ApiOk id => ret (ResOk [("id", id)])
    | ApiHttpError m => ret (ResErr m)
    | ApiOther ex => raise ex
    end.

End WithEnv.

End Services.

(* ===================================================================== *)
(** ** Tools ([server.py], lines 189-239)                                *)
(* ===================================================================== *)

Module Agent.
Import Text Re Patterns Data State Turn Helpers Services.
Local Open Scope string_scope.
Local Open Scope turn_scope.

(** [str(v)] of a [str | None] inside a format string. *)
Definition fmt (v : option string) : string :=
  match v with Some s => s | None => "None" end.

(** [a or b] on [str | None] values. *)
Definition or_opt (a b : option string) : option string :=
  if truthy a then a else b.

Section WithEnv.
Variable E : Env.

Definition tool_check_availability : M Updates :=
  st <- get ;;
  let s := slots st in
  if negb (truthy (start_iso s) && truthy (end_iso s) && truthy (timezone s))
  then ret (upd_reply
              "I need start time, end time, and timezone to check availability.")
  else
    try_catch
      (busy <- get_busy E cal (or_str (start_iso s) "") (or_str (end_iso s) "")
                        (or_str (timezone s) "") ;;
       match busy with
       | _ :: _ =>
           ret {| u_busy := Some busy; u_created_event := None;
                  u_email_result := None;
                  u_reply := Some "That time conflicts with another event.";
                  u_awaiting_confirm := None; u_confirm_summary := None |}
       | [] =>
           ret {| u_busy := Some []; u_created_event := None;
                  u_email_result := None;
                  u_reply := Some "You're free at that time.";
                  u_awaiting_confirm := None; u_confirm_summary := None |}
       end)
      (fun e => ret (upd_reply ("Availability check failed: " ++ exn_msg e))).

Definition ValidationError (what : string) : exn :=
  Exn "ValidationError" what.

(** [EmailStr] on every attendee. *)
Fixpoint validate_emails (l : list string) : outcome (list string) :=
  match l with
  | [] => Ok []
  | a :: tl =>
      match email_str E a with
      | None => Raise (ValidationError "attendees")
      | Some a' =>
          match validate_emails tl with
          | Ok tl' => Ok (a' :: tl')
          | Raise e => Raise e
          end
      end
  end.

(** The constructor [EventIn(...)] as [tool_create_event] calls it: pydantic
    checks the required strings, the minimal length of the title, and each
    attendee. *)
Definition make_EventIn (s : Slots) (desc : string) : outcome EventIn :=
  match title s, start_iso s, end_iso s, timezone s with
  | Some t, Some si, Some ei, Some tzid =>
      if String.eqb t "" then Raise (ValidationError "title")
      else
        match validate_emails (attendees s) with
        | Ok atts =>
            Ok {| ev_title := t; ev_start_iso := si; ev_end_iso := ei;
                  ev_timezone := tzid; ev_attendees := atts;
                  ev_location := location s;
                  ev_description :=
                    if String.eqb desc "" then None else Some desc;
                  ev_recurrence := recurrence s |}
        | Raise e => Raise e
        end
  | _, _, _, _ => Raise (ValidationError "required field")
  end.

(** The description sent with the event: a [Link: ...] line is appended
    when a link is set and the description does not mention one. *)
Definition link_description (s : Slots) : string :=
  let desc := or_str (description s) "" in
  if truthy (link s)
     && negb (contains (lower EVENT_LINK_LABEL) (lower desc))
  then (if String.eqb desc "" then "" else desc ++ nl)
       ++ EVENT_LINK_LABEL ++ ": " ++ fmt (link s)
  else desc.

(** The link the tool keeps: the first truthy of [data.link], [htmlLink]
    and [data.htmlLink] of the result. *)
Definition returned_link (created : ToolResult) : option string :=
  or_opt (or_opt (data_get "link" created) (top_get "htmlLink" created))
         (data_get "htmlLink" created).

Definition tool_create_event : M Updates :=
  st <- get ;;
  emit (EvToolCreateEvent (awaiting_confirm st)) ;;
  let s := slots st in
  let miss := _missing E s in
  match miss with
  | _ :: _ => ret (upd_reply ("Still missing: " ++ join ", " miss ++ "."))
  | [] =>
      let desc := link_description s in
      event_in <- lift (make_EventIn s desc) ;;
      created <- create_event E cal event_in ;;
      let lnk := returned_link created in
      (if truthy lnk then modify_slots (set_link lnk) else ret tt) ;;
      ret {| u_busy := None; u_created_event := Some created;
             u_email_result := None; u_reply := Some "Event created.";
             u_awaiting_confirm := None; u_confirm_summary := None |}
  end.

Definition EMAIL_SUBJECT (s : Slots) : string := "Invite: " ++ fmt (title s).

Definition EMAIL_BODY (s : Slots) (linkline : string) : string :=
  "You're invited to '" ++ fmt (title s) ++ "'." ++ nl
  ++ "Start: " ++ fmt (start_iso s) ++ nl
  ++ "End: " ++ fmt (end_iso s) ++ nl
  ++ "Timezone: " ++ fmt (timezone s) ++ nl ++ linkline.

Definition tool_send_email (yes : bool) : M Updates :=
  if negb yes then ret (upd_reply "Okay, no email sent.")
  else
    st <- get ;;
    let s := slots st in
    match created_event st with
    | None => ret (upd_reply "I couldn't find the event I just created.")
    | Some ev =>
        match attendees s with
        | [] => ret (upd_reply "Event created. (No attendees to email.)")
        | atts =>
            let lnk := or_str (or_opt (or_opt (data_get "link" ev)
                                              (top_get "htmlLink" ev))
                                      (link s)) "" in
            let linkline :=
              if String.eqb lnk "" then "" else "Link: " ++ lnk in
            result <- send E gm atts (EMAIL_SUBJECT s) (EMAIL_BODY s linkline) ;;
            ret {| u_busy := None; u_created_event := None;
                   u_email_result := Some result;
                   u_reply := Some "Event created and email sent.";
                   u_awaiting_confirm := None; u_confirm_summary := None |}
        end
    end.

End WithEnv.

End Agent.

(* ===================================================================== *)
(** ** Policy prompt and policy step ([server.py], lines 241-337)        *)
(* ===================================================================== *)

Module Policy.
Import Text Re Patterns Data State Turn Helpers Services Agent.
Local Open Scope string_scope.
Local Open Scope turn_scope.

Definition hex_digit (n : nat) : ascii :=
  if (n <? 10)%nat then ascii_of_nat (48 + n) else ascii_of_nat (87 + n).

(** The escapes of [json.dumps(..., ensure_ascii=False)] inside a string. *)
Definition json_escape_char (c : ascii) : string :=
  let n := code c in
  if (n =? 34)%nat then "\" ++ dq
  else if (n =? 92)%nat then "\\"
  else if (n =? 10)%nat then "\n"
  else if (n =? 13)%nat then "\r"
  else if (n =? 9)%nat then "\t"
  else if (n =? 8)%nat then "\b"
  else if (n =? 12)%nat then "\f"
  else if (n <? 32)%nat
       then "\u00" ++ String (hex_digit (n / 16)) (String (hex_digit (n mod 16)) "")
  else String c "".

Definition json_string (s : string) : string :=
  dq ++ String.concat "" (map json_escape_char (chars s)) ++ dq.

Definition json_opt (v : option string) : string :=
  match v with Some s => json_string s | None => "null" end.

Definition json_member (k v : string) : string := dq ++ k ++ dq ++ ": " ++ v.

(** [json.dumps(state["slots"], ensure_ascii=False)]: the keys in the order
    [_new_session] inserts them. *)
Definition json_dumps_slots (s : Slots) : string :=
  "{" ++ join ", "
    [json_member "title" (json_opt (title s));
     json_member "start_iso" (json_opt (start_iso s));
     json_member "end_iso" (json_opt (end_iso s));
     json_member "timezone" (json_opt (timezone s));
     json_member "attendees"
       ("[" ++ join ", " (map json_string (attendees s)) ++ "]");
     json_member "location" (json_opt (location s));
     json_member "description" (json_opt (description s));
     json_member "recurrence" (json_opt (recurrence s));
     json_member "link" (json_opt (link s))]
  ++ "}".

Section WithEnv.
Variable E : Env.

(** [AGENT_SYS], after [.strip()]. *)
Definition AGENT_SYS : string :=
  join nl
    ["You are a calendar-scheduling agent. Default timezone: "
       ++ DEFAULT_TZ E ++ ".";
     "Choose ONE action per turn. Return STRICT JSON ONLY (no prose).";
     "";
     "Schema:";
     "{";
     "  " ++ dq ++ "action" ++ dq ++ ": " ++ dq
       ++ "<ask|set|confirm|check_availability|create_event|send_email|finish>"
       ++ dq ++ ",";
     "  " ++ dq ++ "args" ++ dq ++ ": {}";
     "}";
     "";
     "Slots you can set: title, start_iso, end_iso, timezone, attendees, location, description, recurrence, link.";
     "";
     "Behavior:";
     "- Do NOT check availability unless the user explicitly asks (no proactive suggestions).";
     "- Do NOT create the event until the user confirms.";
     "- When required slots are known, ask for explicit confirmation with action "
       ++ dq ++ "confirm" ++ dq
       ++ " and include a concise summary in args.summary.";
     "- Infer a simple neutral title if possible (e.g., " ++ dq
       ++ "Meeting with Ada" ++ dq ++ "); otherwise ask only if necessary.";
     "- Interpret relative dates like " ++ dq ++ "tomorrow" ++ dq
       ++ " and time ranges like " ++ dq ++ "10-10:30" ++ dq
       ++ ". Convert to ISO 8601 strings with seconds.";
     "- Map TZ tokens (PT/MT/CT/ET, PDT/PST/etc.) or words (" ++ dq
       ++ "Pacific time" ++ dq
       ++ ") to IANA timezones. If none present, keep current timezone.";
     "";
     "Return ONLY the JSON object."].

(** [state["history"][-8:]] *)
Definition last8 {A} (l : list A) : list A := skipn (length l - 8) l.

Definition transcript (st : AgentState) : string :=
  join nl (map (fun m => upper (fst m) ++ ": " ++ snd m) (last8 (history st))).

Definition build_prompt (st : AgentState) : string :=
  AGENT_SYS ++ nl ++ nl
  ++ "TODAY: " ++ time_strftime E ++ nl ++ nl
  ++ "Current slots (null means unknown):" ++ nl
  ++ json_dumps_slots (slots st) ++ nl ++ nl
  ++ "Latest user message:" ++ nl
  ++ or_else (new_user_message st) "" ++ nl ++ nl
  ++ "Conversation (recent turns):" ++ nl
  ++ transcript st ++ nl ++ nl
  ++ "ASSISTANT:".

(** [_llm_complete(prompt).strip()] *)
Definition _llm_complete (prompt : string) : M string :=
  emit (EvLlm prompt) ;;
  match llm_complete E prompt with
  | inr text => ret text
  | inl ex => raise ex
  end.

(** [json.loads(raw[raw.index("{"): raw.rindex("}") + 1])]; [None] is any
    exception of the expression (a brace is missing, or the slice is not
    JSON). *)
Definition decode (raw : string) : option json :=
  match index_l "{" (chars raw), rindex_l "}" (chars raw) with
  | Some i, Some j => json_loads E (str (slice (chars raw) i (j + 1)))
  | _, _ => None
  end.

Definition AttributeError (ty name : string) : exn :=
  Exn "AttributeError" ("'" ++ ty ++ "' object has no attribute '" ++ name ++ "'").

Definition json_type (v : json) : string :=
  match v with
  | JNull => "NoneType"
  | JBool _ => "bool"
  | JNum _ => "int"
  | JStr _ => "str"
  | JArr _ => "list"
  | JObj _ => "dict"
  end.

(** [d.get(k)] on a decoded value: only a [dict] has the method. *)
Definition dict_get (d : json) (k : string) : outcome (option json) :=
  match d with
  | JObj kvs => Ok (assoc k kvs)
  | _ => Raise (AttributeError (json_type d) "get")
  end.

(** A decoded value used where the session holds a string. A value of
    another type is outside the data model of [AgentState]; the model
    stops the turn there, where the source stores or prints the value as
    it is. What is proved of the values of the session is therefore
    stated for decisions whose arguments are typed. *)
Definition TypeError_outside : exn :=
  Exn "TypeError" "value outside the data model of AgentState".

(** [v or default] where [v = d.get(k)] and a string is expected. *)
Definition str_or (v : option json) (default : string) : outcome string :=
  match v with
  | None => Ok default
  | Some j =>
      if json_truthy j then
        match j with
        | JStr s => Ok s
        | _ => Raise TypeError_outside
        end
      else Ok default
  end.

(** The list of strings of a decoded array. *)
Fixpoint str_list (l : list json) : option (list string) :=
  match l with
  | [] => Some []
  | JStr s :: tl => option_map (cons s) (str_list tl)
  | _ :: _ => None
  end.

Definition is_slot_key (k : string) : bool :=
  existsb (String.eqb k)
    ["title"; "start_iso"; "end_iso"; "timezone"; "attendees"; "location";
     "description"; "recurrence"; "link"].

(** One round of the loop of the [set] action:
    [if k in state["slots"] and v not in (None, "", []): state["slots"][k] = v]. *)
Definition set_one (k : string) (v : json) : M unit :=
  if is_slot_key k && negb (json_blank v) then
    if String.eqb k "attendees" then
      match v with
      | JArr l =>
          match str_list l with
          | Some atts => modify_slots (set_attendees atts)
          | None => raise TypeError_outside
          end
      | _ => raise TypeError_outside
      end
    else
      match v with
      | JStr s =>
          st <- get ;;
          match set_str_slot k (Some s) (slots st) with
          | Some s' => modify_slots (fun _ => s')
          | None => ret tt
          end
      | _ => raise TypeError_outside
      end
  else ret tt.

Fixpoint set_all (kvs : list (string * json)) : M unit :=
  match kvs with
  | [] => ret tt
  | (k, v) :: tl => set_one k v ;; set_all tl
  end.

(** Enter the confirmation state with the rendered summary. *)
Definition present_confirmation : M Updates :=
  st <- get ;;
  ret (upd_confirm (_build_confirm_summary E (slots st))).

(** The [except] branch of the decoding: the deterministic fallback. *)
Definition fallback : M Updates :=
  st <- get ;;
  (if truthy (title (slots st)) then ret tt
   else modify_slots
          (set_title
             (Some (_cheap_title (or_str (new_user_message st) "Meeting"))))) ;;
  st <- get ;;
  match _missing E (slots st) with
  | (_ :: _) as miss => ret (upd_reply ("Missing: " ++ join ", " miss ++ "."))
  | [] => present_confirmation
  end.

(** The dispatch on the decoded action. *)
Definition dispatch (decision : json) : M Updates :=
  a <- lift (dict_get decision "action") ;;
  action <- lift (match a with
                  | None => Ok ""
                  | Some j =>
                      if json_truthy j then
                        match j with
                        | JStr s => Ok (lower s)
                        | _ => Raise (AttributeError (json_type j) "lower")
                        end
                      else Ok ""
                  end) ;;
  a <- lift (dict_get decision "args") ;;
  let args := match a with
              | None => JObj []
              | Some j => if json_truthy j then j else JObj []
              end in
  if String.eqb action "ask" then
    q <- lift (dict_get args "question") ;;
    r <- lift (str_or q "What should I provide next?") ;;
    ret (upd_reply r)
  else if String.eqb action "set" then
    match args with
    | JObj kvs =>
        set_all kvs ;;
        modify_slots (_normalize_times E) ;;
        st <- get ;;
        match _missing E (slots st) with
        | (_ :: _) as miss => ret (upd_reply ("Missing: " ++ join ", " miss ++ "."))
        | [] => present_confirmation
        end
    | _ => raise (AttributeError (json_type args) "items")
    end
  else if String.eqb action "confirm" then
    v <- lift (dict_get args "summary") ;;
    st <- get ;;
    summary <- lift (str_or v (_build_confirm_summary E (slots st))) ;;
    ret (upd_confirm summary)
  else if String.eqb action "check_availability" then
    tool_check_availability E
  else if String.eqb action "create_event" then
    st <- get ;;
    if negb (awaiting_confirm st) then present_confirmation
    else tool_create_event E
  else if String.eqb action "send_email" then
    y <- lift (dict_get args "yes") ;;
    tool_send_email E (match y with Some j => json_truthy j | None => true end)
  else if String.eqb action "finish" then
    msg <- lift (dict_get args "message") ;;
    match msg with
    | None => ret (upd_reply "All set.")
    | Some (JStr s) => ret (upd_reply s)
    | Some _ => raise TypeError_outside
    end
  else ret (upd_reply "Please provide the next detail.").

Definition decide_and_act : M Updates :=
  modify _preextract_slots ;;
  modify_slots (_normalize_times E) ;;
  st <- get ;;
  raw <- _llm_complete (build_prompt st) ;;
  match decode (strip raw) with
  | None => fallback
  | Some decision => dispatch decision
  end.

End WithEnv.

End Policy.

(* ===================================================================== *)
(** ** Sessions and the chat turn ([server.py], lines 339-510)           *)
(* ===================================================================== *)

Module Chat.
Import Text Re Patterns Data State Turn Helpers Services Agent Policy.
Local Open Scope string_scope.
Local Open Scope turn_scope.

(** What [APP_GRAPH.invoke(state)] hands back for the one-node graph: the
    dictionary the node returned, or the whole state after the node (the
    input keys overlaid with the node's). The library is not part of the
    repository; the turn is modelled for both. *)
Inductive graph_output : Type :=
| NodeUpdates
| FullState.

(** [ChatOut] (the session id is left out). [data] is [None] where the
    source does not pass it, otherwise the dictionary built in the turn. *)
Record ChatOut : Type := {
  out_reply : string;
  out_slots : Slots;
  done : bool;
  data : option (list (string * ToolResult))
}.

(** The session [_new_session] stores. *)
Definition _new_session (E : Env) : AgentState :=
  {| slots := {| title := None; start_iso := None; end_iso := None;
                 timezone := Some (DEFAULT_TZ E); attendees := [];
                 location := None; description := None; recurrence := None;
                 link := None |};
     history := [];
     busy := None;
     created_event := None;
     email_result := None;
     reply := "Hi! What should I schedule?";
     new_user_message := None;
     awaiting_confirm := false;
     confirm_summary := "" |}.

(** The state seen as one dictionary of updates. *)
Definition full_updates (st : AgentState) : Updates :=
  {| u_busy := busy st; u_created_event := created_event st;
     u_email_result := email_result st; u_reply := Some (reply st);
     u_awaiting_confirm := Some (awaiting_confirm st);
     u_confirm_summary := Some (confirm_summary st) |}.

Definition is_some {A} (o : option A) : bool :=
  match o with Some _ => true | None => false end.

Section WithEnv.
Variable E : Env.
Variable G : graph_output.

(** [APP_GRAPH.invoke(state)]: the single node is [decide_and_act]. *)
Definition APP_GRAPH_invoke : M Updates :=
  u <- decide_and_act E ;;
  st <- get ;;
  match G with
  | NodeUpdates => ret u
  | FullState => ret (full_updates (state_update u st))
  end.

(** The follow-up email after a creation: the reply and the [data]
    dictionary ([server.py] lines 447-452, 475-480, 500-505). *)
Definition follow_up (text : string) (ev : ToolResult)
  : M (string * list (string * ToolResult)) :=
  let data := [("event", ev)] in
  if negb (wants_no_email text) then
    email_updates <- tool_send_email E true ;;
    modify (state_update email_updates) ;;
    st <- get ;;
    ret (reply st,
         match email_result st with
         | Some r => (data ++ [("email", r)])%list
         | None => data
         end)
  else ret ("Event created. (Skipped email.)", data).

(** Lines 443-460, and again 471-487: create, then answer. *)
Definition create_and_answer (text : string) : M ChatOut :=
  created_updates <- tool_create_event E ;;
  modify (state_update created_updates) ;;
  st <- get ;;
  match created_event st with
  | Some ev =>
      rd <- follow_up text ev ;;
      modify (set_confirm false "") ;;
      modify (set_new_user_message "") ;;
      modify (history_append "assistant" (fst rd)) ;;
      st <- get ;;
      ret {| out_reply := fst rd; out_slots := slots st; done := true;
             data := Some (snd rd) |}
  | None =>
      let reply := reply st in
      modify (set_confirm false "") ;;
      modify (set_new_user_message "") ;;
      modify (history_append "assistant" reply) ;;
      st <- get ;;
      ret {| out_reply := reply; out_slots := slots st; done := false;
             data := None |}
  end.

(** Lines 426-438: the explicit availability path. *)
Definition availability_path : M ChatOut :=
  modify _preextract_slots ;;
  modify_slots (_normalize_times E) ;;
  st <- get ;;
  match _missing E (slots st) with
  | (_ :: _) as miss =>
      let reply := "Missing for availability check: " ++ join ", " miss ++ "." in
      modify (set_new_user_message "") ;;
      modify (history_append "assistant" reply) ;;
      st <- get ;;
      ret {| out_reply := reply; out_slots := slots st; done := false;
             data := None |}
  | [] =>
      updates <- tool_check_availability E ;;
      modify (state_update updates) ;;
      modify (set_new_user_message "") ;;
      st <- get ;;
      let reply := reply st in
      (if String.eqb reply "" then ret tt
       else modify (history_append "assistant" reply)) ;;
      st <- get ;;
      ret {| out_reply := reply; out_slots := slots st; done := false;
             data := None |}
  end.

(** Lines 461-465: the user declined. *)
Definition decline : M ChatOut :=
  modify (set_confirm false "") ;;
  modify (set_new_user_message "") ;;
  let reply := "Okay, what would you like to change?" in
  modify (history_append "assistant" reply) ;;
  st <- get ;;
  ret {| out_reply := reply; out_slots := slots st; done := false;
         data := None |}.

(** Lines 489-510: one policy step, then the automatic email. *)
Definition policy_path (text : string) : M ChatOut :=
  updates <- APP_GRAPH_invoke ;;
  modify (state_update updates) ;;
  modify (set_new_user_message "") ;;
  st <- get ;;
  let created_now := is_some (u_created_event updates) in
  rd <- (if created_now then
           match created_event st with
           | Some ev =>
               rd <- follow_up text ev ;;
               modify (set_confirm false "") ;;
               ret (fst rd, snd rd)
           | None => ret (reply st, [])
           end
         else ret (reply st, [])) ;;
  st <- get ;;
  let done := is_some (created_event st) in
  (if String.eqb (fst rd) "" then ret tt
   else modify (history_append "assistant" (fst rd))) ;;
  st <- get ;;
  ret {| out_reply := fst rd; out_slots := slots st; done := done;
         data := Some (snd rd) |}.

(** Lines 467-487 and on: pre-extraction, the shortcut taken when the slots
    are complete and the user says to go on, else the policy step. *)
Definition continue_or_policy (text : string) : M ChatOut :=
  modify _preextract_slots ;;
  modify_slots (_normalize_times E) ;;
  st <- get ;;
  if negb (awaiting_confirm st)
     && match _missing E (slots st) with [] => true | _ => false end
     && is_affirmative text
  then
    modify (set_confirm true (_build_confirm_summary E (slots st))) ;;
    create_and_answer text
  else policy_path text.

(** [agent_chat], for the session the request names. *)
Definition agent_chat (message : string) : M ChatOut :=
  let text := strip message in
  modify (history_append "user" text) ;;
  modify (set_new_user_message text) ;;
  if wants_check_availability text then availability_path
  else
    st <- get ;;
    if awaiting_confirm st then
      if is_affirmative text then create_and_answer text
      else if is_negative text then decline
      else continue_or_policy text
    else continue_or_policy text.

End WithEnv.

(** A conversation: each turn with the environment it runs in. The session
    survives a turn that raised, with the changes made up to there. *)
Fixpoint chat (G : graph_output) (turns : list (Env * string))
              (w : World) : World * list (outcome ChatOut) :=
  match turns with
  | [] => (w, [])
  | (E, message) :: tl =>
      let (w1, o) := agent_chat E G message w in
      let (w2, os) := chat G tl w1 in
      (w2, o :: os)
  end.

End Chat.

(* ===================================================================== *)
(** ** Notions used by the statements                                    *)
(* ===================================================================== *)

Module Spec.
Import Text Re Patterns Data State Turn Helpers Services Agent Policy Chat.
Local Open Scope string_scope.

(** *** Validator *)

(** The plain-absence part of [_missing]. *)
Definition basic_missing (s : Slots) : list string :=
  filter (fun k => negb (slot_truthy k s)) REQUIRED.

(** Both times are set and parse, and the start is not before the end. *)
Definition order_violation (E : Env) (s : Slots) : bool :=
  match start_iso s, end_iso s with
  | Some si, Some ei =>
      truthy (Some si) && truthy (Some ei) &&
      match _parse_dt E si, _parse_dt E ei with
      | Some sdt, Some edt => dt_ge E sdt edt
      | _, _ => false
      end
  | _, _ => false
  end.

Definition b2n (b : bool) : nat := if b then 1 else 0.

(** *** Regular expressions *)

(** Declarative reading of a pattern: [Match r st st'] when [r] can take
    the matcher from [st] to [st']. *)
Inductive Match : re -> mstate -> mstate -> Prop :=
| MEps st : Match Eps st st
| MChr p c tl pv g :
    p c = true -> Match (Chr p) (MState pv (c :: tl) g) (MState (Some c) tl g)
| MCat a b st1 st2 st3 :
    Match a st1 st2 -> Match b st2 st3 -> Match (Cat a b) st1 st3
| MAltL a b st st' : Match a st st' -> Match (Alt a b) st st'
| MAltR a b st st' : Match b st st' -> Match (Alt a b) st st'
| MStar0 a st : Match (Star a) st st
| MStarS a st1 st2 st3 :
    Match a st1 st2 -> Match (Star a) st2 st3 -> Match (Star a) st1 st3
| MWordB st : at_boundary st = true -> Match WordB st st
| MGrp a st st' :
    Match a st st' ->
    Match (Grp a) st
      (MState (prev st') (rest st')
         (Some (firstn (length (rest st) - length (rest st')) (rest st)))).

(** The maximal run of word characters at the head of a text, and the rest. *)
Fixpoint span_word (s : list ascii) : list ascii * list ascii :=
  match s with
  | c :: tl =>
      if is_word c then let (w, r) := span_word tl in (c :: w, r)
      else ([], s)
  | [] => ([], [])
  end.

(** The words of a text: its maximal runs of word characters, in order.
    [acc] is the word being read, last character first. *)
Fixpoint words_acc (acc : list ascii) (s : list ascii) : list (list ascii) :=
  match s with
  | [] => match acc with [] => [] | _ => [rev acc] end
  | c :: tl =>
      if is_word c then words_acc (c :: acc) tl
      else match acc with
           | [] => words_acc [] tl
           | _ => rev acc :: words_acc [] tl
           end
  end.

Definition words (s : string) : list string := map str (words_acc [] (chars s)).

(** A word that is one of the time-zone abbreviations, in any case. *)
Definition is_tz_abbr (w : string) : bool :=
  match assoc (upper w) TZ_ABBR with Some _ => true | None => false end.

(** A word-form hint occurs in the text. *)
Definition word_form_present (text : string) : Prop :=
  exists w zone, In (w, zone) TZ_WORDS /\ contains w (lower text) = true.

(** [l] is a prefix of [s] up to case. *)
Fixpoint prefix_ci (l s : list ascii) : bool :=
  match l, s with
  | [], _ => true
  | a :: l', c :: s' =>
      Ascii.eqb (lower_char c) (lower_char a) && prefix_ci l' s'
  | _ :: _, [] => false
  end.

(** The cursor after [n] characters. *)
Fixpoint consume (n : nat) (pv : option ascii) (s : list ascii)
  : option ascii * list ascii :=
  match n, s with
  | S n', c :: s' => consume n' (Some c) s'
  | _, _ => (pv, s)
  end.

(** An ordered alternation tries its branches in turn. *)
Fixpoint try_all (rs : list re) (k : mstate -> option mstate) (st : mstate)
  : option mstate :=
  match rs with
  | [] => None
  | r :: tl => match m r k st with
               | Some x => Some x
               | None => try_all tl k st
               end
  end.

Definition last_or (pv : option ascii) (u : list ascii) : option ascii :=
  match rev u with
  | [] => pv
  | x :: _ => Some x
  end.

(** [t] and [w] are equal up to case. *)
Definition eq_ci (t w : list ascii) : bool :=
  prefix_ci t w && (length w =? length t)%nat.

(** A word that is one of the alternatives of [TZ_RE]. *)
Definition is_tz_token (w : list ascii) : bool :=
  existsb (fun tok => eq_ci (chars tok) w) TZ_TOKENS.

Definition tok_ok (tok : string) : Prop :=
  chars tok <> [] /\ forallb is_alpha (chars tok) = true.

(** What follows the group of [TZ_RE] on the text [s]: the closing [\b]. *)
Definition tz_k (s : list ascii) (st' : mstate) : option mstate :=
  m WordB Some
    (MState (prev st') (rest st')
       (Some (firstn (length s - length (rest st')) s))).

(** Where the scan of [TZ_RE] stops next: the first word that is a token
    and does not continue the word the cursor stands in ([inword]). The
    result is the offset, the word, and the text after it. *)
Fixpoint first_tok (inword : bool) (s : list ascii) (off : nat)
  : option (nat * list ascii * list ascii) :=
  let (w, r) := span_word s in
  if negb inword && is_tz_token w then Some (off, w, r)
  else match s with
       | [] => None
       | c :: tl => first_tok (is_word c) tl (S off)
       end.

(** The text the scan has still to judge: in the middle of a word, the
    rest of that word is skipped. *)
Definition pending (inword : bool) (s : list ascii) : list ascii :=
  if inword then snd (span_word s) else s.

(** The title the fallback synthesizes from a message: [Meeting], or
    [Meeting with] a capitalized name that follows [with] and blanks in
    the message. *)
Definition synthesized_title (text t : string) : Prop :=
  t = "Meeting" \/
  exists pre ws c cs post,
    chars text = (pre ++ chars "with" ++ ws ++ (c :: cs) ++ post)%list /\
    ws <> [] /\ forallb is_space ws = true /\
    is_upper c = true /\ cs <> [] /\ forallb is_alpha cs = true /\
    t = "Meeting with " ++ str (c :: cs).

(** *** The confirm gate *)

(** An entry into the Create-Event tool respects the gate when the tool
    was handed [awaiting_confirm = True]. *)
Definition gate_ok (e : Event) : Prop :=
  match e with
  | EvToolCreateEvent b => b = true
  | _ => True
  end.

(** [w'] continues [w]: the log grew by events that respect the gate, and
    [created_event] is unchanged. *)
Definition quiet (w w' : World) : Prop :=
  exists new, log w' = (log w ++ new)%list /\ Forall gate_ok new /\
              created_event (sess w') = created_event (sess w).

(** As [quiet], for a step returning updates: they carry a
    [created_event] only if the tool was entered behind the gate. *)
Definition tool_post (w w' : World) (o : outcome Updates) : Prop :=
  exists new, log w' = (log w ++ new)%list /\ Forall gate_ok new /\
              created_event (sess w') = created_event (sess w) /\
              forall u, o = Ok u ->
                        u_created_event u = None \/
                        In (EvToolCreateEvent true) new.

(** [w'] continues [w] across turns: every entry into the tool respects
    the gate, and [created_event] changed only if the tool was entered. *)
Definition gated (w w' : World) : Prop :=
  exists new, log w' = (log w ++ new)%list /\ Forall gate_ok new /\
              (created_event (sess w') = created_event (sess w) \/
               In (EvToolCreateEvent true) new).

(** A computation that is quiet from every world and whose result
    satisfies [R]. *)
Definition qc {A} (R : A -> Prop) (c : M A) : Prop :=
  forall w, quiet w (fst (c w)) /\ forall a, snd (c w) = Ok a -> R a.

(** A step returning updates that respects the gate from every world. *)
Definition tp (c : M Updates) : Prop :=
  forall w, tool_post w (fst (c w)) (snd (c w)).

(** What [APP_GRAPH.invoke] returns, applied to the state, changes
    [created_event] only behind the gate. *)
Definition invoke_post (w w' : World) (o : outcome Updates) : Prop :=
  exists new, log w' = (log w ++ new)%list /\ Forall gate_ok new /\
              created_event (sess w') = created_event (sess w) /\
              forall u, o = Ok u ->
                        created_event (state_update u (sess w'))
                        = created_event (sess w') \/
                        In (EvToolCreateEvent true) new.

Abbreviation no_event := (fun u : Updates => u_created_event u = None).
Abbreviation any := (fun _ => True).

(** *** States along a turn *)

(** The session once [agent_chat] has recorded the message. *)
Definition received (text : string) (st : AgentState) : AgentState :=
  set_new_user_message text (history_append "user" text st).

(** The session after pre-extraction and normalisation of the slots. *)
Definition prepared (E : Env) (st : AgentState) : AgentState :=
  set_slots (_normalize_times E (slots (_preextract_slots st)))
            (_preextract_slots st).

(** The slots after the fallback gave them a title. *)
Definition with_title (st : AgentState) : Slots :=
  if truthy (title (slots st)) then slots st
  else set_title (Some (_cheap_title (or_str (new_user_message st) "Meeting")))
                 (slots st).

(** The session after a creation returned [r]: the returned link, when
    there is one, replaces the link slot. *)
Definition keep_link (r : ToolResult) (st : AgentState) : AgentState :=
  if truthy (returned_link r)
  then set_slots (set_link (returned_link r) (slots st)) st
  else st.

(** [{"created_event": r, "reply": "Event created."}] *)
Definition upd_created (r : ToolResult) : Updates :=
  {| u_busy := None; u_created_event := Some r; u_email_result := None;
     u_reply := Some "Event created."; u_awaiting_confirm := None;
     u_confirm_summary := None |}.

(** [{"email_result": res, "reply": "Event created and email sent."}] *)
Definition upd_email (res : ToolResult) : Updates :=
  {| u_busy := None; u_created_event := None; u_email_result := Some res;
     u_reply := Some "Event created and email sent.";
     u_awaiting_confirm := None; u_confirm_summary := None |}.

(** An event on the Email collaborator. *)
Definition is_gm_event (e : Event) : bool :=
  match e with
  | EvGmSend _ _ _ | EvGmailSend _ => true
  | _ => false
  end.

Definition is_tool_create (e : Event) : bool :=
  match e with
  | EvToolCreateEvent _ => true
  | _ => false
  end.

(** The attribute message of [CalendarClient.get_busy]. *)
Definition NO_SERVICE : string :=
  "'CalendarClient' object has no attribute 'service'".

End Spec.

(* ===================================================================== *)
(** ** Concrete environments and sessions                                *)
(* ===================================================================== *)

Module Demo.
Import Text Re Patterns Data State Turn Helpers Services Agent Policy Chat.
Local Open Scope string_scope.

Definition q (s : string) : string := dq ++ s ++ dq.

(** Replies of the completion collaborator. *)
Definition raw_set : string :=
  "{" ++ q "action" ++ ": " ++ q "set" ++ ", " ++ q "args" ++ ": {"
  ++ q "title" ++ ": " ++ q "Sync" ++ ", "
  ++ q "start_iso" ++ ": " ++ q "2025-08-18T10:00:00" ++ ", "
  ++ q "end_iso" ++ ": " ++ q "2025-08-18T10:30:00" ++ "}}".
Definition raw_finish : string :=
  "{" ++ q "action" ++ ": " ++ q "finish" ++ ", " ++ q "args" ++ ": {"
  ++ q "message" ++ ": " ++ q "Bye" ++ "}}".
Definition raw_create : string :=
  "{" ++ q "action" ++ ": " ++ q "create_event" ++ ", " ++ q "args" ++ ": {}}".
Definition raw_prose : string := "Sure, I will take care of it.".

Definition decision_set : json :=
  JObj [("action", JStr "set");
        ("args", JObj [("title", JStr "Sync");
                       ("start_iso", JStr "2025-08-18T10:00:00");
                       ("end_iso", JStr "2025-08-18T10:30:00")])].
Definition decision_finish : json :=
  JObj [("action", JStr "finish"); ("args", JObj [("message", JStr "Bye")])].
Definition decision_create : json :=
  JObj [("action", JStr "create_event"); ("args", JObj [])].

(** [json.loads] on the texts above. *)
Definition loads (s : string) : option json :=
  if String.eqb s raw_set then Some decision_set
  else if String.eqb s raw_finish then Some decision_finish
  else if String.eqb s raw_create then Some decision_create
  else None.

(** [dateutil.parser.parse] on the timestamps used here. *)
Definition parse (s : string) : option datetime :=
  if String.eqb s "2025-08-18T09:00:00"
  then Some {| dt_local := 1755507600; dt_offset := None; dt_iso := s |}
  else if String.eqb s "2025-08-18T10:00:00"
  then Some {| dt_local := 1755511200; dt_offset := None; dt_iso := s |}
  else if String.eqb s "2025-08-18T10:30:00"
  then Some {| dt_local := 1755513000; dt_offset := None; dt_iso := s |}
  else None.

Definition cal_ok : api_outcome (option string * option string) :=
  ApiOk (Some "evt1", Some "https://calendar.example/evt1").
Definition cal_403 : api_outcome (option string * option string) :=
  ApiHttpError "HttpError 403".

(** An environment with the default settings, in which the completion
    collaborator answers [raw] and the calendar request ends in [cal]. *)
Definition env (raw : string)
               (cal : api_outcome (option string * option string)) : Env :=
  {| settings := default_settings;
     dtparse_parse := parse;
     default_utcoffset := fun _ => (-18000)%Z;
     time_strftime := "2025-08-17 (Sunday)";
     llm_complete := fun _ => inr raw;
     json_loads := loads;
     email_str := fun a => Some a;
     calendar_insert := fun _ => cal;
     calendar_freebusy := fun _ => ApiOk [];
     b64 := fun msg => msg;
     gmail_send := fun _ => ApiOk (Some "msg1") |}.

Definition E_set : Env := env raw_set cal_ok.
Definition E_prose : Env := env raw_prose cal_ok.
Definition E_finish : Env := env raw_finish cal_ok.
Definition E_create : Env := env raw_create cal_ok.
Definition E_403 : Env := env raw_prose cal_403.

Definition start (st : AgentState) : World := {| sess := st; log := [] |}.

(** A fresh session. *)
Definition fresh : AgentState := _new_session E_set.

(** The session after a first turn in which the collaborator set the
    title and the times: it is awaiting confirmation. *)
Definition confirming : AgentState :=
  sess (fst (agent_chat E_set NodeUpdates
               "schedule sync with bob@example.com" (start fresh))).

(** The session after the event was created on the second turn. *)
Definition created : AgentState :=
  sess (fst (agent_chat E_prose NodeUpdates "yes" (start confirming))).

(** Slots with the times in the wrong order. *)
Definition backwards : Slots :=
  {| title := Some "Sync"; start_iso := Some "2025-08-18T10:00:00";
     end_iso := None; timezone := Some "America/Chicago"; attendees := [];
     location := None; description := None; recurrence := None;
     link := None |}.

(** A session with a link and an attendee, and a message that repeats
    the attendee and names another link. *)
Definition linked : AgentState :=
  {| slots := {| title := None; start_iso := None; end_iso := None;
                 timezone := Some "America/Chicago";
                 attendees := ["bob@example.com"];
                 location := None; description := None; recurrence := None;
                 link := Some "https://meet.example/a" |};
     history := []; busy := None; created_event := None;
     email_result := None; reply := ""; 
     new_user_message :=
       Some "add Bob@Example.com and ada@example.com, see https://meet.example/b";
     awaiting_confirm := false; confirm_summary := "" |}.

End Demo.

(* ===================================================================== *)
(** ** The session store and the session endpoints ([server.py], lines  *)
(**    350-394, 416-423 and 517-520)                                     *)
(* ===================================================================== *)

Module Sessions.
Import Text Patterns Data State Turn Helpers Services Chat.
Local Open Scope string_scope.

(** A Python [dict] with string keys, as the list of its items in
    insertion order; the keys of a dictionary are distinct. *)
Definition dict (V : Type) : Type := list (string * V).

(** [d[k] = v]: an existing key keeps its place, a new one goes last. *)
Fixpoint dict_set {V} (k : string) (v : V) (d : dict V) : dict V :=
  match d with
  | [] => [(k, v)]
  | (k', v') :: tl =>
      if String.eqb k k' then (k, v) :: tl else (k', v') :: dict_set k v tl
  end.

(** [d.pop(k, None)], the value dropped. *)
Definition dict_pop {V} (k : string) (d : dict V) : dict V :=
  filter (fun kv => negb (String.eqb k (fst kv))) d.

(** [raise HTTPException(404, "invalid session")] *)
Definition HTTP_404 : exn := Exn "HTTPException" "404: invalid session".

Definition KeyError (k : string) : exn := Exn "KeyError" k.

Section WithClock.

(** The readings of [time.time()] and the test [now - ts > TTL_SECS] on
    two of them ([TTL_SECS] is [15 * 60]: [Settings] has no attribute
    [session_ttl_secs]). The arithmetic of floats is left to this
    function. *)
Variable time : Type.
Variable idle : time -> time -> bool.

(** The module-level state: the two dictionaries, and the log of the calls
    made on the collaborators so far. *)
Record Server : Type := {
  SESSIONS : dict AgentState;
  TOUCHED : dict time;
  calls : list Event
}.

Definition empty_server : Server :=
  {| SESSIONS := []; TOUCHED := []; calls := [] |}.

(** [_new_session]; [sid] is [str(uuid.uuid4())], [now] the clock. *)
Definition _new_session (E : Env) (sid : string) (now : time) (srv : Server)
  : Server * string :=
  ({| SESSIONS := dict_set sid (Chat._new_session E) (SESSIONS srv);
      TOUCHED := dict_set sid now (TOUCHED srv);
      calls := calls srv |}, sid).

(** [_get_session]; a stored session is never an empty dictionary, so
    [not st] holds only for a missing one. *)
Definition _get_session (sid : string) (now : time) (srv : Server)
  : Server * outcome AgentState :=
  match assoc sid (SESSIONS srv) with
  | None => (srv, Raise HTTP_404)
  | Some st =>
      ({| SESSIONS := SESSIONS srv;
          TOUCHED := dict_set sid now (TOUCHED srv);
          calls := calls srv |}, Ok st)
  end.

(** One round of the loop of [_reap]. *)
Definition reap_one (now : time) (srv : Server) (item : string * time)
  : Server :=
  if idle now (snd item)
  then {| SESSIONS := dict_pop (fst item) (SESSIONS srv);
          TOUCHED := dict_pop (fst item) (TOUCHED srv);
          calls := calls srv |}
  else srv.

(** [_reap]: the loop runs over a copy of the items of [TOUCHED]. *)
Definition _reap (now : time) (srv : Server) : Server :=
  fold_left (reap_one now) (TOUCHED srv) srv.

(** Whether the loop of [_reap] over [items] drops the identifier [k]. *)
Definition dropped (now : time) (items : dict time) (k : string) : bool :=
  existsb (fun it => String.eqb (fst it) k && idle now (snd it)) items.

(** [POST /agent/start]; the result is the pair of [session_id] and
    [reply]. *)
Definition agent_start (E : Env) (now1 : time) (sid : string) (now2 : time)
                       (srv : Server) : Server * outcome (string * string) :=
  let srv1 := _reap now1 srv in
  let (srv2, sid') := _new_session E sid now2 srv1 in
  match assoc sid' (SESSIONS srv2) with
  | Some st => (srv2, Ok (sid', reply st))
  | None => (srv2, Raise (KeyError sid'))
  end.

(** [POST /agent/chat]: the turn of [Chat.agent_chat] runs on the stored
    dictionary itself, so what it did to the session stays in the store
    also when it raises. *)
Definition agent_chat (E : Env) (G : graph_output) (now1 now2 : time)
                      (sid message : string) (srv : Server)
  : Server * outcome ChatOut :=
  let srv1 := _reap now1 srv in
  match _get_session sid now2 srv1 with
  | (srv2, Raise e) => (srv2, Raise e)
  | (srv2, Ok state) =>
      let (w, o) := Chat.agent_chat E G message
                      {| sess := state; log := calls srv2 |} in
      ({| SESSIONS := dict_set sid (sess w) (SESSIONS srv2);
          TOUCHED := TOUCHED srv2;
          calls := log w |}, o)
  end.

(** [POST /agent/end]; the result is the value of [ended]. *)
Definition agent_end (sid : string) (srv : Server) : Server * bool :=
  ({| SESSIONS := dict_pop sid (SESSIONS srv);
      TOUCHED := dict_pop sid (TOUCHED srv);
      calls := calls srv |}, true).

(** The requests a client can make, with what the environment supplies to
    each. *)
Inductive request : Type :=
| ReqStart (E : Env) (now1 : time) (sid : string) (now2 : time)
| ReqChat (E : Env) (G : graph_output) (now1 now2 : time)
          (sid message : string)
| ReqEnd (sid : string).

Definition serve1 (r : request) (srv : Server) : Server :=
  match r with
  | ReqStart E now1 sid now2 => fst (agent_start E now1 sid now2 srv)
  | ReqChat E G now1 now2 sid message =>
      fst (agent_chat E G now1 now2 sid message srv)
  | ReqEnd sid => fst (agent_end sid srv)
  end.

(** The server after a sequence of requests. *)
Definition serve (rs : list request) (srv : Server) : Server :=
  fold_left (fun s r => serve1 r s) rs srv.

(** Every session has a time stamp and every time stamp a session, in the
    same order, and no identifier occurs twice. *)
Definition store_ok (srv : Server) : Prop :=
  map fst (SESSIONS srv) = map fst (TOUCHED srv)
  /\ NoDup (map fst (SESSIONS srv)).

End WithClock.

End Sessions.

(* ===================================================================== *)
(** ** Further notions used by the statements                            *)
(* ===================================================================== *)

Module SpecMore.
Import Text Re Patterns Data State Turn Helpers Services Agent Policy Chat Spec.
Local Open Scope string_scope.

(** The zones the two tables of [server.py] map to. *)
Definition IANA_ZONES : list string :=
  ["America/Los_Angeles"; "America/Denver"; "America/Chicago";
   "America/New_York"].

(** An argument of the [set] action at the type its slot holds: a key that
    is no slot, a blank value, a string for a string slot, a list of
    strings for [attendees]. *)
Definition typed_arg (kv : string * json) : bool :=
  let (k, v) := kv in
  negb (is_slot_key k) || json_blank v ||
  (if String.eqb k "attendees"
   then match v with JArr l => is_some (str_list l) | _ => false end
   else match v with JStr _ => true | _ => false end).

(** An argument the policy step uses as a text ([question], [summary],
    [message]) is a string. *)
Definition text_arg (kv : string * json) : bool :=
  let (k, v) := kv in
  if String.eqb k "question" || String.eqb k "summary"
     || String.eqb k "message"
  then match v with JStr _ => true | _ => false end
  else true.

(** A decoded decision whose arguments have the types the session is
    annotated with: the policy step stores and prints them as they are. *)
Definition typed_decision (d : json) : bool :=
  match d with
  | JObj kvs =>
      match assoc "args" kvs with
      | Some (JObj args) => forallb typed_arg args && forallb text_arg args
      | _ => true
      end
  | _ => true
  end.

(** An environment in which every completion decodes to a typed
    decision. *)
Definition typed_env (E : Env) : Prop :=
  forall s d, json_loads E s = Some d -> typed_decision d = true.

(** A request served in such an environment. *)
Definition typed_request {time : Type} (r : Sessions.request time) : Prop :=
  match r with
  | Sessions.ReqChat E _ _ _ _ _ => typed_env E
  | _ => True
  end.

(** A character of the class [[\w\.-]]. *)
Definition is_email_char (c : ascii) : bool :=
  is_word c || Ascii.eqb c "." || Ascii.eqb c "-".

(** [e] occurs in [text] and reads [local@domain.tld]: non-empty runs of
    [[\w\.-]] around the [@], then a dot and a non-empty run of [\w]. *)
Definition email_shape (text e : string) : Prop :=
  exists pre post local dom tld,
    chars text = (pre ++ chars e ++ post)%list /\
    chars e = (local ++ "@"%char :: dom ++ "."%char :: tld)%list /\
    local <> [] /\ dom <> [] /\ tld <> [] /\
    forallb is_email_char local = true /\
    forallb is_email_char dom = true /\
    forallb is_word tld = true.

(** [u] occurs in [text] and reads [http://] or [https://] followed by a
    non-empty run of characters that are not white space. *)
Definition url_shape (text u : string) : Prop :=
  exists pre post scheme body,
    chars text = (pre ++ chars u ++ post)%list /\
    (scheme = "http://" \/ scheme = "https://") /\
    chars u = (chars scheme ++ body)%list /\
    body <> [] /\
    forallb (fun c => negb (is_space c)) body = true.

(** *** Invariants of the session *)

(** [awaiting_confirm] is set exactly when [confirm_summary] is not
    empty. *)
Definition conf_ok (st : AgentState) : Prop :=
  awaiting_confirm st = negb (String.eqb (confirm_summary st) "").

(** The same of a dictionary of updates that carries the two keys; one
    that carries neither says nothing. *)
Definition upd_conf_ok (u : Updates) : Prop :=
  match u_awaiting_confirm u, u_confirm_summary u with
  | None, None => True
  | Some b, Some s => b = negb (String.eqb s "")
  | _, _ => False
  end.

(** A computation that keeps [P] of the session, from every world in
    which it holds, and whose result satisfies [Q]. *)
Definition keeps {A} (P : AgentState -> Prop) (Q : A -> Prop) (c : M A)
  : Prop :=
  forall w, P (sess w) ->
            P (sess (fst (c w))) /\ forall a, snd (c w) = Ok a -> Q a.

(** The history [h] is the beginning of the history of [st]. *)
Definition extends_history (h : list (string * string)) (st : AgentState)
  : Prop :=
  exists more, history st = (h ++ more)%list.

(** *** What the turns keep and report *)



(** A computation that, started in a session with [P], makes [R] hold of
    its result and the session it leaves, whenever it returns. *)
Definition ends {A} (P : AgentState -> Prop) (c : M A)
                (R : A -> AgentState -> Prop) : Prop :=
  forall w, P (sess w) ->
            forall a, snd (c w) = Ok a -> R a (sess (fst (c w))).

(** The answer [out] reflects the session [st]: it carries the slots of the
    session, says [done] only when the session holds a created event, and
    an [event] in its [data] is that created event. *)
Definition reflects (out : ChatOut) (st : AgentState) : Prop :=
  out_slots out = slots st
  /\ (done out = true -> exists r, created_event st = Some r)
  /\ (forall r, assoc "event" (or_else (data out) []) = Some r ->
                created_event st = Some r).

(** *** The email gate *)

(** [w'] continues [w] with the email gate kept: a created event is not
    taken back, and if the log grew by a call on the Email collaborator
    the session holds a created event. *)
Definition mail_ok (w w' : World) : Prop :=
  exists new, log w' = (log w ++ new)%list
              /\ (created_event (sess w) <> None ->
                  created_event (sess w') <> None)
              /\ (existsb is_gm_event new = true ->
                  created_event (sess w') <> None).

(** A computation that keeps the email gate from every world. *)
Definition mc {A} (c : M A) : Prop := forall w, mail_ok w (fst (c w)).

End SpecMore.

(* ===================================================================== *)
(** ** A concrete clock and store, and a failing collaborator            *)
(* ===================================================================== *)

Module DemoStore.
Import Text Patterns Data State Turn Helpers Chat.
Local Open Scope string_scope.

(** Clock readings in whole seconds, and the test of [_reap] on them. *)
Definition idle (now ts : nat) : bool := (15 * 60 <? now - ts)%nat.

(** The store after two sessions were opened, at 0 s and at 600 s. *)
Definition two : Sessions.Server nat :=
  Sessions.serve idle
    [Sessions.ReqStart Demo.E_set 0 "s1" 0;
     Sessions.ReqStart Demo.E_set 600 "s2" 600]
    (Sessions.empty_server nat).


End DemoStore.

(* ===================================================================== *)
(** * Properties                                                         *)
(* ===================================================================== *)

Import ListNotations.
Import Text Re Patterns Data State Turn Helpers Services Agent Policy Chat Spec.

Unset Implicit Arguments.

(* ===================================================================== *)
(** ** The matcher and the patterns                                      *)
(* ===================================================================== *)

Section RegexFacts.
Local Open Scope list_scope.

Lemma m_sound r : forall k st res,
  m r k st = Some res -> exists st', Match r st st' /\ k st' = Some res.
Proof.
  induction r as [|p|a IHa b IHb|a IHa b IHb|a IHa| |a IHa]; intros k st res H;
    cbn [m] in H.
  - exists st. split; [constructor | exact H].
  - destruct st as [pv [|c tl] g]; cbn [rest] in H; [discriminate|].
    destruct (p c) eqn:Hp; [|discriminate].
    eexists. split; [constructor; exact Hp | exact H].
  - apply IHa in H as (st1 & M1 & H). apply IHb in H as (st2 & M2 & H).
    exists st2. split; [econstructor; eauto | exact H].
  - destruct (m a k st) eqn:Ha.
    + inversion H; subst. apply IHa in Ha as (st1 & M1 & Hk).
      exists st1. split; [apply MAltL; exact M1 | exact Hk].
    + apply IHb in H as (st1 & M1 & Hk).
      exists st1. split; [apply MAltR; exact M1 | exact Hk].
  - generalize dependent (S (length (rest st))). intros fuel.
    revert st. induction fuel as [|f IHf]; intros st H; cbn [star_loop] in H.
    + exists st. split; [constructor | exact H].
    + match type of H with
      | match ?x with _ => _ end = _ => destruct x eqn:Hx
      end.
      * inversion H; subst. apply IHa in Hx as (st1 & M1 & Hk).
        destruct (length (rest st1) <? length (rest st)); [|discriminate].
        apply IHf in Hk as (st2 & M2 & Hk).
        exists st2. split; [econstructor; eauto | exact Hk].
      * exists st. split; [constructor | exact H].
  - destruct (at_boundary st) eqn:Hb; [|discriminate].
    exists st. split; [constructor; exact Hb | exact H].
  - apply IHa in H as (st1 & M1 & Hk).
    eexists. split; [apply MGrp; exact M1 | exact Hk].
Qed.

(** What a match consumes is a prefix of the text at the cursor. *)
Lemma Match_consumes r st st' :
  Match r st st' -> exists w, rest st = w ++ rest st'.
Proof.
  induction 1.
  - exists []. reflexivity.
  - exists [c]. reflexivity.
  - destruct IHMatch1 as [w1 H1], IHMatch2 as [w2 H2].
    exists (w1 ++ w2). rewrite H1, H2, app_assoc. reflexivity.
  - assumption.
  - assumption.
  - exists []. reflexivity.
  - destruct IHMatch1 as [w1 H1], IHMatch2 as [w2 H2].
    exists (w1 ++ w2). rewrite H1, H2, app_assoc. reflexivity.
  - exists []. reflexivity.
  - destruct IHMatch as [w Hw]. exists w. exact Hw.
Qed.

Lemma firstn_exact {A} (l1 l2 : list A) : firstn (length l1) (l1 ++ l2) = l1.
Proof.
  induction l1 as [|a l1 IH]; cbn; [destruct l2; reflexivity|].
  rewrite IH. reflexivity.
Qed.

Lemma Match_Eps_inv st st' : Match Eps st st' -> st' = st.
Proof. inversion 1; reflexivity. Qed.

Lemma Match_Chr_inv p st st' :
  Match (Chr p) st st' ->
  exists c, p c = true /\ rest st = c :: rest st' /\ prev st' = Some c /\
            grp st' = grp st.
Proof. inversion 1; subst. exists c. cbn. auto. Qed.

Lemma Match_Cat_inv a b st st' :
  Match (Cat a b) st st' -> exists st1, Match a st st1 /\ Match b st1 st'.
Proof. inversion 1; subst. eauto. Qed.

Lemma Match_Alt_inv a b st st' :
  Match (Alt a b) st st' -> Match a st st' \/ Match b st st'.
Proof. inversion 1; subst; auto. Qed.

Lemma Match_WordB_inv st st' :
  Match WordB st st' -> st' = st /\ at_boundary st = true.
Proof. inversion 1; subst; auto. Qed.

Lemma Match_Grp_inv a st st' :
  Match (Grp a) st st' ->
  exists st1, Match a st st1 /\ rest st' = rest st1 /\ prev st' = prev st1 /\
              grp st' = Some (firstn (length (rest st) - length (rest st1))
                                     (rest st)).
Proof. inversion 1; subst. eexists. cbn. eauto. Qed.

Lemma Match_lit l : forall st st',
  Match (lit_l l) st st' -> rest st = l ++ rest st' /\ grp st' = grp st.
Proof.
  induction l as [|c [|c' tl] IH]; intros st st' H.
  - apply Match_Eps_inv in H. subst. auto.
  - apply Match_Chr_inv in H as (x & Hx & Hr & _ & Hg).
    apply Ascii.eqb_eq in Hx. subst. auto.
  - change (lit_l (c :: c' :: tl)) with (Cat (ch c) (lit_l (c' :: tl))) in H.
    apply Match_Cat_inv in H as (st1 & H1 & H2).
    apply Match_Chr_inv in H1 as (x & Hx & Hr & _ & Hg).
    apply Ascii.eqb_eq in Hx. subst.
    apply IH in H2 as [H5 H6]. rewrite Hr, H5. split; [reflexivity|congruence].
Qed.

Lemma Match_star_chr p st st' :
  Match (Star (Chr p)) st st' ->
  exists w, forallb p w = true /\ rest st = w ++ rest st' /\ grp st' = grp st.
Proof.
  remember (Star (Chr p)) as r eqn:Hr. induction 1; try discriminate.
  - exists []. auto.
  - inversion Hr; subst.
    apply Match_Chr_inv in H as (c & Hc & Hrc & _ & Hgc).
    destruct (IHMatch2 eq_refl) as (w & Hw & Hrest & Hg).
    exists (c :: w). cbn. rewrite Hc, Hw, Hrc, Hrest.
    repeat split; congruence.
Qed.

Lemma Match_plus_chr p st st' :
  Match (Plus (Chr p)) st st' ->
  exists c w, p c = true /\ forallb p w = true /\
              rest st = c :: w ++ rest st' /\ grp st' = grp st.
Proof.
  intros H. apply Match_Cat_inv in H as (st1 & H1 & H2).
  apply Match_Chr_inv in H1 as (c & Hc & Hrc & _ & Hgc).
  apply Match_star_chr in H2 as (w & Hw & Hrest & Hg).
  exists c, w. rewrite Hrc, Hrest. repeat split; congruence.
Qed.

Lemma search_from_sound r : forall s pv off x,
  search_from r pv s off = Some x ->
  exists pre pv' s', s = pre ++ s' /\ match_here r pv' s' (off + length pre) = Some x.
Proof.
  induction s as [|c tl IH]; intros pv off x H; cbn [search_from] in H.
  - destruct (match_here r pv [] off) eqn:Hm; [|discriminate].
    inversion H; subst. exists [], pv, []. rewrite Nat.add_0_r. auto.
  - destruct (match_here r pv (c :: tl) off) eqn:Hm.
    + inversion H; subst. exists [], pv, (c :: tl). rewrite Nat.add_0_r. auto.
    + apply IH in H as (pre & pv' & s' & Hs & Hm').
      exists (c :: pre), pv', s'. cbn. rewrite Hs.
      replace (off + S (length pre)) with (S off + length pre) by lia. auto.
Qed.

Lemma match_here_sound r pv s off x :
  match_here r pv s off = Some x ->
  exists st', Match r (MState pv s None) st' /\
              m_text x = firstn (length s - length (rest st')) s /\
              m_group x = grp st' /\ m_rest x = rest st'.
Proof.
  unfold match_here. destruct (m r Some _) as [st'|] eqn:Hm; [|discriminate].
  intros [= <-]. apply m_sound in Hm as (st1 & M1 & [= ->]).
  exists st'. auto.
Qed.

(** The shape of what [TITLE_RE] finds. *)
Lemma title_match_shape text x :
  search TITLE_RE text = Some x ->
  exists pre ws c cs post,
    chars text = pre ++ chars "with" ++ ws ++ (c :: cs) ++ post /\
    ws <> [] /\ forallb is_space ws = true /\
    is_upper c = true /\ cs <> [] /\ forallb is_alpha cs = true /\
    item x = c :: cs.
Proof.
  unfold search. intros H.
  apply search_from_sound in H as (pre & pv & s & Hs & H).
  apply match_here_sound in H as (st' & HM & _ & Hg & _).
  unfold TITLE_RE in HM. cbn [cats] in HM.
  apply Match_Cat_inv in HM as (s1 & M1 & HM).
  apply Match_WordB_inv in M1 as [-> _].
  apply Match_Cat_inv in HM as (s2 & M2 & HM).
  apply Match_lit in M2 as [R2 G2].
  apply Match_Cat_inv in HM as (s3 & M3 & HM).
  apply Match_plus_chr in M3 as (sc & sw & Hsc & Hsw & R3 & G3).
  apply Match_Cat_inv in HM as (s4 & M4 & HM).
  apply Match_WordB_inv in HM as [-> _].
  apply Match_Grp_inv in M4 as (s5 & M5 & R4 & _ & G4).
  apply Match_Cat_inv in M5 as (s6 & M6 & M7).
  apply Match_Chr_inv in M6 as (c & Hc & R6 & _ & _).
  apply Match_plus_chr in M7 as (nc & nw & Hnc & Hnw & R7 & _).
  cbn [rest grp prev] in *.
  exists pre, (sc :: sw), c, (nc :: nw), (rest s5).
  assert (Hname : firstn (length (rest s3) - length (rest s5)) (rest s3)
                  = c :: nc :: nw).
  { rewrite R6, R7. cbn [length]. rewrite length_app.
    replace (S (S (length nw + length (rest s5))) - length (rest s5))
      with (length (c :: nc :: nw)) by (cbn [length]; lia).
    change (c :: nc :: nw ++ rest s5) with ((c :: nc :: nw) ++ rest s5).
    apply firstn_exact. }
  repeat split.
  - rewrite Hs, R2, R3, R6, R7. reflexivity.
  - discriminate.
  - cbn. rewrite Hsc, Hsw. reflexivity.
  - assumption.
  - discriminate.
  - cbn. rewrite Hnc, Hnw. reflexivity.
  - unfold item. rewrite Hg, G4. exact Hname.
Qed.

Lemma m_lit_i l : forall k pv s g,
  m (lit_i_l l) k (MState pv s g) =
  if prefix_ci l s
  then let (pv', s') := consume (length l) pv s in k (MState pv' s' g)
  else None.
Proof.
  induction l as [|c [|c' tl] IH]; intros k pv s g.
  - reflexivity.
  - cbn. destruct s as [|x s']; [reflexivity|].
    rewrite andb_true_r. reflexivity.
  - change (lit_i_l (c :: c' :: tl)) with (Cat (ch_i c) (lit_i_l (c' :: tl))).
    cbn [m ch_i rest grp]. destruct s as [|x s']; [reflexivity|].
    cbn [prefix_ci]. destruct (Ascii.eqb (lower_char x) (lower_char c)); [|reflexivity].
    rewrite IH. reflexivity.
Qed.

Lemma m_alts rs k st : m (alts rs) k st = try_all rs k st.
Proof.
  induction rs as [|a [|b tl] IH].
  - cbn. destruct (rest st); reflexivity.
  - cbn. destruct (m a k st); reflexivity.
  - change (alts (a :: b :: tl)) with (Alt a (alts (b :: tl))).
    cbn [m try_all] in *. rewrite IH. reflexivity.
Qed.

Lemma app_same_length {A} (u : list A) : forall w s r,
  u ++ s = w ++ r -> length u = length w -> u = w /\ s = r.
Proof.
  induction u as [|a u IH]; intros [|b w] s r H Hl; try discriminate.
  - auto.
  - cbn in *. inversion H; subst. destruct (IH w s r) as [-> ->]; auto.
Qed.

Lemma is_alpha_lower x : is_alpha (lower_char x) = is_alpha x.
Proof.
  destruct x as [[] [] [] [] [] [] [] []]; vm_compute; reflexivity.
Qed.

Lemma is_alpha_word x : is_alpha x = true -> is_word x = true.
Proof. unfold is_word. intros ->. reflexivity. Qed.

Lemma upper_lower x : upper_char (lower_char x) = upper_char x.
Proof.
  destruct x as [[] [] [] [] [] [] [] []]; vm_compute; reflexivity.
Qed.

Lemma upper_of_upper x : is_upper x = true -> upper_char x = x.
Proof.
  destruct x as [[] [] [] [] [] [] [] []]; vm_compute; intros H;
    try reflexivity; discriminate.
Qed.

Lemma is_upper_alpha x : is_upper x = true -> is_alpha x = true.
Proof. unfold is_alpha. intros ->. reflexivity. Qed.

Lemma eq_lower_alpha x y :
  Ascii.eqb (lower_char x) (lower_char y) = true ->
  is_alpha y = true -> is_alpha x = true.
Proof.
  intros H Hy. apply Ascii.eqb_eq in H.
  rewrite <- is_alpha_lower, H, is_alpha_lower. exact Hy.
Qed.

Lemma span_word_spec s : forall w r,
  span_word s = (w, r) ->
  s = w ++ r /\ forallb is_word w = true /\ word_opt (hd_error r) = false.
Proof.
  induction s as [|c tl IH]; intros w r H; cbn in H.
  - inversion H; subst. auto.
  - destruct (is_word c) eqn:Hc.
    + destruct (span_word tl) as [w' r'] eqn:Hs. inversion H; subst.
      destruct (IH w' r eq_refl) as (-> & Hw & Hr).
      cbn. rewrite Hc, Hw. auto.
    + inversion H; subst. cbn. rewrite Hc. auto.
Qed.

Lemma span_word_unique u : forall s',
  forallb is_word u = true -> word_opt (hd_error s') = false ->
  span_word (u ++ s') = (u, s').
Proof.
  induction u as [|c u IH]; intros s' Hu Hs; cbn in *.
  - destruct s' as [|x s']; [reflexivity|]. cbn in *. rewrite Hs. reflexivity.
  - apply andb_prop in Hu as [Hc Hu]. rewrite Hc, (IH s' Hu Hs). reflexivity.
Qed.

Lemma consume_app u : forall pv s',
  consume (length u) pv (u ++ s') = (last_or pv u, s').
Proof.
  induction u as [|c u IH]; intros pv s'.
  - cbn. destruct s'; reflexivity.
  - cbn [length app consume]. rewrite IH. unfold last_or. cbn [rev].
    destruct (rev u) as [|x l] eqn:Hr; reflexivity.
Qed.

Lemma prefix_ci_split t : forall s,
  prefix_ci t s = true ->
  exists u s', s = u ++ s' /\ length u = length t /\ prefix_ci t u = true.
Proof.
  induction t as [|a t IH]; intros s H.
  - exists [], s. auto.
  - destruct s as [|c s]; [discriminate|]. cbn in H.
    apply andb_prop in H as [Hc H]. destruct (IH s H) as (u & s' & -> & Hl & Hp).
    exists (c :: u), s'. cbn. rewrite Hc, Hp, Hl. auto.
Qed.

Lemma prefix_ci_app t u s' :
  prefix_ci t u = true -> prefix_ci t (u ++ s') = true.
Proof.
  revert u. induction t as [|a t IH]; intros u H; [reflexivity|].
  destruct u as [|c u]; [discriminate|]. cbn in *.
  apply andb_prop in H as [Hc H]. rewrite Hc, (IH u H). reflexivity.
Qed.

Lemma prefix_ci_alpha t : forall u,
  prefix_ci t u = true -> length u = length t ->
  forallb is_alpha t = true -> forallb is_alpha u = true.
Proof.
  induction t as [|a t IH]; intros u H Hl Ht.
  - destruct u; [reflexivity|discriminate].
  - destruct u as [|c u]; [discriminate|]. cbn in *.
    apply andb_prop in H as [Hc H]. apply andb_prop in Ht as [Ha Ht].
    rewrite (eq_lower_alpha _ _ Hc Ha), (IH u H); auto.
Qed.

Lemma forallb_alpha_word u :
  forallb is_alpha u = true -> forallb is_word u = true.
Proof.
  induction u as [|c u IH]; cbn; [reflexivity|]. intros H.
  apply andb_prop in H as [Hc H]. rewrite (is_alpha_word _ Hc), IH; auto.
Qed.

Lemma last_or_word pv u :
  u <> [] -> forallb is_word u = true -> word_opt (last_or pv u) = true.
Proof.
  intros Hu Hw. unfold last_or. destruct (rev u) as [|x l] eqn:Hr.
  - apply (f_equal (@rev ascii)) in Hr. rewrite rev_involutive in Hr.
    contradiction.
  - cbn. rewrite forallb_forall in Hw. apply Hw.
    apply in_rev. rewrite Hr. left. reflexivity.
Qed.

Section Attempt.
Variables (pv : option ascii) (s w r : list ascii).
Hypothesis Hspan : span_word s = (w, r).

Lemma tz_attempt t :
  t <> [] -> forallb is_alpha t = true ->
  m (lit_i_l t) (tz_k s) (MState pv s None) =
  if eq_ci t w then Some (MState (last_or pv w) r (Some w)) else None.
Proof.
  intros Ht Ha. rewrite m_lit_i.
  destruct (span_word_spec _ _ _ Hspan) as (Hs & Hw & Hr).
  destruct (prefix_ci t s) eqn:Hp.
  - destruct (prefix_ci_split _ _ Hp) as (u & s' & Hus & Hl & Hpu).
    assert (Hua : forallb is_word u = true)
      by (apply forallb_alpha_word, (prefix_ci_alpha t); auto).
    assert (Hune : u <> []) by (destruct u, t; cbn in *; congruence).
    rewrite Hus at 1. rewrite <- Hl, consume_app.
    unfold tz_k. cbn [m prev rest]. unfold at_boundary. cbn [prev rest].
    rewrite (last_or_word pv u Hune Hua). cbn [xorb].
    destruct (word_opt (hd_error s')) eqn:Hb; cbn [negb].
    + (* no boundary after the token: the word goes on *)
      destruct (eq_ci t w) eqn:He; [|reflexivity]. exfalso.
      unfold eq_ci in He. apply andb_prop in He as [Hpw Hlw].
      apply Nat.eqb_eq in Hlw.
      assert (u = w /\ s' = r) as [-> ->].
      { apply app_same_length; congruence. }
      congruence.
    + pose proof (span_word_unique u s' Hua Hb) as Hsp.
      rewrite <- Hus, Hspan in Hsp. inversion Hsp; subst u s'.
      unfold eq_ci. rewrite Hpu, Hl, Nat.eqb_refl. cbn [andb].
      replace (firstn (length s - length r) s) with w; [reflexivity|].
      rewrite Hs, length_app.
      replace (length w + length r - length r) with (length w) by lia.
      rewrite firstn_exact. reflexivity.
  - destruct (eq_ci t w) eqn:He; [|reflexivity]. exfalso.
    unfold eq_ci in He. apply andb_prop in He as [Hpw _].
    rewrite Hs, (prefix_ci_app _ _ r Hpw) in Hp. discriminate.
Qed.
End Attempt.

Lemma tz_try_all pv s w r toks :
  span_word s = (w, r) -> Forall tok_ok toks ->
  try_all (map lit_i toks) (tz_k s) (MState pv s None) =
  if existsb (fun tok => eq_ci (chars tok) w) toks
  then Some (MState (last_or pv w) r (Some w)) else None.
Proof.
  intros Hspan. induction 1 as [|tok toks [Hne Ha] _ IH]; [reflexivity|].
  cbn [map try_all existsb]. unfold lit_i at 1.
  rewrite (tz_attempt pv s w r Hspan _ Hne Ha).
  destruct (eq_ci (chars tok) w); [reflexivity|exact IH].
Qed.

Lemma TZ_TOKENS_ok : Forall tok_ok TZ_TOKENS.
Proof.
  unfold TZ_TOKENS. repeat constructor; discriminate.
Qed.

Lemma eq_ci_nil t : t <> [] -> eq_ci t [] = false.
Proof. destruct t; [contradiction|reflexivity]. Qed.

Lemma is_tz_token_nil : is_tz_token [] = false.
Proof. reflexivity. Qed.

Lemma is_tz_token_word w : is_tz_token w = true -> w <> [].
Proof. intros H ->. discriminate. Qed.

(** A match of [TZ_RE] at the cursor is the whole word that starts there. *)
Lemma match_here_tz pv s off w r :
  span_word s = (w, r) ->
  match_here TZ_RE pv s off =
  if negb (word_opt pv) && is_tz_token w
  then Some (RMatch off w (Some w) (last_or pv w) r) else None.
Proof.
  intros Hspan.
  destruct (span_word_spec _ _ _ Hspan) as (Hs & Hw & Hr).
  unfold match_here, TZ_RE, bounded. cbn [cats m]. unfold at_boundary at 1.
  cbn [prev rest].
  change (fun st' : mstate =>
            if at_boundary
                 (MState (prev st') (rest st')
                    (Some (firstn (length s - length (rest st')) s)))
            then Some (MState (prev st') (rest st')
                         (Some (firstn (length s - length (rest st')) s)))
            else None) with (tz_k s).
  rewrite m_alts, (tz_try_all pv s w r _ Hspan TZ_TOKENS_ok).
  fold (is_tz_token w).
  assert (Hhd : word_opt (hd_error s) = negb (match w with [] => true | _ => false end)).
  { rewrite Hs. destruct w as [|c w']; cbn in *; [exact Hr|].
    apply andb_prop in Hw as [-> _]. reflexivity. }
  rewrite Hhd. destruct w as [|c w'].
  - rewrite is_tz_token_nil, andb_false_r. cbn [negb].
    rewrite xorb_false_r. destruct (word_opt pv); reflexivity.
  - cbn [negb]. rewrite xorb_true_r.
    destruct (word_opt pv); cbn [negb andb]; [reflexivity|].
    destruct (is_tz_token (c :: w')); [|reflexivity].
    cbn [rest prev grp]. f_equal. f_equal.
    rewrite Hs, length_app.
    replace (length (c :: w') + length r - length r) with (length (c :: w')) by lia.
    apply firstn_exact.
Qed.

Lemma search_from_tz s : forall pv off,
  search_from TZ_RE pv s off =
  match first_tok (word_opt pv) s off with
  | Some (o, w, r) => Some (RMatch o w (Some w) (Some (last w " "%char)) r)
  | None => None
  end.
Proof.
  induction s as [|c tl IH]; intros pv off.
  - cbn [search_from first_tok span_word].
    rewrite (match_here_tz pv [] off [] [] eq_refl), is_tz_token_nil, andb_false_r.
    reflexivity.
  - cbn [search_from first_tok].
    destruct (span_word (c :: tl)) as [w r] eqn:Hspan.
    rewrite (match_here_tz pv (c :: tl) off w r Hspan).
    destruct (negb (word_opt pv) && is_tz_token w) eqn:Hc.
    + f_equal. f_equal. apply andb_prop in Hc as [_ Hc].
      apply is_tz_token_word in Hc. unfold last_or.
      destruct w as [|x w'] using rev_ind; [contradiction|].
      rewrite rev_app_distr, last_last. reflexivity.
    + rewrite IH. reflexivity.
Qed.

Lemma rev_nil_iff {A} (l : list A) : rev l = [] -> l = [].
Proof.
  intros H. apply (f_equal (@rev A)) in H. rewrite rev_involutive in H. exact H.
Qed.

Lemma words_acc_span s : forall acc,
  words_acc acc s =
  let (w, r) := span_word s in
  match rev acc ++ w with
  | [] => words_acc [] r
  | x => x :: words_acc [] r
  end.
Proof.
  induction s as [|c tl IH]; intros acc.
  - cbn. rewrite app_nil_r. destruct acc as [|a acc]; [reflexivity|].
    destruct (rev (a :: acc)) eqn:Hr; [|reflexivity].
    apply rev_nil_iff in Hr. discriminate.
  - cbn [words_acc span_word]. destruct (is_word c) eqn:Hc.
    + rewrite IH. destruct (span_word tl) as [w r]. cbn [rev].
      rewrite <- app_assoc. reflexivity.
    + rewrite app_nil_r. cbn [words_acc]. rewrite Hc.
      destruct acc as [|a acc]; [reflexivity|].
      destruct (rev (a :: acc)) eqn:Hr; [|reflexivity].
      apply rev_nil_iff in Hr. discriminate.
Qed.

Lemma span_word_nonword r :
  word_opt (hd_error r) = false -> span_word r = ([], r).
Proof.
  destruct r as [|c r]; [reflexivity|]. cbn. intros ->. reflexivity.
Qed.

Lemma first_tok_words s : forall inword off,
  match first_tok inword s off with
  | None => filter is_tz_token (words_acc [] (pending inword s)) = []
  | Some (_, w, r) =>
      filter is_tz_token (words_acc [] (pending inword s))
      = w :: filter is_tz_token (words_acc [] r)
      /\ length r < length s /\ w <> [] /\ forallb is_word w = true
      /\ span_word r = ([], r)
  end.
Proof.
  induction s as [|c tl IH]; intros inword off.
  - cbn. rewrite andb_false_r. destruct inword; reflexivity.
  - cbn [first_tok]. destruct (span_word (c :: tl)) as [w r] eqn:Hspan.
    pose proof (span_word_spec _ _ _ Hspan) as (Hs & Hw & Hr).
    pose proof (words_acc_span (c :: tl) []) as Hwords.
    rewrite Hspan in Hwords. cbn [rev app] in Hwords.
    destruct (negb inword && is_tz_token w) eqn:Hc.
    + apply andb_prop in Hc as [Hin Htok]. destruct inword; [discriminate|].
      pose proof (is_tz_token_word _ Htok) as Hne.
      unfold pending. rewrite Hwords. destruct w as [|x w']; [contradiction|].
      cbn [filter]. rewrite Htok. repeat split; auto.
      * rewrite Hs, length_app. cbn. lia.
      * apply span_word_nonword, Hr.
    + specialize (IH (is_word c) (S off)).
      cbn [span_word] in Hspan. destruct (is_word c) eqn:Hwc.
      * (* [c] starts or continues a word that is no token here *)
        destruct (span_word tl) as [w' r'] eqn:Hspan'. inversion Hspan; subst w r.
        assert (Hpend : filter is_tz_token (words_acc [] (pending inword (c :: tl)))
                        = filter is_tz_token (words_acc [] (pending true tl))).
        { unfold pending. cbn [span_word]. rewrite Hwc, Hspan'. cbn [snd].
          destruct inword; [reflexivity|].
          rewrite Hwords. cbn [filter]. cbn [negb andb] in Hc. rewrite Hc.
          reflexivity. }
        rewrite Hpend. destruct (first_tok true tl (S off)) as [[[o w2] r2]|].
        -- destruct IH as (H1 & H2 & H3). repeat split; auto; try apply H3.
           cbn [length]. lia.
        -- exact IH.
      * inversion Hspan; subst w r.
        assert (Hpend : words_acc [] (pending inword (c :: tl))
                        = words_acc [] (pending false tl)).
        { unfold pending. cbn [span_word]. rewrite Hwc. cbn [snd].
          destruct inword; cbn [words_acc]; rewrite Hwc; reflexivity. }
        rewrite Hpend. destruct (first_tok false tl (S off)) as [[[o w2] r2]|].
        -- destruct IH as (H1 & H2 & H3). repeat split; auto; try apply H3.
           cbn [length]. lia.
        -- exact IH.
Qed.

Lemma last_word w : w <> [] -> forallb is_word w = true ->
  is_word (last w " "%char) = true.
Proof.
  intros Hne Hw. rewrite forallb_forall in Hw. apply Hw.
  destruct w as [|x w'] using rev_ind; [contradiction|].
  rewrite last_last. apply in_or_app. right. left. reflexivity.
Qed.

(** [findall] of [TZ_RE] lists the words that are tokens. *)
Lemma findall_from_tz fuel : forall pv s,
  length s < fuel ->
  findall_from fuel TZ_RE pv s
  = filter is_tz_token (words_acc [] (pending (word_opt pv) s)).
Proof.
  induction fuel as [|f IH]; intros pv s Hlen; [lia|].
  cbn [findall_from]. rewrite search_from_tz.
  pose proof (first_tok_words s (word_opt pv) 0) as H.
  destruct (first_tok (word_opt pv) s 0) as [[[o w] r]|].
  - destruct H as (H1 & H2 & H3 & H4 & H5). rewrite H1.
    cbn [item m_group m_text m_rest m_prev]. f_equal.
    destruct w as [|x w']; [contradiction|].
    rewrite IH by lia. unfold pending. cbn [word_opt].
    rewrite (last_word (x :: w') H3 H4), H5. reflexivity.
  - symmetry. exact H.
Qed.

Lemma length_chars s : length (chars s) = String.length s.
Proof. induction s as [|c s IH]; cbn; [reflexivity|]. rewrite IH. reflexivity. Qed.

Lemma findall_tz text :
  findall TZ_RE text = map str (filter is_tz_token (words_acc [] (chars text))).
Proof.
  unfold findall. rewrite findall_from_tz.
  - reflexivity.
  - rewrite length_chars. lia.
Qed.

Lemma lower_upper x : lower_char (upper_char x) = lower_char x.
Proof.
  destruct x as [[] [] [] [] [] [] [] []]; vm_compute; reflexivity.
Qed.

Lemma eq_ci_upper t : forall w,
  forallb is_upper t = true -> (eq_ci t w = true <-> upper_l w = t).
Proof.
  unfold eq_ci. induction t as [|a t IH]; intros w Ht.
  - destruct w; cbn; split; intros H; try reflexivity; discriminate.
  - cbn in Ht. apply andb_prop in Ht as [Ha Ht].
    destruct w as [|c w]; [cbn; split; intros H; discriminate|].
    cbn [prefix_ci length upper_l map Nat.eqb]. fold (upper_l w).
    specialize (IH w Ht). split.
    + intros H. apply andb_prop in H as [H Hl]. apply andb_prop in H as [Hc Hp].
      apply Ascii.eqb_eq in Hc.
      rewrite <- (upper_lower c), Hc, upper_lower, (upper_of_upper a Ha).
      f_equal. apply IH. rewrite Hp, Hl. reflexivity.
    + intros H. inversion H; subst a t.
      rewrite lower_upper, Ascii.eqb_refl. cbn [andb]. apply IH. reflexivity.
Qed.

Lemma chars_str l : chars (str l) = l.
Proof. apply list_ascii_of_string_of_list_ascii. Qed.

Lemma str_chars s : str (chars s) = s.
Proof. apply string_of_list_ascii_of_string. Qed.

Lemma assoc_in {A} k (l : list (string * A)) :
  (match assoc k l with Some _ => true | None => false end) = true
  <-> In k (map fst l).
Proof.
  induction l as [|[k' v] l IH]; cbn.
  - split; [discriminate|contradiction].
  - destruct (String.eqb_spec k k') as [->|Hne].
    + split; auto.
    + rewrite IH. split; [auto|]. intros [H|H]; [congruence|exact H].
Qed.

Lemma TZ_TOKENS_upper : Forall (fun tok => forallb is_upper (chars tok) = true) TZ_TOKENS.
Proof. unfold TZ_TOKENS. repeat constructor. Qed.

Lemma TZ_keys k : In k TZ_TOKENS <-> In k (map fst TZ_ABBR).
Proof. cbn. tauto. Qed.

Lemma is_tz_token_abbr w : is_tz_token w = is_tz_abbr (str w).
Proof.
  apply eq_true_iff_eq. unfold is_tz_abbr. rewrite assoc_in, <- TZ_keys.
  unfold is_tz_token. rewrite existsb_exists. unfold upper. rewrite chars_str.
  split.
  - intros (tok & Hin & He).
    pose proof TZ_TOKENS_upper as Hup. rewrite Forall_forall in Hup.
    apply (eq_ci_upper _ _ (Hup tok Hin)) in He. rewrite He, str_chars. exact Hin.
  - intros Hin. exists (str (upper_l w)). split; [exact Hin|].
    pose proof TZ_TOKENS_upper as Hup. rewrite Forall_forall in Hup.
    apply (eq_ci_upper _ _ (Hup _ Hin)). rewrite chars_str. reflexivity.
Qed.

Lemma filter_map_str l :
  map str (filter is_tz_token l) = filter is_tz_abbr (map str l).
Proof.
  induction l as [|w l IH]; [reflexivity|]. cbn [map filter].
  rewrite <- is_tz_token_abbr. destruct (is_tz_token w); cbn [map]; rewrite IH;
    reflexivity.
Qed.

(** The abbreviation tokens [_detect_tz_tokens] finds are the words of the
    text that are abbreviations, in the order of the text. *)
Lemma findall_tz_words text :
  findall TZ_RE text = filter is_tz_abbr (words text).
Proof. rewrite findall_tz, filter_map_str. reflexivity. Qed.

Lemma last_opt_in {A} (l : list A) x : last_opt l = Some x -> In x l.
Proof.
  unfold last_opt. destruct (rev l) eqn:Hr; [discriminate|].
  intros [= ->]. apply in_rev. rewrite Hr. left. reflexivity.
Qed.

Lemma last_opt_nil {A} (l : list A) : last_opt l = None -> l = [].
Proof.
  unfold last_opt. destruct (rev l) eqn:Hr; [|discriminate].
  intros _. apply rev_nil_iff, Hr.
Qed.

End RegexFacts.

Local Open Scope string_scope.
Local Open Scope turn_scope.

(* ===================================================================== *)
(** ** The validator                                                     *)
(* ===================================================================== *)

Section ValidatorFacts.
Variable E : Env.

Lemma missing_split s :
  _missing E s =
  (basic_missing s ++ (if order_violation E s then [ORDER_LABEL] else []))%list.
Proof.
  unfold _missing, order_violation, basic_missing.
  destruct (start_iso s) as [si|], (end_iso s) as [ei|];
    rewrite ?app_nil_r; try reflexivity.
  destruct (truthy (Some si) && truthy (Some ei)); simpl;
    rewrite ?app_nil_r; try reflexivity.
  destruct (_parse_dt E si), (_parse_dt E ei); rewrite ?app_nil_r; try reflexivity.
  destruct (dt_ge E d d0); rewrite ?app_nil_r; reflexivity.
Qed.

Lemma basic_missing_length s :
  length (basic_missing s) =
  b2n (negb (truthy (title s))) + b2n (negb (truthy (start_iso s)))
  + b2n (negb (truthy (end_iso s))) + b2n (negb (truthy (timezone s))).
Proof.
  unfold basic_missing. cbn -[truthy].
  destruct (truthy (title s)), (truthy (start_iso s)), (truthy (end_iso s)),
    (truthy (timezone s)); reflexivity.
Qed.

Lemma order_violation_needs_both s :
  order_violation E s = true ->
  truthy (start_iso s) = true /\ truthy (end_iso s) = true.
Proof.
  unfold order_violation.
  destruct (start_iso s), (end_iso s); try discriminate.
  intros H. apply andb_prop in H as [H _]. apply andb_prop in H. exact H.
Qed.

Lemma missing_length s :
  length (_missing E s) = length (basic_missing s) + b2n (order_violation E s).
Proof.
  rewrite missing_split, length_app. destruct (order_violation E s); reflexivity.
Qed.

Lemma b2n_le1 b : b2n b <= 1.
Proof. destruct b; simpl; lia. Qed.

Lemma missing_fill s k v s' :
  In k REQUIRED -> slot_truthy k s = false -> truthy (Some v) = true ->
  set_str_slot k (Some v) s = Some s' ->
  length (_missing E s') <= length (_missing E s).
Proof.
  intros Hk Hmiss Hv Hset.
  rewrite !missing_length, !basic_missing_length.
  assert (Hov := order_violation_needs_both s).
  pose proof (b2n_le1 (order_violation E s')) as Hle.
  simpl in Hk.
  destruct Hk as [<-|[<-|[<-|[<-|[]]]]]; cbn in Hset; inversion Hset; subst s';
    clear Hset; cbn -[truthy order_violation] in Hmiss |- *; rewrite Hv, Hmiss;
    cbn [negb b2n].
  - change (order_violation E (set_title (Some v) s)) with (order_violation E s).
    lia.
  - destruct (order_violation E s).
    + destruct Hov as [Hs _]; [reflexivity|congruence].
    + cbn [b2n]. lia.
  - destruct (order_violation E s).
    + destruct Hov as [_ He]; [reflexivity|congruence].
    + cbn [b2n]. lia.
  - change (order_violation E (set_timezone (Some v) s)) with (order_violation E s).
    lia.
Qed.
End ValidatorFacts.

(* ===================================================================== *)
(** ** Pre-extraction                                                    *)
(* ===================================================================== *)

Lemma mem_map_lower e l : In e l -> mem (lower e) (map lower l) = true.
Proof.
  intros H. unfold mem. apply existsb_exists. exists (lower e).
  split; [apply in_map, H | apply String.eqb_refl].
Qed.

Lemma mem_app x l1 l2 : mem x (l1 ++ l2)%list = mem x l1 || mem x l2.
Proof. unfold mem. apply existsb_app. Qed.

Lemma filter_none {A} (f : A -> bool) l :
  (forall x, In x l -> f x = false) -> filter f l = [].
Proof.
  induction l as [|a l IH]; intros H; [reflexivity|]. cbn.
  rewrite (H a (or_introl eq_refl)). apply IH. intros x Hx. apply H. right. exact Hx.
Qed.

(** A second pass over the same emails appends nothing. *)
Lemma add_emails_idem emails atts :
  add_emails emails (add_emails emails atts) = add_emails emails atts.
Proof.
  unfold add_emails at 1. rewrite filter_none; [apply app_nil_r|].
  intros e He. apply negb_false_iff.
  unfold add_emails. rewrite map_app, mem_app.
  destruct (mem (lower e) (map lower atts)) eqn:Hm; [reflexivity|].
  cbn [orb]. apply mem_map_lower. apply filter_In. split; [exact He|].
  rewrite Hm. reflexivity.
Qed.

Lemma slots_eta s :
  {| title := title s; start_iso := start_iso s; end_iso := end_iso s;
     timezone := timezone s; attendees := attendees s; location := location s;
     description := description s; recurrence := recurrence s; link := link s |}
  = s.
Proof. destruct s; reflexivity. Qed.

Lemma extract_emails_idem text s :
  extract_emails text (extract_emails text s) = extract_emails text s.
Proof.
  unfold extract_emails. cbv zeta.
  destruct (findall EMAIL_RE text) as [|e l]; [reflexivity|].
  unfold set_attendees. cbn [attendees title start_iso end_iso timezone location
    description recurrence link]. rewrite add_emails_idem. reflexivity.
Qed.

Lemma extract_link_idem text s :
  extract_link text (extract_link text s) = extract_link text s.
Proof.
  unfold extract_link. destruct (truthy (link s)) eqn:Hl.
  - rewrite Hl. reflexivity.
  - destruct (search URL_RE text) as [x|].
    + cbn [set_link link]. destruct (truthy (Some (str (m_text x)))); reflexivity.
    + rewrite Hl. reflexivity.
Qed.

Lemma extract_tz_idem text s :
  extract_tz text (extract_tz text s) = extract_tz text s.
Proof.
  unfold extract_tz. destruct (_detect_tz_tokens text) as [z|]; [|reflexivity].
  destruct (truthy (Some z)); reflexivity.
Qed.

(** The steps touch different slots, so they can be reordered. *)
Lemma extract_link_emails text s :
  extract_link text (extract_emails text s) = extract_emails text (extract_link text s).
Proof.
  unfold extract_link, extract_emails. cbv zeta.
  destruct (findall EMAIL_RE text) as [|e l]; [reflexivity|].
  cbn [set_attendees link]. destruct (truthy (link s)); [reflexivity|].
  destruct (search URL_RE text); reflexivity.
Qed.

Lemma extract_tz_emails text s :
  extract_tz text (extract_emails text s) = extract_emails text (extract_tz text s).
Proof.
  unfold extract_tz, extract_emails. cbv zeta.
  destruct (findall EMAIL_RE text) as [|e l]; [reflexivity|].
  destruct (_detect_tz_tokens text) as [z|]; [|reflexivity].
  destruct (truthy (Some z)); reflexivity.
Qed.

Lemma extract_tz_link text s :
  extract_tz text (extract_link text s) = extract_link text (extract_tz text s).
Proof.
  unfold extract_tz, extract_link.
  destruct (_detect_tz_tokens text) as [z|]; [|reflexivity].
  destruct (truthy (Some z)); [|reflexivity].
  cbn [set_timezone link]. destruct (truthy (link s)); [reflexivity|].
  destruct (search URL_RE text); reflexivity.
Qed.

Lemma extract_all_idem text s :
  extract_tz text (extract_link text (extract_emails text
    (extract_tz text (extract_link text (extract_emails text s)))))
  = extract_tz text (extract_link text (extract_emails text s)).
Proof.
  rewrite <- (extract_tz_emails text (extract_link text (extract_emails text s))).
  rewrite <- (extract_link_emails text (extract_emails text s)).
  rewrite extract_emails_idem.
  rewrite <- (extract_tz_link text (extract_link text (extract_emails text s))).
  rewrite extract_link_idem, extract_tz_idem. reflexivity.
Qed.

Lemma preextract_idem st :
  _preextract_slots (_preextract_slots st) = _preextract_slots st.
Proof.
  unfold _preextract_slots. cbv zeta.
  destruct (String.eqb (or_str (new_user_message st) "") "") eqn:Ht.
  - rewrite Ht. reflexivity.
  - cbn [set_slots new_user_message slots]. rewrite Ht.
    rewrite extract_all_idem. reflexivity.
Qed.

Lemma attendees_extract_link text s :
  attendees (extract_link text s) = attendees s.
Proof.
  unfold extract_link. destruct (truthy _); [reflexivity|].
  destruct (search _ _); reflexivity.
Qed.

Lemma attendees_extract_tz text s : attendees (extract_tz text s) = attendees s.
Proof.
  unfold extract_tz. destruct (_detect_tz_tokens _); [|reflexivity].
  destruct (truthy _); reflexivity.
Qed.

Lemma link_extract_tz text s : link (extract_tz text s) = link s.
Proof.
  unfold extract_tz. destruct (_detect_tz_tokens _); [|reflexivity].
  destruct (truthy _); reflexivity.
Qed.

Lemma link_extract_emails text s : link (extract_emails text s) = link s.
Proof.
  unfold extract_emails. cbv zeta. destruct (findall _ _); reflexivity.
Qed.

(** What a pass appends was not among the attendees, compared in lower
    case; the attendees before the pass keep their places. *)
Lemma preextract_attendees st :
  exists added,
    attendees (slots (_preextract_slots st)) = (attendees (slots st) ++ added)%list
    /\ forall e, In e added ->
                 mem (lower e) (map lower (attendees (slots st))) = false.
Proof.
  unfold _preextract_slots. cbv zeta.
  destruct (String.eqb (or_str (new_user_message st) "") "").
  - exists []. rewrite app_nil_r. split; [reflexivity|contradiction].
  - cbn [set_slots slots]. rewrite attendees_extract_tz, attendees_extract_link.
    unfold extract_emails. cbv zeta.
    destruct (findall EMAIL_RE _) as [|e l] eqn:Hf.
    + exists []. rewrite app_nil_r. split; [reflexivity|contradiction].
    + cbn [set_attendees attendees]. unfold add_emails. eexists.
      split; [reflexivity|]. intros x Hx. apply filter_In in Hx as [_ Hx].
      apply negb_true_iff in Hx. exact Hx.
Qed.

Lemma preextract_keeps_link st :
  truthy (link (slots st)) = true ->
  link (slots (_preextract_slots st)) = link (slots st).
Proof.
  intros Hl. unfold _preextract_slots. cbv zeta.
  destruct (String.eqb (or_str (new_user_message st) "") ""); [reflexivity|].
  cbn [set_slots slots]. rewrite link_extract_tz. unfold extract_link.
  rewrite link_extract_emails, Hl. apply link_extract_emails.
Qed.

(* ===================================================================== *)
(** ** Runs of the tools and of the turn                                 *)
(* ===================================================================== *)

Section RunFacts.
Variable E : Env.

Lemma tool_create_event_run w ev r :
  _missing E (slots (sess w)) = [] ->
  make_EventIn E (slots (sess w)) (link_description (slots (sess w))) = Ok ev ->
  cal_result (calendar_insert E (cal_body ev)) = Some r ->
  tool_create_event E w =
  ({| sess := keep_link r (sess w);
      log := (log w ++ [EvToolCreateEvent (awaiting_confirm (sess w));
                        EvCalCreateEvent ev; EvCalInsert (cal_body ev)])%list |},
   Ok (upd_created r)).
Proof.
  intros Hm Hev Hr. unfold tool_create_event.
  unfold bind at 1. unfold get at 1. cbv iota beta.
  unfold bind at 1. unfold emit at 1. cbv iota beta zeta. cbn [sess log].
  rewrite Hm. unfold bind at 1. cbn [lift]. rewrite Hev.
  unfold create_event. unfold bind, emit. cbn [sess log]. cbv zeta.
  unfold keep_link, upd_created, modify_slots, modify, ret.
  rewrite <- !app_assoc. cbn [app].
  destruct (calendar_insert E (cal_body ev)) as [[i l]|msg|ex]; cbn in Hr;
    inversion Hr; subst r; cbn [sess log];
    match goal with |- context [truthy ?x] => destruct (truthy x) end;
    reflexivity.
Qed.

Lemma tool_create_event_missing w :
  _missing E (slots (sess w)) <> [] ->
  tool_create_event E w =
  ({| sess := sess w;
      log := (log w ++ [EvToolCreateEvent (awaiting_confirm (sess w))])%list |},
   Ok (upd_reply ("Still missing: "
                  ++ join ", " (_missing E (slots (sess w))) ++ "."))).
Proof.
  intros Hm. unfold tool_create_event, bind, get, emit. cbn [sess log]. cbv zeta.
  destruct (_missing E (slots (sess w))); [contradiction|reflexivity].
Qed.

Variable G : graph_output.






Lemma bind_get {A} (f : AgentState -> M A) w : bind get f w = f (sess w) w.
Proof. reflexivity. Qed.

Lemma bind_modify {A} f (k : unit -> M A) w :
  bind (modify f) k w = k tt {| sess := f (sess w); log := log w |}.
Proof. reflexivity. Qed.

Lemma bind_emit {A} e (k : unit -> M A) w :
  bind (emit e) k w = k tt {| sess := sess w; log := (log w ++ [e])%list |}.
Proof. reflexivity. Qed.




End RunFacts.

Lemma decide_and_act_run E w raw :
  llm_complete E (build_prompt E (prepared E (sess w))) = inr raw ->
  decide_and_act E w =
  match decode E (strip raw) with
  | None => fallback E
  | Some d => dispatch E d
  end {| sess := prepared E (sess w);
         log := (log w ++ [EvLlm (build_prompt E (prepared E (sess w)))])%list |}.
Proof.
  intros H. unfold decide_and_act, bind, modify_slots, modify, get, _llm_complete,
    emit, bind. cbn [sess log]. fold (prepared E (sess w)). rewrite H. reflexivity.
Qed.

Lemma fallback_run E w :
  fallback E w =
  ({| sess := set_slots (with_title (sess w)) (sess w); log := log w |},
   Ok match _missing E (with_title (sess w)) with
      | [] => upd_confirm (_build_confirm_summary E (with_title (sess w)))
      | miss => upd_reply ("Missing: " ++ join ", " miss ++ ".")
      end).
Proof.
  unfold fallback, with_title, bind, get, modify_slots, modify, ret,
    present_confirmation, bind, get, ret.
  destruct w as [st lg]. cbn [sess log].
  destruct (truthy (title (slots st))) eqn:Ht; cbn [sess log slots set_slots].
  - replace (set_slots (slots st) st) with st by (destruct st; reflexivity).
    destruct (_missing E (slots st)); reflexivity.
  - destruct (_missing E _); reflexivity.
Qed.

Lemma awaiting_confirm_prepared E st :
  awaiting_confirm (prepared E st) = awaiting_confirm st.
Proof.
  unfold prepared, _preextract_slots. cbn [set_slots awaiting_confirm].
  destruct (String.eqb _ _); reflexivity.
Qed.

Lemma lower_nonempty a : lower a = "create_event" -> json_truthy (JStr a) = true.
Proof. destruct a; [discriminate|reflexivity]. Qed.

Lemma dispatch_create_event_unconfirmed E w kvs a :
  assoc "action" kvs = Some (JStr a) -> lower a = "create_event" ->
  awaiting_confirm (sess w) = false ->
  dispatch E (JObj kvs) w =
  (w, Ok (upd_confirm (_build_confirm_summary E (slots (sess w))))).
Proof.
  intros Ha Hl Haw. unfold dispatch.
  unfold bind at 1. cbn [lift dict_get]. rewrite Ha.
  unfold bind at 1. cbn [lift]. rewrite (lower_nonempty a Hl), Hl.
  unfold bind at 1. cbn [lift dict_get].
  cbn [String.eqb Ascii.eqb Bool.eqb].
  unfold bind, get, present_confirmation, bind, get, ret. rewrite Haw.
  reflexivity.
Qed.

Section AvailabilityFacts.
Variable E : Env.

Lemma missing_in_basic s k :
  In k (_missing E s) -> In k (basic_missing s) \/ k = ORDER_LABEL.
Proof.
  unfold _missing. fold (basic_missing s).
  destruct (start_iso s) as [si|]; [|auto].
  destruct (end_iso s) as [ei|]; [|auto].
  destruct (truthy (Some si) && truthy (Some ei)); [|auto].
  destruct (_parse_dt E si); [|auto]. destruct (_parse_dt E ei); [|auto].
  destruct (dt_ge E _ _); [|auto].
  intros H. apply in_app_or in H as [H|[H|[]]]; auto.
Qed.



Variable G : graph_output.

End AvailabilityFacts.

(* ===================================================================== *)
(** ** The gate, step by step                                            *)
(* ===================================================================== *)

Lemma quiet_refl w : quiet w w.
Proof. exists []. rewrite app_nil_r. auto. Qed.

Lemma quiet_trans w1 w2 w3 : quiet w1 w2 -> quiet w2 w3 -> quiet w1 w3.
Proof.
  intros (n1 & L1 & F1 & C1) (n2 & L2 & F2 & C2).
  exists (n1 ++ n2)%list. rewrite L2, L1, app_assoc. split; [reflexivity|].
  split; [apply Forall_app; auto | congruence].
Qed.

Lemma quiet_modify f w :
  (forall st, created_event (f st) = created_event st) ->
  quiet w (fst (modify f w)).
Proof. intros H. exists []. simpl. rewrite app_nil_r. auto. Qed.

Lemma quiet_emit e w : gate_ok e -> quiet w (fst (emit e w)).
Proof. intros H. exists [e]. simpl. auto. Qed.

Lemma qc_weaken {A} (R1 R2 : A -> Prop) (c : M A) :
  qc R1 c -> (forall a, R1 a -> R2 a) -> qc R2 c.
Proof. intros H HR w. destruct (H w) as [Hq Hr]. split; auto. Qed.

Lemma qc_bind {A B} (R1 : A -> Prop) (R : B -> Prop) (c : M A) (f : A -> M B) :
  qc R1 c -> (forall a, R1 a -> qc R (f a)) -> qc R (bind c f).
Proof.
  intros Hc Hf w. unfold bind. destruct (Hc w) as [Hq Hr].
  destruct (c w) as [w' [a|e]]; simpl in *.
  - destruct (Hf a (Hr a eq_refl) w') as [Hq' Hr'].
    split; [eapply quiet_trans; eauto | exact Hr'].
  - split; [exact Hq | discriminate].
Qed.

Lemma qc_bind_any {A B} (R : B -> Prop) (c : M A) (f : A -> M B) :
  qc (fun _ => True) c -> (forall a, qc R (f a)) -> qc R (bind c f).
Proof. intros Hc Hf. eapply qc_bind; [exact Hc | auto]. Qed.

Lemma qc_ret {A} (R : A -> Prop) (a : A) : R a -> qc R (ret a).
Proof.
  intros H w. split; [apply quiet_refl|]. simpl. intros ? [= <-]. exact H.
Qed.
Lemma qc_raise {A} (R : A -> Prop) e : qc R (raise e).
Proof. intros w. split; [apply quiet_refl | discriminate]. Qed.
Lemma qc_lift {A} (o : outcome A) : qc (fun _ => True) (lift o).
Proof. intros w. split; [apply quiet_refl | auto]. Qed.
Lemma qc_get : qc (fun _ => True) get.
Proof. intros w. split; [apply quiet_refl | auto]. Qed.
Lemma qc_modify f :
  (forall st, created_event (f st) = created_event st) ->
  qc (fun _ => True) (modify f).
Proof. intros H w. split; [apply quiet_modify, H | auto]. Qed.
Lemma qc_modify_slots f : qc (fun _ => True) (modify_slots f).
Proof. apply qc_modify. reflexivity. Qed.
Lemma qc_emit e : gate_ok e -> qc (fun _ => True) (emit e).
Proof. intros H w. split; [apply quiet_emit, H | auto]. Qed.
Lemma qc_try {A} (R : A -> Prop) (c : M A) h :
  qc R c -> (forall e, qc R (h e)) -> qc R (try_catch c h).
Proof.
  intros Hc Hh w. unfold try_catch. destruct (Hc w) as [Hq Hr].
  destruct (c w) as [w' [a|e]]; simpl in *.
  - split; [exact Hq | exact Hr].
  - destruct (Hh e w') as [Hq' Hr']. split; [eapply quiet_trans; eauto | exact Hr'].
Qed.

Lemma created_event_preextract st :
  created_event (_preextract_slots st) = created_event st.
Proof.
  unfold _preextract_slots. destruct (String.eqb _ _); reflexivity.
Qed.

Ltac qc_step :=
  first [ apply qc_ret; try exact I; try reflexivity
        | apply qc_raise
        | apply qc_lift | apply qc_get | apply qc_modify_slots
        | apply qc_modify; first [reflexivity | apply created_event_preextract]
        | apply qc_emit; exact I
        | apply qc_try; [|intros ?]
        | apply qc_bind_any; [|intros ?]
        | match goal with
          | |- qc _ (match ?x with _ => _ end) => destruct x
          | |- qc _ (if ?x then _ else _) => destruct x
          | |- qc _ (let _ := _ in _) => cbv zeta
          end ].
Ltac qc_tac := repeat qc_step.

Section GateFacts.
Variable E : Env.

Lemma qc_get_busy self s e tz : qc any (get_busy E self s e tz).
Proof. unfold get_busy. qc_tac. Qed.

Lemma qc_tool_check_availability : qc no_event (tool_check_availability E).
Proof. unfold tool_check_availability. qc_tac. Qed.

Lemma qc_create_event self e : qc any (create_event E self e).
Proof. unfold create_event. qc_tac. Qed.

Lemma qc_send self to subj body : qc any (send E self to subj body).
Proof. unfold send. qc_tac. Qed.

Lemma qc_tool_send_email yes : qc no_event (tool_send_email E yes).
Proof. unfold tool_send_email. qc_tac. Qed.

Lemma qc_set_one k v : qc any (set_one k v).
Proof. unfold set_one. qc_tac. Qed.

Lemma qc_set_all kvs : qc any (set_all kvs).
Proof.
  induction kvs as [|[k v] tl IH]; simpl; qc_tac; auto using qc_set_one.
Qed.

Lemma qc_present_confirmation : qc no_event (present_confirmation E).
Proof. unfold present_confirmation. qc_tac. Qed.

Lemma qc_fallback : qc no_event (fallback E).
Proof. unfold fallback. qc_tac. Qed.

Lemma tool_post_of_qc (c : M Updates) w :
  qc no_event c -> tool_post w (fst (c w)) (snd (c w)).
Proof.
  intros H. destruct (H w) as [(new & L & F & C) Hr].
  exists new. repeat split; auto.
Qed.

Lemma tool_post_quiet_before w w1 w' o :
  quiet w w1 -> tool_post w1 w' o -> tool_post w w' o.
Proof.
  intros (n1 & L1 & F1 & C1) (n2 & L2 & F2 & C2 & H).
  exists (n1 ++ n2)%list. rewrite L2, L1, app_assoc.
  repeat split; [apply Forall_app; auto | congruence |].
  intros u Hu. destruct (H u Hu); auto. right. apply in_or_app. auto.
Qed.

(** The tool itself: entered with [awaiting_confirm] set, it respects the
    gate; it leaves the [created_event] of the session to its caller. *)
Lemma tool_create_event_post w :
  awaiting_confirm (sess w) = true ->
  tool_post w (fst (tool_create_event E w)) (snd (tool_create_event E w)).
Proof.
  intros Haw. unfold tool_create_event.
  unfold bind at 1. unfold get at 1. cbv iota beta.
  unfold bind at 1. unfold emit at 1. cbv iota beta. rewrite Haw.
  match goal with |- tool_post _ (fst (?k ?w1)) _ =>
    assert (Hk : qc any k) by qc_tac;
    destruct (Hk w1) as [(new & L & F & C) _]
  end.
  exists (EvToolCreateEvent true :: new).
  rewrite L. simpl. rewrite <- app_assoc. simpl.
  split; [reflexivity|]. split; [constructor; [reflexivity|exact F]|].
  split; [exact C|]. intros u _. right. left. reflexivity.
Qed.

Lemma tp_of_qc c : qc no_event c -> tp c.
Proof. intros H w. apply tool_post_of_qc, H. Qed.

Lemma tp_bind {A} (c : M A) (f : A -> M Updates) :
  qc any c -> (forall a, tp (f a)) -> tp (bind c f).
Proof.
  intros Hc Hf w. unfold bind. destruct (Hc w) as [Hq _].
  destruct (c w) as [w' [a|e]]; simpl in *.
  - eapply tool_post_quiet_before; [exact Hq | apply Hf].
  - destruct Hq as (new & L & F & C). exists new. repeat split; auto. discriminate.
Qed.

Lemma tp_gate :
  tp (bind get (fun st => if negb (awaiting_confirm st)
                          then present_confirmation E
                          else tool_create_event E)).
Proof.
  intros w. rewrite bind_get.
  destruct (awaiting_confirm (sess w)) eqn:Haw; cbn [negb].
  - apply tool_create_event_post, Haw.
  - apply tool_post_of_qc, qc_present_confirmation.
Qed.

Ltac tp_step :=
  first [ apply tp_gate
        | apply tp_of_qc;
          first [ apply qc_tool_send_email | apply qc_tool_check_availability
                | apply qc_fallback | solve [qc_tac] ]
        | apply tp_bind; [solve [qc_tac; auto using qc_set_all] | intros ?]
        | match goal with
          | |- tp (match ?x with _ => _ end) => destruct x
          | |- tp (if ?x then _ else _) => destruct x
          | |- tp (let _ := _ in _) => cbv zeta
          end ].

Lemma tp_dispatch d : tp (dispatch E d).
Proof.
  unfold dispatch. repeat tp_step.
Qed.

Lemma tp_decide_and_act : tp (decide_and_act E).
Proof.
  unfold decide_and_act. repeat tp_step.
Qed.

(** *** The chat turn *)

Variable G : graph_output.

Lemma gated_of_quiet w w' : quiet w w' -> gated w w'.
Proof. intros (n & L & F & C). exists n. auto. Qed.

Lemma gated_quiet w1 w2 w3 : gated w1 w2 -> quiet w2 w3 -> gated w1 w3.
Proof.
  intros (n1 & L1 & F1 & C1) (n2 & L2 & F2 & C2).
  exists (n1 ++ n2)%list. rewrite L2, L1, app_assoc.
  repeat split; [apply Forall_app; auto|].
  destruct C1 as [C1|C1]; [left; congruence | right; apply in_or_app; auto].
Qed.

Lemma quiet_gated w1 w2 w3 : quiet w1 w2 -> gated w2 w3 -> gated w1 w3.
Proof.
  intros (n1 & L1 & F1 & C1) (n2 & L2 & F2 & C2).
  exists (n1 ++ n2)%list. rewrite L2, L1, app_assoc.
  repeat split; [apply Forall_app; auto|].
  destruct C2 as [C2|C2]; [left; congruence | right; apply in_or_app; auto].
Qed.

(** A step followed by [state.update] of what it returned. *)
Lemma gated_update (c : M Updates) (k : Updates -> M ChatOut) w :
  tool_post w (fst (c w)) (snd (c w)) ->
  (forall u, qc any (k u)) ->
  gated w (fst (bind c (fun u => bind (modify (state_update u)) (fun _ => k u)) w)).
Proof.
  intros (new & L & F & C & H) Hk. unfold bind at 1.
  destruct (c w) as [w1 [u|e]]; cbn [fst snd] in *.
  - unfold bind at 1. cbn [modify].
    eapply gated_quiet; [|apply Hk].
    exists new. cbn [log sess]. repeat split; auto.
    destruct (H u eq_refl) as [Hn|Hin]; [left|right; exact Hin].
    cbn [state_update created_event]. rewrite Hn. exact C.
  - exists new. auto.
Qed.

Lemma qc_update_no_event {A} (R : A -> Prop) (c : M Updates)
      (k : Updates -> M A) :
  qc no_event c -> (forall u, qc R (k u)) ->
  qc R (bind c (fun u => bind (modify (state_update u)) (fun _ => k u))).
Proof.
  intros Hc Hk. eapply qc_bind; [exact Hc|]. intros u Hu.
  apply qc_bind_any; [|intros _; apply Hk].
  apply qc_modify. intros st. cbn [state_update created_event].
  rewrite Hu. reflexivity.
Qed.

Lemma qc_follow_up text ev : qc any (follow_up E text ev).
Proof.
  unfold follow_up. cbv zeta. destruct (negb _); [|qc_tac].
  apply qc_update_no_event; [apply qc_tool_send_email|]. intros u. qc_tac.
Qed.

Lemma gated_create_and_answer text w :
  awaiting_confirm (sess w) = true ->
  gated w (fst (create_and_answer E text w)).
Proof.
  intros Haw. unfold create_and_answer.
  apply gated_update; [apply tool_create_event_post, Haw|].
  intros u. qc_tac. apply qc_follow_up.
Qed.

Lemma quiet_availability_path : qc any (availability_path E).
Proof.
  unfold availability_path.
  do 3 (apply qc_bind_any; [qc_tac|intros ?]).
  destruct (_missing _ _); [|qc_tac].
  apply qc_update_no_event; [apply qc_tool_check_availability|].
  intros u. qc_tac.
Qed.

Lemma quiet_decline : qc any decline.
Proof. unfold decline. qc_tac. Qed.

Lemma APP_GRAPH_invoke_eq w :
  APP_GRAPH_invoke E G w =
  match decide_and_act E w with
  | (w1, Ok u) =>
      (w1, Ok match G with
              | NodeUpdates => u
              | FullState => full_updates (state_update u (sess w1))
              end)
  | (w1, Raise e) => (w1, Raise e)
  end.
Proof.
  unfold APP_GRAPH_invoke, bind, get, ret.
  destruct (decide_and_act E w) as [w1 [u|e]]; destruct G; reflexivity.
Qed.

Lemma invoke_post_APP_GRAPH w :
  invoke_post w (fst (APP_GRAPH_invoke E G w)) (snd (APP_GRAPH_invoke E G w)).
Proof.
  rewrite APP_GRAPH_invoke_eq.
  destruct (tp_decide_and_act w) as (new & L & F & C & H).
  destruct (decide_and_act E w) as [w1 [u|e]]; cbn [fst snd] in *;
    exists new; (split; [exact L|]); (split; [exact F|]); (split; [exact C|]);
    [|discriminate].
  intros u' Hu'. inversion Hu'; subst u'; clear Hu'.
  destruct (H u eq_refl) as [Hn|Hin]; [left|right; exact Hin].
  destruct G; cbn [state_update created_event full_updates u_created_event];
    rewrite Hn; cbn [first_some]; destruct (created_event (sess w1));
    reflexivity.
Qed.

Lemma gated_policy_path text w : gated w (fst (policy_path E G text w)).
Proof.
  unfold policy_path. unfold bind at 1.
  destruct (invoke_post_APP_GRAPH w) as (new & L & F & C & H).
  destruct (APP_GRAPH_invoke E G w) as [w1 [u|e]]; cbn [fst snd] in *.
  - rewrite bind_modify. cbv beta.
    match goal with |- gated _ (fst (?k ?w2)) =>
      assert (Hk : qc any k) by (qc_tac; apply qc_follow_up);
      apply (@gated_quiet w w2); [|apply Hk]
    end.
    exists new. cbn [log sess]. repeat split; auto.
    destruct (H u eq_refl) as [Hn|Hin]; [left; congruence|right; exact Hin].
  - exists new. auto.
Qed.

Lemma gated_continue_or_policy text w :
  gated w (fst (continue_or_policy E G text w)).
Proof.
  unfold continue_or_policy. rewrite !bind_modify.
  unfold modify_slots. rewrite bind_modify, bind_get. cbn [sess].
  match goal with |- gated _ (fst (_ ?w1)) =>
    assert (Hq : quiet w w1)
      by (exists []; cbn [log sess]; rewrite app_nil_r; repeat split; auto;
          cbn [set_slots created_event]; apply created_event_preextract)
  end.
  eapply quiet_gated; [exact Hq|].
  match goal with |- context [if ?b then _ else _] => destruct b end.
  - rewrite bind_modify. eapply quiet_gated;
      [|apply gated_create_and_answer; reflexivity].
    exists []. cbn [log sess]. rewrite app_nil_r. repeat split; auto.
  - apply gated_policy_path.
Qed.

(** One turn respects the gate. *)
Lemma gated_agent_chat message w : gated w (fst (agent_chat E G message w)).
Proof.
  unfold agent_chat. cbv zeta. rewrite !bind_modify.
  match goal with |- gated _ (fst (_ ?w1)) =>
    assert (Hq : quiet w w1)
      by (exists []; cbn [log sess]; rewrite app_nil_r; repeat split; auto)
  end.
  eapply quiet_gated; [exact Hq|].
  destruct (wants_check_availability _).
  - apply gated_of_quiet, quiet_availability_path.
  - rewrite bind_get.
    match goal with |- context [if awaiting_confirm ?s then _ else _] =>
      destruct (awaiting_confirm s) eqn:Haw end.
    + destruct (is_affirmative _).
      * apply gated_create_and_answer. exact Haw.
      * destruct (is_negative _).
        -- apply gated_of_quiet, quiet_decline.
        -- apply gated_continue_or_policy.
    + apply gated_continue_or_policy.
Qed.

End GateFacts.

Lemma gated_refl w : gated w w.
Proof. exists []. rewrite app_nil_r. auto. Qed.

Lemma gated_trans w1 w2 w3 : gated w1 w2 -> gated w2 w3 -> gated w1 w3.
Proof.
  intros (n1 & L1 & F1 & C1) (n2 & L2 & F2 & C2).
  exists (n1 ++ n2)%list. rewrite L2, L1, app_assoc.
  repeat split; [apply Forall_app; auto|].
  destruct C1 as [C1|C1]; [|right; apply in_or_app; auto].
  destruct C2 as [C2|C2]; [left; congruence | right; apply in_or_app; auto].
Qed.

Lemma gated_chat G turns w : gated w (fst (chat G turns w)).
Proof.
  revert w. induction turns as [|[E msg] tl IH]; intros w; cbn [chat].
  - apply gated_refl.
  - pose proof (gated_agent_chat E G msg w) as H1.
    destruct (agent_chat E G msg w) as [w1 o]. cbn [fst] in H1.
    specialize (IH w1). destruct (chat G tl w1) as [w2 os]. cbn [fst] in *.
    eapply gated_trans; eauto.
Qed.

(* ===================================================================== *)
(** ** The statements of the specification                               *)
(* ===================================================================== *)

(** *** The confirm gate *)

Lemma created_event_prepared E st :
  created_event (prepared E st) = created_event st.
Proof. unfold prepared. cbn [set_slots created_event]. apply created_event_preextract. Qed.

(** C1: Confirm-gate invariant. In every turn, and so over every
    conversation (any sequence of messages, each turn in its own
    environment, under either reading of what the graph returns), every
    entry into the Create-Event tool found [awaiting_confirm] true at that
    moment, and [created_event] differs at the end from its value at the
    start only if the tool was so entered. In particular, when the policy
    step decodes a [create_event] action while [awaiting_confirm] is false,
    the tool is not entered: the step only asks the completion
    collaborator, and returns the updates that set [awaiting_confirm] and
    make the rendered confirmation summary the reply. *)
Theorem C1_confirm_gate :
  (forall E G message w, gated w (fst (agent_chat E G message w)))
  /\ (forall G turns w,
        exists new,
          log (fst (chat G turns w)) = (log w ++ new)%list
          /\ Forall gate_ok new
          /\ (created_event (sess (fst (chat G turns w)))
              = created_event (sess w)
              \/ In (EvToolCreateEvent true) new))
  /\ (forall E w raw kvs a,
        llm_complete E (build_prompt E (prepared E (sess w))) = inr raw ->
        decode E (strip raw) = Some (JObj kvs) ->
        assoc "action" kvs = Some (JStr a) ->
        lower a = "create_event" ->
        awaiting_confirm (sess w) = false ->
        let st := prepared E (sess w) in
        let summary := _build_confirm_summary E (slots st) in
        decide_and_act E w
        = ({| sess := st;
              log := (log w ++ [EvLlm (build_prompt E st)])%list |},
           Ok (upd_confirm summary))
        /\ created_event st = created_event (sess w)
        /\ awaiting_confirm (state_update (upd_confirm summary) st) = true
        /\ reply (state_update (upd_confirm summary) st) = summary
        /\ created_event (state_update (upd_confirm summary) st)
           = created_event (sess w)).
Proof.
  split; [exact gated_agent_chat|]. split; [exact gated_chat|].
  intros E w raw kvs a Hraw Hdec Hact Hlow Haw. cbv zeta.
  assert (Hc : created_event (prepared E (sess w)) = created_event (sess w))
    by (apply created_event_prepared).
  split; [|repeat split; try exact Hc; cbn; exact Hc].
  rewrite (decide_and_act_run E w raw Hraw), Hdec.
  apply dispatch_create_event_unconfirmed with (a := a); auto.
  cbn [sess]. rewrite awaiting_confirm_prepared. exact Haw.
Qed.

(** The policy step on a fresh session that received [book it], when the
    collaborator answers with a [create_event] action. *)
Lemma C1_confirm_gate_witness :
  awaiting_confirm Demo.fresh = false
  /\ decide_and_act Demo.E_create (Demo.start (received "book it" Demo.fresh))
     = ({| sess := prepared Demo.E_create (received "book it" Demo.fresh);
           log := [EvLlm (build_prompt Demo.E_create
                            (prepared Demo.E_create
                               (received "book it" Demo.fresh)))] |},
        Ok (upd_confirm
              (_build_confirm_summary Demo.E_create
                 (slots (prepared Demo.E_create
                           (received "book it" Demo.fresh)))))).
Proof.
  split; [reflexivity|].
  exact (proj1 (proj2 (proj2 C1_confirm_gate) Demo.E_create
                  (Demo.start (received "book it" Demo.fresh))
                  Demo.raw_create
                  [("action", JStr "create_event"); ("args", JObj [])]
                  "create_event" eq_refl eq_refl eq_refl eq_refl eq_refl)).
Defined.

(** *** The [done] flag *)

(** C2: [done] is not tied to a creation in the turn. A session in which
    the event was created two turns earlier answers [thanks] with
    [done = True] although the turn never enters the Create-Event tool and
    makes no call on the Calendar collaborator (line 508 reads the stored
    [created_event], not the updates of the turn); and a confirmation turn
    whose calendar request ends in an [HttpError] stores the failed result
    and reports [done = True] as well. *)
Theorem C2_done_without_creation_in_turn :
  (forall G,
     let r := agent_chat Demo.E_finish G "thanks" (Demo.start Demo.created) in
     existsb is_tool_create (log (fst r)) = false
     /\ existsb is_calendar_event (log (fst r)) = false
     /\ exists out, snd r = Ok out /\ done out = true)
  /\ (forall G,
        let r := agent_chat Demo.E_403 G "yes" (Demo.start Demo.confirming) in
        created_event (sess (fst r)) = Some (ResErr "HttpError 403")
        /\ exists out, snd r = Ok out /\ done out = true).
Proof.
  split; intros [|]; vm_compute; repeat split; eexists; split; reflexivity.
Qed.

(** *** Availability requests *)




(** *** Skipping the email *)




(** *** The validator *)

(** C5: Validator monotonicity. For every slot snapshot, setting a required
    field that was missing to a non-empty value never makes the list
    [_missing] returns longer; whenever both times are set, both parse, and
    the start is not before the end, the list contains the
    ordering-violation label; and that label is none of the labels of
    plain absence (the names of the required fields). *)
Theorem C5_validator_monotone E s :
  (forall k v s',
      In k REQUIRED -> slot_truthy k s = false -> truthy (Some v) = true ->
      set_str_slot k (Some v) s = Some s' ->
      length (_missing E s') <= length (_missing E s))
  /\ (forall si ei sdt edt,
        start_iso s = Some si -> end_iso s = Some ei ->
        truthy (Some si) = true -> truthy (Some ei) = true ->
        _parse_dt E si = Some sdt -> _parse_dt E ei = Some edt ->
        dt_ge E sdt edt = true ->
        In ORDER_LABEL (_missing E s))
  /\ ~ In ORDER_LABEL REQUIRED
  /\ (forall k, In k (_missing E s) -> In k REQUIRED \/ k = ORDER_LABEL).
Proof.
  split; [|split; [|split]].
  - intros k v s'. apply missing_fill.
  - intros si ei sdt edt Hs He Hts Hte Hps Hpe Hge.
    rewrite missing_split. apply in_or_app. right.
    unfold order_violation. rewrite Hs, He, Hts, Hte, Hps, Hpe, Hge.
    left. reflexivity.
  - cbn. intros [H|[H|[H|[H|[]]]]]; discriminate.
  - intros k Hk. apply missing_in_basic in Hk as [Hk|Hk]; [left|right; exact Hk].
    unfold basic_missing in Hk. apply filter_In in Hk. apply Hk.
Qed.

(** Filling in an end that lies before the start trades the label of
    absence for the ordering label. *)
Lemma C5_validator_monotone_witness :
  _missing Demo.E_set Demo.backwards = ["end_iso"]
  /\ length (_missing Demo.E_set
               (set_end_iso (Some "2025-08-18T09:00:00") Demo.backwards))
     <= length (_missing Demo.E_set Demo.backwards)
  /\ In ORDER_LABEL
        (_missing Demo.E_set
           (set_end_iso (Some "2025-08-18T09:00:00") Demo.backwards)).
Proof.
  split; [reflexivity|]. split.
  - apply (proj1 (C5_validator_monotone Demo.E_set Demo.backwards)
             "end_iso" "2025-08-18T09:00:00");
      [simpl; auto | reflexivity | reflexivity | reflexivity].
  - apply (proj1 (proj2 (C5_validator_monotone Demo.E_set
                           (set_end_iso (Some "2025-08-18T09:00:00")
                              Demo.backwards)))
             "2025-08-18T10:00:00" "2025-08-18T09:00:00"
             {| dt_local := 1755511200; dt_offset := None;
                dt_iso := "2025-08-18T10:00:00" |}
             {| dt_local := 1755507600; dt_offset := None;
                dt_iso := "2025-08-18T09:00:00" |});
      reflexivity.
Defined.

(** *** Time-zone hints *)

(** C6: Time-zone detection precedence. For every text: if a word-form
    hint occurs in it (in any case, anywhere), the zone of a word-form hint
    is returned, whatever abbreviations the text holds, namely that of the
    first hint, in the order of the table, that occurs. For every ASCII
    text (on which the word boundary and the case folding of the pattern
    are those of [Text]): if no word-form hint occurs, the last word of the
    text that is an abbreviation (in any case) determines the zone; and if
    there is no such word either, the result is [None]. *)
Theorem C6_timezone_precedence (text : string) :
  (word_form_present text ->
   exists w zone, In (w, zone) TZ_WORDS /\ contains w (lower text) = true /\
                  _detect_tz_tokens text = Some zone)
  /\ (forall pre w zone post,
        TZ_WORDS = (pre ++ (w, zone) :: post)%list ->
        contains w (lower text) = true ->
        (forall w' z', In (w', z') pre -> contains w' (lower text) = false) ->
        _detect_tz_tokens text = Some zone)
  /\ (is_ascii text = true ->
      ~ word_form_present text ->
      (forall tok, last_opt (filter is_tz_abbr (words text)) = Some tok ->
                   exists zone, assoc (upper tok) TZ_ABBR = Some zone /\
                                _detect_tz_tokens text = Some zone)
      /\ (filter is_tz_abbr (words text) = [] -> _detect_tz_tokens text = None)).
Proof.
  assert (Hfind : forall l pre w zone post,
             l = (pre ++ (w, zone) :: post)%list ->
             contains w (lower text) = true ->
             (forall w' z', In (w', z') pre -> contains w' (lower text) = false) ->
             find (fun wz : string * string => contains (fst wz) (lower text)) l
             = Some (w, zone)).
  { intros l pre. revert l. induction pre as [|[w0 z0] pre IH];
      intros l w zone post -> Hw Hpre; cbn.
    - rewrite Hw. reflexivity.
    - rewrite (Hpre w0 z0 (or_introl eq_refl)).
      apply (IH _ w zone post eq_refl Hw).
      intros w' z' Hin. apply (Hpre w' z'). right. exact Hin. }
  split; [|split].
  - intros (w & zone & Hin & Hc). unfold _detect_tz_tokens.
    destruct (find _ TZ_WORDS) as [[w' z']|] eqn:Hf.
    + apply find_some in Hf as [Hin' Hc']. exists w', z'. auto.
    + exfalso. apply (find_none _ _ Hf) in Hin. cbn in Hin. congruence.
  - intros pre w zone post Htab Hw Hpre. unfold _detect_tz_tokens.
    rewrite (Hfind _ pre w zone post Htab Hw Hpre). reflexivity.
  - intros _ Hno. unfold _detect_tz_tokens.
    destruct (find _ TZ_WORDS) as [[w' z']|] eqn:Hf.
    + exfalso. apply find_some in Hf as [Hin' Hc']. apply Hno. exists w', z'. auto.
    + rewrite findall_tz_words. split.
      * intros tok Hlast. rewrite Hlast.
        apply last_opt_in, filter_In in Hlast as [_ Hab]. unfold is_tz_abbr in Hab.
        destruct (assoc (upper tok) TZ_ABBR) as [zone|]; [|discriminate].
        exists zone. auto.
      * intros ->. reflexivity.
Qed.

(** A word form beside an abbreviation, two abbreviations, and none. *)
Lemma C6_timezone_precedence_witness :
  _detect_tz_tokens "3pm Eastern time, not PT" = Some "America/New_York"
  /\ filter is_tz_abbr (words "10am PT or 11 est") = ["PT"; "est"]
  /\ _detect_tz_tokens "10am PT or 11 est" = Some "America/New_York"
  /\ _detect_tz_tokens "tomorrow at ten" = None.
Proof.
  split; [|split; [reflexivity|split]].
  - apply (proj1 (proj2 (C6_timezone_precedence "3pm Eastern time, not PT"))
             (firstn 3 TZ_WORDS) "eastern" "America/New_York" []).
    + reflexivity.
    + reflexivity.
    + intros w' z' Hin. simpl in Hin.
      destruct Hin as [H|[H|[H|[]]]]; inversion H; reflexivity.
  - destruct (proj1 (proj2 (proj2 (C6_timezone_precedence "10am PT or 11 est"))
                       eq_refl
                       ltac:(intros (w & z & Hin & Hc); simpl in Hin;
                             destruct Hin as [H|[H|[H|[H|[]]]]];
                             inversion H; subst; vm_compute in Hc;
                             discriminate))
                "est" eq_refl) as (zone & Hz & Hd).
    rewrite Hd. vm_compute in Hz. symmetry. exact Hz.
  - apply (proj2 (proj2 (proj2 (C6_timezone_precedence "tomorrow at ten"))
                    eq_refl
                    ltac:(intros (w & z & Hin & Hc); simpl in Hin;
                          destruct Hin as [H|[H|[H|[H|[]]]]];
                          inversion H; subst; vm_compute in Hc;
                          discriminate))).
    reflexivity.
Defined.

(** *** Pre-extraction *)

(** C7: Heuristic-extraction idempotence. Running [_preextract_slots] on
    the state a first run produced (the message is unchanged) gives that
    state back: the attendees are the same list, and so gain nothing. In a
    run, the attendees already in the slots keep their places and every
    address appended differs, case-insensitively, from each of them; and a
    [link] slot that is set is left as it is. *)
Theorem C7_preextract_idempotent (st : AgentState) :
  _preextract_slots (_preextract_slots st) = _preextract_slots st
  /\ attendees (slots (_preextract_slots (_preextract_slots st)))
     = attendees (slots (_preextract_slots st))
  /\ (exists added,
         attendees (slots (_preextract_slots st))
         = (attendees (slots st) ++ added)%list
         /\ forall e, In e added ->
                      mem (lower e) (map lower (attendees (slots st))) = false)
  /\ (truthy (link (slots st)) = true ->
      link (slots (_preextract_slots st)) = link (slots st)).
Proof.
  split; [apply preextract_idem|]. split; [rewrite preextract_idem; reflexivity|].
  split; [apply preextract_attendees | apply preextract_keeps_link].
Qed.

(** A message that repeats an attendee in another case and names a second
    link. *)
Lemma C7_preextract_idempotent_witness :
  attendees (slots (_preextract_slots Demo.linked))
  = ["bob@example.com"; "ada@example.com"]
  /\ _preextract_slots (_preextract_slots Demo.linked)
     = _preextract_slots Demo.linked
  /\ link (slots (_preextract_slots Demo.linked))
     = Some "https://meet.example/a".
Proof.
  split; [reflexivity|]. split.
  - exact (proj1 (C7_preextract_idempotent Demo.linked)).
  - exact (proj2 (proj2 (proj2 (C7_preextract_idempotent Demo.linked)))
             eq_refl).
Defined.

(** *** The fallback *)

Lemma basic_missing_nil s :
  basic_missing s = [] <->
  truthy (title s) = true /\ truthy (start_iso s) = true /\
  truthy (end_iso s) = true /\ truthy (timezone s) = true.
Proof.
  unfold basic_missing. cbn -[truthy].
  destruct (truthy (title s)), (truthy (start_iso s)), (truthy (end_iso s)),
    (truthy (timezone s)); cbn; split; intros H;
    try discriminate; try reflexivity; try (repeat split; reflexivity);
    destruct H as (H1 & H2 & H3 & H4); discriminate.
Qed.

(** The rendering of [CONFIRM_TEMPLATE] on slots that pass the validator:
    the four required slots stand in it as they are. *)
Lemma confirm_summary_rendered E s :
  _missing E s = [] ->
  exists t si ei z,
    title s = Some t /\ start_iso s = Some si /\ end_iso s = Some ei
    /\ timezone s = Some z
    /\ _build_confirm_summary E s
       = "Create " ++ ldquo ++ t ++ rdquo ++ " from " ++ si ++ " to " ++ ei
         ++ " (" ++ z ++ ") with attendees ["
         ++ or_str (Some (join ", " (attendees s))) "none" ++ "]"
         ++ (if truthy (location s)
             then ", location: " ++ or_str (location s) "" else "")
         ++ (if truthy (link s) then ", link: " ++ or_str (link s) "" else "")
         ++ "? (yes/no)".
Proof.
  intros Hm. rewrite missing_split in Hm. apply app_eq_nil in Hm as [Hb _].
  apply basic_missing_nil in Hb as (H1 & H2 & H3 & H4).
  unfold _build_confirm_summary. cbv zeta.
  destruct (title s) as [t|]; [|discriminate].
  destruct (start_iso s) as [si|]; [|discriminate].
  destruct (end_iso s) as [ei|]; [|discriminate].
  destruct (timezone s) as [z|]; [|discriminate].
  exists t, si, ei, z. repeat (split; [reflexivity|]).
  cbn [truthy] in H1, H2, H3, H4. apply negb_true_iff in H1, H2, H3, H4.
  cbn [or_str]. rewrite H1, H2, H3, H4.
  destruct (attendees s) as [|a l]; reflexivity.
Qed.

Lemma cheap_title_shape text : synthesized_title text (_cheap_title text).
Proof.
  unfold _cheap_title, synthesized_title.
  destruct (search TITLE_RE text) as [x|] eqn:Hs; [right|left; reflexivity].
  destruct (title_match_shape text x Hs)
    as (pre & ws & c & cs & post & Ht & Hws & Hsp & Hc & Hcs & Hal & Hi).
  exists pre, ws, c, cs, post. rewrite Hi. repeat split; assumption.
Qed.

(** C8: Fallback on an unparsable completion. When the completion
    collaborator returns a text that does not decode (a brace is missing, or
    what lies between the first [{] and the last [}] is not JSON), on a
    message within ASCII (where the classes of the patterns are those of
    [Text]), the policy step returns normally, having made no call but the
    completion. The slots are those after pre-extraction and
    normalisation, except that an unset title is replaced by the
    synthesized one: [Meeting], or [Meeting with] a capitalized name that
    follows [with] in the message. If the validator then reports gaps the
    reply is [Missing: ...] with those gaps; otherwise the updates set
    [awaiting_confirm] and make the rendered summary both
    [confirm_summary] and [reply], and the summary is the template filled
    with the title, the times, the timezone, the attendees (or [none]) and,
    when set, the location and the link of the slots. *)
Theorem C8_fallback_on_unparsable E w raw :
  is_ascii (or_str (new_user_message (sess w)) "") = true ->
  llm_complete E (build_prompt E (prepared E (sess w))) = inr raw ->
  decode E (strip raw) = None ->
  let st := prepared E (sess w) in
  let text := or_str (new_user_message st) "Meeting" in
  exists w' u,
    decide_and_act E w = (w', Ok u)
    /\ log w' = (log w ++ [EvLlm (build_prompt E st)])%list
    /\ sess w' = set_slots (slots (sess w')) st
    /\ (truthy (title (slots st)) = true -> slots (sess w') = slots st)
    /\ (truthy (title (slots st)) = false ->
        slots (sess w') = set_title (Some (_cheap_title text)) (slots st)
        /\ synthesized_title text (_cheap_title text))
    /\ (_missing E (slots (sess w')) <> [] ->
        u = upd_reply ("Missing: "
                       ++ join ", " (_missing E (slots (sess w'))) ++ "."))
    /\ (_missing E (slots (sess w')) = [] ->
        let summary := _build_confirm_summary E (slots (sess w')) in
        u = upd_confirm summary
        /\ awaiting_confirm (state_update u (sess w')) = true
        /\ confirm_summary (state_update u (sess w')) = summary
        /\ reply (state_update u (sess w')) = summary
        /\ exists t si ei z,
             title (slots (sess w')) = Some t
             /\ start_iso (slots (sess w')) = Some si
             /\ end_iso (slots (sess w')) = Some ei
             /\ timezone (slots (sess w')) = Some z
             /\ summary
                = "Create " ++ ldquo ++ t ++ rdquo ++ " from " ++ si ++ " to "
                  ++ ei ++ " (" ++ z ++ ") with attendees ["
                  ++ or_str (Some (join ", " (attendees (slots (sess w')))))
                            "none" ++ "]"
                  ++ (if truthy (location (slots (sess w')))
                      then ", location: "
                           ++ or_str (location (slots (sess w'))) ""
                      else "")
                  ++ (if truthy (link (slots (sess w')))
                      then ", link: " ++ or_str (link (slots (sess w'))) ""
                      else "")
                  ++ "? (yes/no)").
Proof.
  intros _ Hraw Hdec. cbv zeta.
  rewrite (decide_and_act_run E w raw Hraw), Hdec, fallback_run.
  cbn [sess log]. eexists. eexists. split; [reflexivity|].
  cbn [sess log slots set_slots]. split; [reflexivity|].
  split; [reflexivity|].
  unfold with_title.
  destruct (truthy (title (slots (prepared E (sess w))))) eqn:Ht.
  - split; [reflexivity|]. split; [discriminate|].
    destruct (_missing E (slots (prepared E (sess w)))) as [|k l] eqn:Hm.
    + split; [intros H; contradiction|]. intros _.
      do 4 (split; [reflexivity|]).
      exact (confirm_summary_rendered E _ Hm).
    + split; [reflexivity|discriminate].
  - split; [discriminate|]. split.
    { intros _. split; [reflexivity|apply cheap_title_shape]. }
    match goal with |- context [_missing E ?s] =>
      destruct (_missing E s) as [|k l] eqn:Hm end.
    + split; [intros H; contradiction|]. intros _.
      do 4 (split; [reflexivity|]).
      exact (confirm_summary_rendered E _ Hm).
    + split; [reflexivity|discriminate].
Qed.

(** A prose answer of the collaborator: on a first message naming a
    person, and on a session whose slots are complete. *)
Lemma C8_fallback_on_unparsable_witness :
  decode Demo.E_prose (strip Demo.raw_prose) = None
  /\ (exists w',
         decide_and_act Demo.E_prose
           (Demo.start (received "meet with Ada tomorrow" Demo.fresh))
         = (w', Ok (upd_reply "Missing: start_iso, end_iso."))
         /\ title (slots (sess w')) = Some "Meeting with Ada")
  /\ (exists w' u,
         decide_and_act Demo.E_prose
           (Demo.start (received "ok" (set_confirm false "" Demo.confirming)))
         = (w', Ok u)
         /\ u_awaiting_confirm u = Some true
         /\ u_confirm_summary u = u_reply u
         /\ u_reply u
            = Some ("Create " ++ ldquo ++ "Sync" ++ rdquo
                    ++ " from 2025-08-18T10:00:00 to 2025-08-18T10:30:00"
                    ++ " (America/Chicago) with attendees [bob@example.com]"
                    ++ "? (yes/no)")).
Proof.
  split; [reflexivity|]. split.
  - destruct (C8_fallback_on_unparsable Demo.E_prose
                (Demo.start (received "meet with Ada tomorrow" Demo.fresh))
                Demo.raw_prose eq_refl eq_refl eq_refl)
      as (w' & u & Hrun & _ & _ & _ & Ht & Hgaps & _).
    destruct (Ht eq_refl) as [Hs _].
    exists w'. rewrite Hrun. split.
    + rewrite (Hgaps ltac:(rewrite Hs; vm_compute; discriminate)).
      rewrite Hs. reflexivity.
    + rewrite Hs. reflexivity.
  - destruct (C8_fallback_on_unparsable Demo.E_prose
                (Demo.start (received "ok"
                               (set_confirm false "" Demo.confirming)))
                Demo.raw_prose eq_refl eq_refl eq_refl)
      as (w' & u & Hrun & _ & _ & Ht & _ & _ & Hfull).
    pose proof (Ht eq_refl) as Hs.
    destruct (Hfull ltac:(rewrite Hs; vm_compute; reflexivity)) as (Hu & _).
    exists w', u. split; [exact Hrun|]. rewrite Hu, Hs.
    split; [reflexivity|]. split; [reflexivity|].
    vm_compute. reflexivity.
Defined.

(** *** The calendar client *)

Lemma get_busy_run E auth s e tz w :
  get_busy E (CalendarClient auth) s e tz w
  = ({| sess := sess w; log := (log w ++ [EvCalGetBusy s e tz])%list |},
     Raise (Exn "AttributeError" NO_SERVICE)).
Proof. reflexivity. Qed.

(** C9: [CalendarClient.get_busy] reads [self.service]. The constructor
    assigns only [_auth], and the class defines [_svc] but nothing named
    [service]; so for every input, in every state, [get_busy] raises
    [AttributeError] before any request reaches the free/busy service.
    Consequently [tool_check_availability], when start, end and time zone
    are all present, always returns through its exception branch: the
    reply is [Availability check failed: ] followed by the message of the
    exception, and the updates carry no busy list. *)
Theorem C9_get_busy_raises E :
  (forall auth,
      map fst (attrs (CalendarClient auth)) = ["_auth"]
      /\ In "_svc" (methods (CalendarClient auth))
      /\ ~ In "service" (methods (CalendarClient auth))
      /\ getattr (CalendarClient auth) "service"
         = Raise (Exn "AttributeError" NO_SERVICE))
  /\ (forall auth s e tz w,
        get_busy E (CalendarClient auth) s e tz w
        = ({| sess := sess w; log := (log w ++ [EvCalGetBusy s e tz])%list |},
           Raise (Exn "AttributeError" NO_SERVICE)))
  /\ (forall w,
        truthy (start_iso (slots (sess w))) = true ->
        truthy (end_iso (slots (sess w))) = true ->
        truthy (timezone (slots (sess w))) = true ->
        exists u,
          tool_check_availability E w
          = ({| sess := sess w;
                log := (log w
                        ++ [EvCalGetBusy
                              (or_str (start_iso (slots (sess w))) "")
                              (or_str (end_iso (slots (sess w))) "")
                              (or_str (timezone (slots (sess w))) "")])%list |},
             Ok u)
          /\ u = upd_reply ("Availability check failed: " ++ NO_SERVICE)
          /\ prefix_l (chars "Availability check failed:")
                      (chars (or_else (u_reply u) "")) = true
          /\ u_busy u = None).
Proof.
  split; [|split].
  - intros auth. repeat split.
    + simpl. auto.
    + simpl. intros [H|[H|[H|[H|[]]]]]; discriminate.
  - intros. apply get_busy_run.
  - intros w Hs He Htz. unfold tool_check_availability, bind, get.
    rewrite Hs, He, Htz. cbn [andb negb]. unfold try_catch.
    unfold cal, bind. rewrite get_busy_run. cbn [ret exn_msg].
    eexists. split; [reflexivity|]. repeat split.
Qed.

(** The availability tool on a session with both times and a zone. *)
Lemma C9_get_busy_raises_witness :
  truthy (start_iso (slots Demo.confirming)) = true
  /\ exists w',
       tool_check_availability Demo.E_set (Demo.start Demo.confirming)
       = (w', Ok (upd_reply
                    "Availability check failed: 'CalendarClient' object has no attribute 'service'"))
       /\ log w' = [EvCalGetBusy "2025-08-18T10:00:00" "2025-08-18T10:30:00"
                      "America/Chicago"].
Proof.
  split; [reflexivity|].
  destruct (proj2 (proj2 (C9_get_busy_raises Demo.E_set))
              (Demo.start Demo.confirming) eq_refl eq_refl eq_refl)
    as (u & Hrun & Hu & _).
  eexists. split.
  - rewrite Hrun, Hu. reflexivity.
  - reflexivity.
Defined.

(** *** Failed creations *)




(* ===================================================================== *)
(** * Further properties of the code                                     *)
(* ===================================================================== *)

Import SpecMore.

(* ===================================================================== *)
(** ** Further properties of the helpers                                 *)
(* ===================================================================== *)

(** *** The validator's verdict *)

Lemma basic_missing_NoDup s : NoDup (basic_missing s).
Proof.
  unfold basic_missing. apply NoDup_filter.
  repeat constructor; cbn; intuition discriminate.
Qed.

(** X1: [_missing] returns the empty list exactly when the four required
    slots are non-empty and the times are not out of order; and in every
    case no label occurs twice in the list. *)
Theorem missing_nil_iff E s :
  (_missing E s = [] <->
   truthy (title s) = true /\ truthy (start_iso s) = true /\
   truthy (end_iso s) = true /\ truthy (timezone s) = true /\
   order_violation E s = false)
  /\ NoDup (_missing E s).
Proof.
  rewrite missing_split. split.
  - split.
    + intros H. apply app_eq_nil in H as [Hb Ho].
      apply basic_missing_nil in Hb as (H1 & H2 & H3 & H4).
      repeat split; try assumption.
      destruct (order_violation E s); [discriminate|reflexivity].
    + intros (H1 & H2 & H3 & H4 & Ho). rewrite Ho, app_nil_r.
      apply basic_missing_nil. auto.
  - destruct (order_violation E s); [|rewrite app_nil_r; apply basic_missing_NoDup].
    apply NoDup_app; [apply basic_missing_NoDup | repeat constructor; auto |].
    intros k Hk [Heq|[]]. subst k.
    unfold basic_missing in Hk. apply filter_In in Hk as [Hk _].
    cbn in Hk. intuition discriminate.
Qed.

(** *** Normalisation *)

Lemma normalize_one_idem E v :
  (forall s d, dtparse_parse E s = Some d ->
               exists d', dtparse_parse E (dt_iso d) = Some d' /\
                          dt_iso d' = dt_iso d) ->
  normalize_one E (normalize_one E v) = normalize_one E v.
Proof.
  intros Hstable. destruct v as [s|]; [|reflexivity]. cbn.
  destruct (String.eqb s "") eqn:Hs; cbn; [rewrite Hs; reflexivity|].
  destruct (dtparse_parse E s) as [d|] eqn:Hp; cbn.
  - destruct (String.eqb (dt_iso d) ""); [reflexivity|].
    destruct (Hstable s d Hp) as (d' & -> & ->). reflexivity.
  - rewrite Hs, Hp. reflexivity.
Qed.

(** X2: [_normalize_times] is idempotent whenever the rendering of a parsed
    time parses again to a time with the same rendering: a second pass,
    as [agent_chat] and then [decide_and_act] make in one turn, changes
    nothing. It only ever writes [start_iso], [end_iso] and [timezone], and
    it leaves a non-empty [timezone] alone. *)
Theorem normalize_times_idempotent E s :
  (forall t d, dtparse_parse E t = Some d ->
               exists d', dtparse_parse E (dt_iso d) = Some d' /\
                          dt_iso d' = dt_iso d) ->
  _normalize_times E (_normalize_times E s) = _normalize_times E s
  /\ (truthy (timezone s) = true ->
      timezone (_normalize_times E s) = timezone s)
  /\ title (_normalize_times E s) = title s
  /\ attendees (_normalize_times E s) = attendees s
  /\ location (_normalize_times E s) = location s
  /\ description (_normalize_times E s) = description s
  /\ recurrence (_normalize_times E s) = recurrence s
  /\ link (_normalize_times E s) = link s.
Proof.
  intros Hstable. unfold _normalize_times. cbv zeta.
  cbn [set_start_iso set_end_iso timezone start_iso end_iso].
  destruct (truthy (timezone s)) eqn:Ht.
  - cbn [set_start_iso set_end_iso set_timezone timezone start_iso end_iso
           title attendees location description recurrence link].
    rewrite Ht, !normalize_one_idem by exact Hstable.
    repeat split.
  - cbn [set_start_iso set_end_iso set_timezone timezone start_iso end_iso
           title attendees location description recurrence link].
    rewrite !normalize_one_idem by exact Hstable.
    split; [|repeat split; discriminate].
    destruct (truthy (Some (DEFAULT_TZ E))); reflexivity.
Qed.

(** A time given in the rendering of [isoformat] is a fixed point. *)
Lemma normalize_times_idempotent_witness :
  _normalize_times Demo.E_set
    (_normalize_times Demo.E_set
       (set_start_iso (Some "2025-08-18T10:00:00") Demo.backwards))
  = _normalize_times Demo.E_set
      (set_start_iso (Some "2025-08-18T10:00:00") Demo.backwards).
Proof.
  apply (normalize_times_idempotent Demo.E_set).
  intros t d H. cbn in H. unfold Demo.parse in H.
  destruct (String.eqb t "2025-08-18T09:00:00") eqn:H1;
    [apply String.eqb_eq in H1; subst t; inversion H; subst d;
     eexists; split; reflexivity|].
  destruct (String.eqb t "2025-08-18T10:00:00") eqn:H2;
    [apply String.eqb_eq in H2; subst t; inversion H; subst d;
     eexists; split; reflexivity|].
  destruct (String.eqb t "2025-08-18T10:30:00") eqn:H3;
    [apply String.eqb_eq in H3; subst t; inversion H; subst d;
     eexists; split; reflexivity|].
  discriminate.
Defined.

(** *** The zones pre-extraction can write *)

Lemma assoc_value_in {A} k (l : list (string * A)) v :
  assoc k l = Some v -> In v (map snd l).
Proof.
  induction l as [|[k' v'] tl IH]; cbn; [discriminate|].
  destruct (String.eqb k k'); [intros [= ->]; auto | auto].
Qed.

Lemma detect_tz_range text z :
  _detect_tz_tokens text = Some z -> In z IANA_ZONES.
Proof.
  unfold _detect_tz_tokens.
  destruct (find _ TZ_WORDS) as [[w zone]|] eqn:Hf.
  - intros [= <-]. apply find_some in Hf as [Hin _]. cbn in Hin.
    destruct Hin as [H|[H|[H|[H|[]]]]]; inversion H; cbn; auto.
  - destruct (last_opt _) as [tok|]; [|discriminate].
    intros H. apply assoc_value_in in H. cbn in H. cbn.
    intuition auto.
Qed.

(** X3: [_detect_tz_tokens] returns nothing or one of four IANA zones, and
    so the pass of [_preextract_slots] over a message either leaves the
    [timezone] slot as it is or sets it to one of these four zones,
    whatever the message says. *)
Theorem preextract_timezone_range st :
  (forall text z, _detect_tz_tokens text = Some z -> In z IANA_ZONES)
  /\ (timezone (slots (_preextract_slots st)) = timezone (slots st)
      \/ exists z, In z IANA_ZONES /\
                   timezone (slots (_preextract_slots st)) = Some z).
Proof.
  split; [exact detect_tz_range|].
  unfold _preextract_slots.
  destruct (String.eqb (or_str (new_user_message st) "") ""); [left; reflexivity|].
  cbn [slots set_slots]. unfold extract_tz.
  assert (Hsame : forall text s,
             timezone (extract_link text (extract_emails text s)) = timezone s).
  { intros text s. unfold extract_link, extract_emails.
    destruct (findall EMAIL_RE text);
      match goal with |- context [truthy (link ?x)] => destruct (truthy (link x)) end;
      try reflexivity; destruct (search URL_RE text); reflexivity. }
  destruct (_detect_tz_tokens _) as [z|] eqn:Hz; [|left; apply Hsame].
  destruct (truthy (Some z)); [|left; apply Hsame].
  right. exists z. split; [eapply detect_tz_range; exact Hz|reflexivity].
Qed.

Lemma preextract_timezone_range_witness :
  _detect_tz_tokens "3pm Eastern time, not PT" = Some "America/New_York"
  /\ In "America/New_York" IANA_ZONES.
Proof.
  split; [reflexivity|].
  exact (proj1 (preextract_timezone_range Demo.linked)
           "3pm Eastern time, not PT" "America/New_York" eq_refl).
Defined.

(** *** The description sent with the event *)

Lemma chars_app a b : chars (a ++ b) = (chars a ++ chars b)%list.
Proof. induction a as [|c a IH]; cbn; [reflexivity|rewrite IH; reflexivity]. Qed.

Lemma str_app a b : str (a ++ b)%list = str a ++ str b.
Proof. induction a as [|c a IH]; cbn; [reflexivity|rewrite IH; reflexivity]. Qed.

Lemma lower_app a b : lower (a ++ b) = lower a ++ lower b.
Proof.
  unfold lower, lower_l. rewrite chars_app, map_app, str_app. reflexivity.
Qed.

Lemma prefix_l_app p s : prefix_l p (p ++ s)%list = true.
Proof.
  induction p as [|c p IH]; cbn; [reflexivity|].
  rewrite Ascii.eqb_refl, IH. reflexivity.
Qed.

Lemma contains_l_app p a b : contains_l p (a ++ p ++ b)%list = true.
Proof.
  induction a as [|c a IH]; cbn [app].
  - destruct (p ++ b)%list eqn:Hpb; cbn; rewrite <- ?Hpb, prefix_l_app;
      reflexivity.
  - cbn [contains_l]. rewrite IH. apply orb_true_r.
Qed.

Lemma contains_app p a b : contains p (a ++ p ++ b) = true.
Proof. unfold contains. rewrite !chars_app. apply contains_l_app. Qed.

(** X4: The description [tool_create_event] sends always begins with the
    description slot, so the user's text is never dropped, and when no
    link is set it is the description slot itself. When a link is set and
    the description is within ASCII (where [lower] is that of Python), the
    description sent mentions the link label (in any case): if the slot
    already does, it is sent as it is; if not, it is followed by
    [Link: ] and the link, on a line of its own after a non-empty slot
    and with nothing before it after an empty one. *)
Theorem link_description_keeps_and_mentions s :
  (exists suffix,
      link_description s = or_str (description s) "" ++ suffix)
  /\ (truthy (link s) = false ->
      link_description s = or_str (description s) "")
  /\ (is_ascii (or_str (description s) "") = true ->
      truthy (link s) = true ->
      contains (lower EVENT_LINK_LABEL) (lower (link_description s)) = true
      /\ (contains (lower EVENT_LINK_LABEL)
                   (lower (or_str (description s) "")) = true ->
          link_description s = or_str (description s) "")
      /\ (contains (lower EVENT_LINK_LABEL)
                   (lower (or_str (description s) "")) = false ->
          (or_str (description s) "" = "" ->
           link_description s = "Link: " ++ or_str (link s) "")
          /\ (or_str (description s) "" <> "" ->
              link_description s
              = or_str (description s) "" ++ nl ++ "Link: "
                ++ or_str (link s) ""))).
Proof.
  assert (Happ0 : forall a, a ++ "" = a).
  { induction a as [|c a IH]; cbn; [reflexivity|rewrite IH; reflexivity]. }
  assert (Hassoc : forall a b c, (a ++ b) ++ c = a ++ b ++ c).
  { induction a as [|x a IH]; intros; cbn; [reflexivity|rewrite IH; reflexivity]. }
  assert (Hlink : truthy (link s) = true -> fmt (link s) = or_str (link s) "").
  { destruct (link s) as [l|]; cbn; [|discriminate].
    destruct (String.eqb l ""); [discriminate|reflexivity]. }
  unfold link_description. cbv zeta.
  destruct (truthy (link s)) eqn:Hl; cbn [andb].
  - destruct (contains (lower EVENT_LINK_LABEL) (lower (or_str (description s) "")))
      eqn:Hc; cbn [negb].
    + split; [exists ""; rewrite Happ0; reflexivity|].
      split; [discriminate|]. intros _ _.
      split; [exact Hc|]. split; [reflexivity|discriminate].
    + rewrite (Hlink eq_refl).
      destruct (String.eqb (or_str (description s) "") "") eqn:He.
      * apply String.eqb_eq in He. rewrite He. cbn [append].
        split; [eexists; reflexivity|]. split; [discriminate|]. intros _ _.
        split.
        { rewrite lower_app.
          apply (contains_app (lower EVENT_LINK_LABEL) "" _). }
        split; [discriminate|]. intros _.
        split; [reflexivity|]. intros Hne. exfalso. apply Hne. reflexivity.
      * apply String.eqb_neq in He.
        split; [eexists; rewrite Hassoc; reflexivity|].
        split; [discriminate|]. intros _ _. split.
        { rewrite Hassoc, !lower_app.
          rewrite <- (Hassoc (lower (or_str (description s) "")) (lower nl)).
          apply contains_app. }
        split; [discriminate|]. intros _.
        split; [intros H0; contradiction|]. intros _.
        rewrite Hassoc. reflexivity.
  - split; [exists ""; rewrite Happ0; reflexivity|].
    split; [reflexivity|]. intros _ H. discriminate H.
Qed.

(** A session with a link: without a description, and with one. *)
Lemma link_description_keeps_and_mentions_witness :
  link_description (slots Demo.linked) = "Link: https://meet.example/a"
  /\ link_description (set_description (Some "Agenda attached")
                         (slots Demo.linked))
     = "Agenda attached" ++ nl ++ "Link: https://meet.example/a".
Proof.
  split.
  - exact (proj1 (proj2 (proj2 (proj2 (proj2
             (link_description_keeps_and_mentions (slots Demo.linked)))
             eq_refl eq_refl)) eq_refl) eq_refl).
  - refine (proj2 (proj2 (proj2 (proj2 (proj2
              (link_description_keeps_and_mentions
                 (set_description (Some "Agenda attached")
                    (slots Demo.linked))))
              eq_refl eq_refl)) eq_refl) _).
    discriminate.
Defined.

(** *** What is handed to [json.loads] *)

Lemma index_l_nth c l i :
  index_l c l = Some i -> nth_error l i = Some c.
Proof.
  revert i. induction l as [|x tl IH]; intros i; cbn; [discriminate|].
  destruct (Ascii.eqb x c) eqn:Hx.
  - intros [= <-]. apply Ascii.eqb_eq in Hx. subst. reflexivity.
  - destruct (index_l c tl) as [k|]; [|discriminate].
    intros [= <-]. cbn. apply IH. reflexivity.
Qed.

Lemma rindex_l_nth c l j :
  rindex_l c l = Some j -> nth_error l j = Some c.
Proof.
  revert j. induction l as [|x tl IH]; intros j; cbn; [discriminate|].
  destruct (rindex_l c tl) as [k|].
  - intros [= <-]. cbn. apply IH. reflexivity.
  - destruct (Ascii.eqb x c) eqn:Hx; [|discriminate].
    intros [= <-]. apply Ascii.eqb_eq in Hx. subst. reflexivity.
Qed.

Lemma firstn_S_nth {A} (l : list A) k b :
  nth_error l k = Some b -> firstn (S k) l = (firstn k l ++ [b])%list.
Proof.
  revert k. induction l as [|x tl IH]; intros [|k]; cbn; try discriminate.
  - intros [= ->]. reflexivity.
  - intros H. rewrite <- (IH k H). reflexivity.
Qed.

Lemma slice_between {A} (l : list A) i j a b :
  nth_error l i = Some a -> nth_error l j = Some b -> i < j ->
  exists mid, firstn (j + 1 - i) (skipn i l) = (a :: mid ++ [b])%list.
Proof.
  revert i j. induction l as [|x tl IH]; intros [|i] [|j]; cbn [nth_error skipn];
    try discriminate; try lia.
  - intros [= ->] Hb _. replace (S j + 1 - 0) with (S (S j)) by lia.
    rewrite (firstn_S_nth (a :: tl) (S j) b Hb). cbn.
    exists (firstn j tl). reflexivity.
  - intros Ha Hb Hlt. replace (S j + 1 - S i) with (j + 1 - i) by lia.
    apply IH; [exact Ha|exact Hb|lia].
Qed.

(** X5: The policy step hands [json.loads] a text only when the completion
    has both an opening and a closing brace, and that text is then the
    part of the completion from its first [{] to its last [}], so it starts
    with [{] and ends with [}], or it is empty when the last [}] comes
    before the first [{]. Without both braces nothing is decoded and the
    fallback is taken. *)
Theorem decode_brace_slice E raw :
  (index_l "{" (chars raw) = None \/ rindex_l "}" (chars raw) = None ->
   decode E raw = None)
  /\ (forall i j,
        index_l "{" (chars raw) = Some i ->
        rindex_l "}" (chars raw) = Some j ->
        decode E raw = json_loads E (str (slice (chars raw) i (j + 1)))
        /\ (j < i -> slice (chars raw) i (j + 1) = [])
        /\ (i < j ->
            exists pre mid post,
              chars raw = (pre ++ "{"%char :: mid ++ "}"%char :: post)%list
              /\ length pre = i
              /\ slice (chars raw) i (j + 1)
                 = ("{"%char :: mid ++ ["}"%char])%list)
        /\ i <> j).
Proof.
  split.
  - unfold decode. intros [H|H]; rewrite H; [reflexivity|].
    destruct (index_l _ _); reflexivity.
  - intros i j Hi Hj. unfold decode. rewrite Hi, Hj.
    split; [reflexivity|].
    pose proof (index_l_nth _ _ _ Hi) as Ni.
    pose proof (rindex_l_nth _ _ _ Hj) as Nj.
    split; [|split].
    + intros Hlt. unfold slice. replace (j + 1 - i) with 0 by lia. reflexivity.
    + intros Hlt. unfold slice.
      destruct (slice_between (chars raw) i j _ _ Ni Nj Hlt) as [mid Hmid].
      exists (firstn i (chars raw)), mid,
        (skipn (j + 1 - i) (skipn i (chars raw))).
      split; [|split; [|exact Hmid]].
      * rewrite <- (firstn_skipn i (chars raw)) at 1. f_equal.
        rewrite <- (firstn_skipn (j + 1 - i) (skipn i (chars raw))) at 1.
        rewrite Hmid. cbn. rewrite <- app_assoc. reflexivity.
      * apply firstn_length_le. apply Nat.lt_le_incl.
        apply nth_error_Some. rewrite Ni. discriminate.
    + intros Heq. subst j. rewrite Ni in Nj. discriminate.
Qed.

(** A completion with some prose around the object, and one without
    braces. *)
Lemma decode_brace_slice_witness :
  decode Demo.E_create ("Here: " ++ Demo.raw_create ++ " ok")
  = Some Demo.decision_create
  /\ decode Demo.E_create Demo.raw_prose = None.
Proof.
  split.
  - destruct (proj2 (decode_brace_slice Demo.E_create
                       ("Here: " ++ Demo.raw_create ++ " ok"))
                6 (6 + String.length Demo.raw_create - 1)
                eq_refl eq_refl) as (H & _).
    rewrite H. reflexivity.
  - apply (proj1 (decode_brace_slice Demo.E_create Demo.raw_prose)).
    left. reflexivity.
Defined.

(** *** Slots are only ever filled *)

Ltac slot_cases k :=
  unfold slot_truthy in *;
  cbn [title start_iso end_iso timezone attendees location description
       recurrence link set_title set_start_iso set_end_iso set_timezone
       set_attendees set_location set_description set_recurrence set_link] in *;
  repeat match goal with
         | |- context [String.eqb k ?x] => destruct (String.eqb k x)
         end;
  auto.

Lemma set_str_slot_filled k v s s' k0 :
  set_str_slot k (Some v) s = Some s' -> String.eqb v "" = false ->
  slot_truthy k0 s = true -> slot_truthy k0 s' = true.
Proof.
  intros Hset Hv H. unfold set_str_slot in Hset.
  repeat match type of Hset with
         | (if ?b then _ else _) = _ => destruct b
         end; inversion Hset; subst s'; clear Hset;
    slot_cases k0; cbn; rewrite Hv; reflexivity.
Qed.

Lemma str_list_nonempty l atts :
  str_list l = Some atts -> l <> [] -> atts <> [].
Proof.
  destruct l as [|[| | |s| |] tl]; cbn; try discriminate; [congruence|].
  destruct (str_list tl); cbn; [|discriminate]. intros [= <-] _. discriminate.
Qed.

Lemma set_one_filled k v w k0 :
  slot_truthy k0 (slots (sess w)) = true ->
  slot_truthy k0 (slots (sess (fst (set_one k v w)))) = true.
Proof.
  intros H. unfold set_one.
  destruct (is_slot_key k && negb (json_blank v)) eqn:Hg; [|exact H].
  apply andb_prop in Hg as [_ Hb]. apply negb_true_iff in Hb.
  destruct (String.eqb k "attendees").
  - destruct v as [| | | |l|]; try exact H.
    destruct (str_list l) as [atts|] eqn:Hl; [|exact H].
    assert (Hne : atts <> []).
    { apply (str_list_nonempty l atts Hl). destruct l; [discriminate|discriminate]. }
    cbn [modify_slots modify fst sess slots set_slots].
    destruct atts as [|a atts]; [contradiction|].
    slot_cases k0.
  - destruct v as [| | |s| |]; try exact H.
    cbn in Hb. unfold bind, get.
    destruct (set_str_slot k (Some s) (slots (sess w))) as [s'|] eqn:Hset;
      [|exact H].
    cbn [modify_slots modify fst sess slots set_slots].
    exact (set_str_slot_filled k s _ s' k0 Hset Hb H).
Qed.

Lemma set_all_filled kvs : forall w k0,
  slot_truthy k0 (slots (sess w)) = true ->
  slot_truthy k0 (slots (sess (fst (set_all kvs w)))) = true.
Proof.
  induction kvs as [|[k v] tl IH]; intros w k0 H; cbn [set_all]; [exact H|].
  unfold bind. pose proof (set_one_filled k v w k0 H) as H1.
  destruct (set_one k v w) as [w1 [[]|e]]; cbn [fst] in *; [|exact H1].
  apply IH, H1.
Qed.

Lemma preextract_filled st k0 :
  slot_truthy k0 (slots st) = true ->
  slot_truthy k0 (slots (_preextract_slots st)) = true.
Proof.
  intros H. unfold _preextract_slots.
  destruct (String.eqb (or_str (new_user_message st) "") ""); [exact H|].
  cbn [slots set_slots]. set (text := or_str (new_user_message st) "").
  assert (H1 : slot_truthy k0 (extract_emails text (slots st)) = true).
  { unfold extract_emails. destruct (findall EMAIL_RE text) as [|e l]; [exact H|].
    unfold add_emails.
    destruct (attendees (slots st)) as [|a atts] eqn:Ha.
    - slot_cases k0; rewrite ?Ha in *; try discriminate; auto.
    - slot_cases k0. }
  assert (H2 : slot_truthy k0 (extract_link text (extract_emails text (slots st)))
               = true).
  { unfold extract_link.
    destruct (truthy (link (extract_emails text (slots st)))) eqn:Hl; [exact H1|].
    destruct (search URL_RE text); [|exact H1].
    revert H1 Hl. generalize (extract_emails text (slots st)). intros s H1 Hl.
    slot_cases k0. congruence. }
  unfold extract_tz. destruct (_detect_tz_tokens text) as [z|]; [|exact H2].
  destruct (truthy (Some z)) eqn:Hz; [|exact H2].
  revert H2. generalize (extract_link text (extract_emails text (slots st))).
  intros s H2. slot_cases k0.
Qed.

Lemma set_one_typed k v w :
  typed_arg (k, v) = true ->
  exists s', set_one k v w = ({| sess := set_slots s' (sess w); log := log w |},
                              Ok tt).
Proof.
  assert (Heta : forall st, set_slots (slots st) st = st)
    by (intros []; reflexivity).
  unfold typed_arg, set_one. intros H.
  destruct (is_slot_key k && negb (json_blank v)) eqn:Hg.
  - apply andb_prop in Hg as [Hk Hb]. rewrite Hk in H.
    apply negb_true_iff in Hb. rewrite Hb in H. cbn in H.
    destruct (String.eqb k "attendees").
    + destruct v as [| | | |l|]; try discriminate.
      destruct (str_list l) as [atts|]; [|discriminate].
      eexists. reflexivity.
    + destruct v as [| | |s| |]; try discriminate.
      unfold bind, get. destruct (set_str_slot k (Some s) (slots (sess w))).
      * eexists. reflexivity.
      * exists (slots (sess w)). rewrite Heta. destruct w; reflexivity.
  - exists (slots (sess w)). rewrite Heta. destruct w; reflexivity.
Qed.

Lemma set_all_typed kvs : forall w,
  forallb typed_arg kvs = true ->
  exists s', set_all kvs w = ({| sess := set_slots s' (sess w); log := log w |},
                              Ok tt).
Proof.
  induction kvs as [|[k v] tl IH]; intros w H; cbn [set_all].
  - exists (slots (sess w)). destruct w as [[] lg]; reflexivity.
  - cbn [forallb] in H. apply andb_prop in H as [H1 H2].
    destruct (set_one_typed k v w H1) as [s1 Hs1].
    unfold bind. rewrite Hs1.
    destruct (IH {| sess := set_slots s1 (sess w); log := log w |} H2)
      as [s2 Hs2].
    rewrite Hs2. exists s2. reflexivity.
Qed.

(** X6: A [set] action whose arguments have the types of their slots runs
    to the end without an exception and without a call, touching only the
    slots; and slots are only ever filled, never blanked, by it and by
    pre-extraction: a slot that holds a non-empty value before holds a
    non-empty value after. *)
Theorem slots_only_filled :
  (forall kvs w,
      forallb typed_arg kvs = true ->
      exists s',
        set_all kvs w = ({| sess := set_slots s' (sess w); log := log w |},
                         Ok tt)
        /\ forall k, slot_truthy k (slots (sess w)) = true ->
                     slot_truthy k s' = true)
  /\ (forall st k,
        slot_truthy k (slots st) = true ->
        slot_truthy k (slots (_preextract_slots st)) = true).
Proof.
  split; [|exact preextract_filled].
  intros kvs w H. destruct (set_all_typed kvs w H) as [s' Hs'].
  exists s'. split; [exact Hs'|].
  intros k Hk. pose proof (set_all_filled kvs w k Hk) as Hf.
  rewrite Hs' in Hf. exact Hf.
Qed.

(** A [set] action with an empty title, a null link and a new location. *)
Lemma slots_only_filled_witness :
  slot_truthy "title" (slots Demo.confirming) = true
  /\ exists w',
       set_all [("title", JStr ""); ("link", JNull);
                ("location", JStr "Room 2")]
               (Demo.start Demo.confirming)
       = (w', Ok tt)
       /\ slot_truthy "title" (slots (sess w')) = true.
Proof.
  split; [vm_compute; reflexivity|].
  destruct (proj1 slots_only_filled
              [("title", JStr ""); ("link", JNull);
               ("location", JStr "Room 2")]
              (Demo.start Demo.confirming) eq_refl) as (s' & Hrun & Hfill).
  eexists. split; [exact Hrun|]. cbn [sess slots set_slots].
  apply Hfill. vm_compute. reflexivity.
Defined.

(* ===================================================================== *)
(** ** Further properties of the tools                                   *)
(* ===================================================================== *)

(** *** When the email tool calls the Email collaborator *)

(** X7: [tool_send_email] never changes the session itself. It makes no
    call and returns only a reply when [yes] is false, when no event was
    created, or when there are no attendees. Otherwise it calls
    [GmailClient.send] exactly once, with the attendees as recipients; the
    client sends at most one request, and none when [GMAIL_FROM] is not
    configured, in which case the result stored is the failure
    [GMAIL_FROM not set]. Whatever the result says, it is returned as
    [email_result] with the reply [Event created and email sent.]. *)
Theorem tool_send_email_guard E yes w :
  sess (fst (tool_send_email E yes w)) = sess w
  /\ (yes = false \/ created_event (sess w) = None
      \/ attendees (slots (sess w)) = [] ->
      log (fst (tool_send_email E yes w)) = log w
      /\ exists msg, snd (tool_send_email E yes w) = Ok (upd_reply msg))
  /\ (forall ev,
        yes = true -> created_event (sess w) = Some ev ->
        attendees (slots (sess w)) <> [] ->
        exists subject body rest,
          log (fst (tool_send_email E yes w))
          = (log w ++ EvGmSend (attendees (slots (sess w))) subject body
                   :: rest)%list
          /\ (rest = [] \/ exists raw, rest = [EvGmailSend raw])
          /\ (gmail_from (settings E) = "" ->
              rest = []
              /\ snd (tool_send_email E yes w)
                 = Ok (upd_email (ResErr "GMAIL_FROM not set")))
          /\ forall u, snd (tool_send_email E yes w) = Ok u ->
                       exists res, u = upd_email res).
Proof.
  unfold tool_send_email.
  destruct yes; cbn [negb].
  2:{ cbn. split; [reflexivity|]. split.
      - intros _. split; [reflexivity|]. eexists. reflexivity.
      - intros ev Hy. discriminate. }
  unfold bind, get.
  destruct (created_event (sess w)) as [ev|] eqn:Hce.
  2:{ cbn. split; [reflexivity|]. split.
      - intros _. split; [reflexivity|]. eexists. reflexivity.
      - intros ev _ H. discriminate. }
  destruct (attendees (slots (sess w))) as [|a l] eqn:Hatt.
  { cbn. split; [reflexivity|]. split.
    - intros _. split; [reflexivity|]. eexists. reflexivity.
    - intros ev' _ _ H. contradiction. }
  unfold send, bind, emit, ret. cbn [sess log].
  destruct (String.eqb (gmail_from (settings E)) "") eqn:Hfrom.
  - split; [reflexivity|]. split.
    + intros [H|[H|H]]; discriminate.
    + intros ev' _ _ _. do 3 eexists. cbn [fst snd log].
      split; [reflexivity|]. split; [left; reflexivity|].
      split; [intros _; split; reflexivity|].
      intros u [= <-]. eexists. reflexivity.
  - assert (Hne : gmail_from (settings E) <> "")
      by (apply String.eqb_neq; exact Hfrom).
    match goal with |- context [gmail_send E ?raw] =>
      destruct (gmail_send E raw) as [i|m|ex] end; cbn [fst snd sess log].
    + split; [reflexivity|]. split; [intros [H|[H|H]]; discriminate|].
      intros ev' _ _ _. do 3 eexists. rewrite <- app_assoc. cbn [app].
      split; [reflexivity|]. split; [right; eexists; reflexivity|].
      split; [intros H; contradiction|].
      intros u [= <-]. eexists. reflexivity.
    + split; [reflexivity|]. split; [intros [H|[H|H]]; discriminate|].
      intros ev' _ _ _. do 3 eexists. rewrite <- app_assoc. cbn [app].
      split; [reflexivity|]. split; [right; eexists; reflexivity|].
      split; [intros H; contradiction|].
      intros u [= <-]. eexists. reflexivity.
    + split; [reflexivity|]. split; [intros [H|[H|H]]; discriminate|].
      intros ev' _ _ _. do 3 eexists. rewrite <- app_assoc. cbn [app].
      split; [reflexivity|]. split; [right; eexists; reflexivity|].
      split; [intros H; contradiction|].
      intros u H. discriminate.
Qed.

(** With the default settings [GMAIL_FROM] is empty: after the creation the
    tool calls the client, which sends no request. *)
Lemma tool_send_email_guard_witness :
  created_event Demo.created
  = Some (ResOk [("id", Some "evt1");
                 ("link", Some "https://calendar.example/evt1")])
  /\ snd (tool_send_email Demo.E_prose true (Demo.start Demo.created))
     = Ok (upd_email (ResErr "GMAIL_FROM not set"))
  /\ existsb (fun e => match e with EvGmailSend _ => true | _ => false end)
       (log (fst (tool_send_email Demo.E_prose true
                    (Demo.start Demo.created)))) = false.
Proof.
  split; [vm_compute; reflexivity|].
  destruct (proj2 (proj2 (tool_send_email_guard Demo.E_prose true
                            (Demo.start Demo.created)))
              (ResOk [("id", Some "evt1");
                      ("link", Some "https://calendar.example/evt1")])
              eq_refl ltac:(vm_compute; reflexivity)
              ltac:(vm_compute; discriminate))
    as (subject & body & rest & Hlog & _ & Hfrom & _).
  destruct (Hfrom eq_refl) as [Hrest Hres].
  split; [exact Hres|]. rewrite Hlog, Hrest. reflexivity.
Defined.

(** *** How the creation tool can end *)

Lemma truthy_some v :
  truthy v = true -> exists s, v = Some s /\ String.eqb s "" = false.
Proof.
  destruct v as [s|]; cbn; [|discriminate].
  intros H. exists s. split; [reflexivity|]. apply negb_true_iff. exact H.
Qed.

Lemma validate_emails_raise E l e :
  validate_emails E l = Raise e ->
  e = ValidationError "attendees" /\
  exists a, In a l /\ email_str E a = None.
Proof.
  induction l as [|a tl IH]; cbn; [discriminate|].
  destruct (email_str E a) as [a'|] eqn:Ha.
  - destruct (validate_emails E tl) as [tl'|e'] eqn:Htl; [discriminate|].
    intros [= <-]. destruct (IH eq_refl) as (He & b & Hin & Hb).
    split; [exact He|]. exists b. auto.
  - intros [= <-]. split; [reflexivity|]. exists a. auto.
Qed.

Lemma make_EventIn_complete E s desc :
  _missing E s = [] ->
  (exists ev, make_EventIn E s desc = Ok ev)
  \/ (make_EventIn E s desc = Raise (ValidationError "attendees")
      /\ exists a, In a (attendees s) /\ email_str E a = None).
Proof.
  intros Hm. rewrite missing_split in Hm. apply app_eq_nil in Hm as [Hb _].
  apply basic_missing_nil in Hb as (H1 & H2 & H3 & H4).
  apply truthy_some in H1 as (t & Ht & Hte).
  apply truthy_some in H2 as (si & Hsi & _).
  apply truthy_some in H3 as (ei & Hei & _).
  apply truthy_some in H4 as (tz & Htz & _).
  unfold make_EventIn. rewrite Ht, Hsi, Hei, Htz, Hte.
  destruct (validate_emails E (attendees s)) as [atts|e] eqn:Hv.
  - left. eexists. reflexivity.
  - right. apply validate_emails_raise in Hv as (-> & Ha). auto.
Qed.

(** X8: How [tool_create_event] can end. If the validator reports gaps, the
    tool returns the reply [Still missing: ...] and makes no call on the
    Calendar collaborator. If the slots pass the validator, exactly one of
    three things happens: the calendar client returns a result and the
    tool returns it as [created_event]; or an attendee is not a valid
    address, and the tool raises the validation error of [EventIn] before
    any call; or the calendar request raises something other than an
    [HttpError], which passes through the client and the tool. *)
Theorem tool_create_event_outcomes E w :
  (_missing E (slots (sess w)) <> [] ->
   tool_create_event E w
   = ({| sess := sess w;
         log := (log w ++ [EvToolCreateEvent (awaiting_confirm (sess w))])%list |},
      Ok (upd_reply ("Still missing: "
                     ++ join ", " (_missing E (slots (sess w))) ++ "."))))
  /\ (_missing E (slots (sess w)) = [] ->
      (exists ev r,
          make_EventIn E (slots (sess w)) (link_description (slots (sess w)))
          = Ok ev
          /\ cal_result (calendar_insert E (cal_body ev)) = Some r
          /\ tool_create_event E w
             = ({| sess := keep_link r (sess w);
                   log := (log w ++ [EvToolCreateEvent (awaiting_confirm (sess w));
                                     EvCalCreateEvent ev;
                                     EvCalInsert (cal_body ev)])%list |},
                Ok (upd_created r)))
      \/ ((exists a, In a (attendees (slots (sess w)))
                     /\ email_str E a = None)
          /\ tool_create_event E w
             = ({| sess := sess w;
                   log := (log w ++ [EvToolCreateEvent
                                       (awaiting_confirm (sess w))])%list |},
                Raise (ValidationError "attendees")))
      \/ (exists ev ex,
             make_EventIn E (slots (sess w))
               (link_description (slots (sess w))) = Ok ev
             /\ calendar_insert E (cal_body ev) = ApiOther ex
             /\ tool_create_event E w
                = ({| sess := sess w;
                      log := (log w ++ [EvToolCreateEvent
                                          (awaiting_confirm (sess w));
                                        EvCalCreateEvent ev;
                                        EvCalInsert (cal_body ev)])%list |},
                   Raise ex))).
Proof.
  split; [apply tool_create_event_missing|].
  intros Hm.
  destruct (make_EventIn_complete E (slots (sess w))
              (link_description (slots (sess w))) Hm)
    as [[ev Hev]|[Hev Ha]].
  - destruct (calendar_insert E (cal_body ev)) as [[i l]|msg|ex] eqn:Hins.
    + left. exists ev, (ResOk [("id", i); ("link", l)]).
      split; [exact Hev|].
      split; [rewrite Hins; reflexivity|].
      apply tool_create_event_run; [exact Hm|exact Hev|].
      rewrite Hins. reflexivity.
    + left. exists ev, (ResErr msg).
      split; [exact Hev|].
      split; [rewrite Hins; reflexivity|].
      apply tool_create_event_run; [exact Hm|exact Hev|].
      rewrite Hins. reflexivity.
    + right. right. exists ev, ex. split; [exact Hev|]. split; [exact Hins|].
      unfold tool_create_event.
      rewrite bind_get, bind_emit. cbv zeta. cbn [sess log]. rewrite Hm.
      unfold bind at 1. cbn [lift]. rewrite Hev.
      unfold create_event, bind, emit. cbn [sess log]. cbv zeta.
      rewrite Hins. unfold raise. rewrite <- !app_assoc. reflexivity.
  - right. left. split; [exact Ha|].
    unfold tool_create_event.
    rewrite bind_get, bind_emit. cbv zeta. cbn [sess log]. rewrite Hm.
    unfold bind at 1. cbn [lift]. rewrite Hev. reflexivity.
Qed.

(** The session awaiting confirmation passes the validator; when the
    calendar request is refused the tool returns the failed result. *)
Lemma tool_create_event_outcomes_witness :
  _missing Demo.E_403 (slots Demo.confirming) = []
  /\ snd (tool_create_event Demo.E_403 (Demo.start Demo.confirming))
     = Ok (upd_created (ResErr "HttpError 403")).
Proof.
  split; [vm_compute; reflexivity|].
  destruct (proj2 (tool_create_event_outcomes Demo.E_403
                     (Demo.start Demo.confirming))
              ltac:(vm_compute; reflexivity))
    as [(ev & r & _ & Hr & Hrun)|[[(a & _ & Ha) _]|(ev & ex & _ & Hins & _)]].
  - rewrite Hrun. cbn [snd]. cbn in Hr. inversion Hr. reflexivity.
  - discriminate Ha.
  - discriminate Hins.
Defined.

(* ===================================================================== *)
(** ** What pre-extraction takes from the message                        *)
(* ===================================================================== *)

Section ExtractionFacts.
Local Open Scope list_scope.

Lemma match_here_split r pv s off x :
  match_here r pv s off = Some x ->
  exists st', Match r (MState pv s None) st' /\
              s = m_text x ++ m_rest x /\
              m_group x = grp st' /\ m_rest x = rest st'.
Proof.
  intros H. apply match_here_sound in H as (st' & HM & Ht & Hg & Hr).
  exists st'. split; [exact HM|]. split; [|auto].
  destruct (Match_consumes _ _ _ HM) as [w Hw]. cbn [rest] in Hw.
  rewrite Ht, Hr. rewrite Hw at 2 3. rewrite Hw at 1.
  rewrite length_app, Nat.add_sub, firstn_exact. reflexivity.
Qed.

(** Every item [findall] lists is the item of a match somewhere in the
    text. *)
Lemma findall_from_sound r : forall fuel pv s it,
  In it (findall_from fuel r pv s) ->
  exists pre pv' s' off x,
    s = pre ++ s' /\ match_here r pv' s' off = Some x /\ item x = it.
Proof.
  induction fuel as [|f IH]; intros pv s it Hin; cbn [findall_from] in Hin;
    [contradiction|].
  destruct (search_from r pv s 0) as [x|] eqn:Hs; [|contradiction].
  apply search_from_sound in Hs as (pre & pv' & s' & Hsplit & Hm).
  destruct Hin as [<-|Hin]; [exists pre, pv', s', (0 + length pre), x; auto|].
  destruct (match_here_split _ _ _ _ _ Hm) as (st' & _ & Hs' & _ & _).
  assert (Hrec : forall pv2 tl pre2,
             m_rest x = pre2 ++ tl -> In it (findall_from f r pv2 tl) ->
             exists pre0 pv0 s0 off0 x0,
               s = pre0 ++ s0 /\ match_here r pv0 s0 off0 = Some x0 /\
               item x0 = it).
  { intros pv2 tl pre2 Hrest Hin2.
    destruct (IH pv2 tl it Hin2) as (p0 & pv0 & s0 & off0 & x0 & Htl & Hm0 & Hi0).
    exists (pre ++ m_text x ++ pre2 ++ p0), pv0, s0, off0, x0.
    split; [|auto]. rewrite Hsplit, Hs', Hrest, Htl.
    rewrite <- !app_assoc. reflexivity. }
  destruct (m_text x) as [|c0 t0] eqn:Htx.
  - destruct (m_rest x) as [|c tl] eqn:Hrx; [contradiction|].
    apply (Hrec (Some c) tl [c]); [reflexivity|exact Hin].
  - apply (Hrec (m_prev x) (m_rest x) []); [reflexivity|exact Hin].
Qed.

Lemma email_match_shape pv s off x :
  match_here EMAIL_RE pv s off = Some x ->
  exists local dom tld,
    item x = local ++ "@"%char :: dom ++ "."%char :: tld /\
    s = item x ++ m_rest x /\
    local <> [] /\ dom <> [] /\ tld <> [] /\
    forallb is_email_char local = true /\
    forallb is_email_char dom = true /\
    forallb is_word tld = true.
Proof.
  intros H. apply match_here_split in H as (st' & HM & Hs & Hg & Hr).
  unfold EMAIL_RE in HM. cbn [cats] in HM.
  apply Match_Cat_inv in HM as (s1 & M1 & HM).
  apply (Match_plus_chr is_email_char) in M1 as (c1 & w1 & Hc1 & Hw1 & R1 & G1).
  apply Match_Cat_inv in HM as (s2 & M2 & HM).
  apply Match_Chr_inv in M2 as (a & Ha & R2 & _ & G2).
  apply Ascii.eqb_eq in Ha. subst a.
  apply Match_Cat_inv in HM as (s3 & M3 & HM).
  apply (Match_plus_chr is_email_char) in M3 as (c3 & w3 & Hc3 & Hw3 & R3 & G3).
  apply Match_Cat_inv in HM as (s4 & M4 & M5).
  apply Match_Chr_inv in M4 as (d & Hd & R4 & _ & G4).
  apply Ascii.eqb_eq in Hd. subst d.
  apply (Match_plus_chr is_word) in M5 as (c5 & w5 & Hc5 & Hw5 & R5 & G5).
  cbn [rest grp] in *.
  assert (Hgrp : m_group x = None) by congruence.
  assert (Hitem : item x = m_text x) by (unfold item; rewrite Hgrp; reflexivity).
  assert (Hall : s = ((c1 :: w1) ++ "@"%char :: (c3 :: w3) ++ "."%char :: (c5 :: w5))
                     ++ m_rest x).
  { rewrite R1, R2, R3, R4, R5, Hr. cbn. rewrite <- !app_assoc. cbn.
    rewrite <- !app_assoc. reflexivity. }
  assert (Htext : m_text x
                  = (c1 :: w1) ++ "@"%char :: (c3 :: w3) ++ "."%char :: (c5 :: w5)).
  { rewrite Hall in Hs. apply app_inv_tail in Hs. symmetry. exact Hs. }
  exists (c1 :: w1), (c3 :: w3), (c5 :: w5).
  rewrite Hitem. split; [exact Htext|]. split; [exact Hs|].
  repeat split; try discriminate; cbn [forallb];
    rewrite ?Hc1, ?Hc3, ?Hc5; assumption.
Qed.

Lemma url_match_shape pv s off x :
  match_here URL_RE pv s off = Some x ->
  exists scheme body,
    (scheme = "http://"%string \/ scheme = "https://"%string) /\
    m_text x = chars scheme ++ body /\
    s = m_text x ++ m_rest x /\
    body <> [] /\
    forallb (fun c => negb (is_space c)) body = true.
Proof.
  intros H. apply match_here_split in H as (st' & HM & Hs & Hg & Hr).
  unfold URL_RE in HM. cbn [cats] in HM.
  apply Match_Cat_inv in HM as (s1 & M1 & HM).
  apply Match_lit in M1 as [R1 _].
  apply Match_Cat_inv in HM as (s2 & M2 & HM).
  apply Match_Cat_inv in HM as (s3 & M3 & M4).
  apply Match_lit in M3 as [R3 _].
  apply (Match_plus_chr (fun c => negb (is_space c))) in M4
    as (c & w & Hc & Hw & R4 & _).
  cbn [rest] in *.
  apply Match_Alt_inv in M2 as [M2|M2].
  - apply Match_Chr_inv in M2 as (a & Ha & R2 & _).
    apply Ascii.eqb_eq in Ha. subst a.
    exists "https://"%string, (c :: w).
    assert (Hall : s = (chars "https://" ++ c :: w) ++ m_rest x).
    { rewrite R1, R2, R3, R4, Hr. cbn. rewrite <- ?app_assoc. reflexivity. }
    split; [right; reflexivity|].
    split; [rewrite Hall in Hs; apply app_inv_tail in Hs; symmetry; exact Hs|].
    split; [exact Hs|]. split; [discriminate|].
    cbn [forallb]. rewrite Hc. exact Hw.
  - apply Match_Eps_inv in M2. subst s2.
    exists "http://"%string, (c :: w).
    assert (Hall : s = (chars "http://" ++ c :: w) ++ m_rest x).
    { rewrite R1, R3, R4, Hr. cbn. rewrite <- ?app_assoc. reflexivity. }
    split; [left; reflexivity|].
    split; [rewrite Hall in Hs; apply app_inv_tail in Hs; symmetry; exact Hs|].
    split; [exact Hs|]. split; [discriminate|].
    cbn [forallb]. rewrite Hc. exact Hw.
Qed.

End ExtractionFacts.

Lemma findall_email_shape text e :
  In e (findall EMAIL_RE text) -> email_shape text e.
Proof.
  unfold findall. intros Hin. apply in_map_iff in Hin as (it & <- & Hin).
  apply findall_from_sound in Hin as (pre & pv' & s' & off & x & Hs & Hm & Hi).
  apply email_match_shape in Hm
    as (local & dom & tld & Hit & Hs' & H1 & H2 & H3 & H4 & H5 & H6).
  exists pre, (m_rest x), local, dom, tld.
  rewrite chars_str, <- Hi. rewrite Hs, Hs'.
  repeat split; assumption.
Qed.

Lemma search_url_shape text x :
  search URL_RE text = Some x -> url_shape text (str (m_text x)).
Proof.
  unfold search. intros H.
  apply search_from_sound in H as (pre & pv' & s' & Hs & Hm).
  apply url_match_shape in Hm as (scheme & body & Hsch & Ht & Hs' & Hb & Hall).
  exists pre, (m_rest x), scheme, body.
  rewrite chars_str, Hs. rewrite Hs' at 1.
  repeat split; assumption.
Qed.

(** X9: What pre-extraction adds comes from the message. For a message
    within ASCII (where the classes of the two patterns are those of
    [Text]): every attendee after [_preextract_slots] was an attendee
    before or occurs in the message and reads [local@domain.tld] (runs of
    letters, digits, underscores, dots and hyphens around the [@], a dot,
    and a run of letters, digits and underscores); and the [link] slot is
    unchanged, or it was not set and is now a part of the message that
    reads [http://] or [https://] followed by characters that are not
    white space. *)
Theorem preextract_takes_from_message st :
  let text := or_str (new_user_message st) "" in
  is_ascii text = true ->
  (forall e,
      In e (attendees (slots (_preextract_slots st))) ->
      In e (attendees (slots st)) \/ email_shape text e)
  /\ (link (slots (_preextract_slots st)) = link (slots st)
      \/ (truthy (link (slots st)) = false
          /\ exists u, link (slots (_preextract_slots st)) = Some u
                       /\ url_shape text u)).
Proof.
  cbv zeta. intros _. unfold _preextract_slots.
  destruct (String.eqb (or_str (new_user_message st) "") "");
    [split; [auto|left; reflexivity]|].
  cbn [slots set_slots]. set (text := or_str (new_user_message st) "").
  rewrite attendees_extract_tz, attendees_extract_link, link_extract_tz.
  split.
  - intros e. unfold extract_emails.
    destruct (findall EMAIL_RE text) as [|e0 l] eqn:Hf; [auto|].
    cbn [attendees set_attendees]. unfold add_emails.
    intros Hin. apply in_app_or in Hin as [Hin|Hin]; [left; exact Hin|].
    right. apply filter_In in Hin as [Hin _].
    apply findall_email_shape. rewrite Hf. exact Hin.
  - unfold extract_link. rewrite link_extract_emails.
    destruct (truthy (link (slots st))) eqn:Hl;
      [left; apply link_extract_emails|].
    destruct (search URL_RE text) as [x|] eqn:Hs;
      [|left; apply link_extract_emails].
    right. split; [reflexivity|].
    exists (str (m_text x)). split; [reflexivity|].
    apply search_url_shape, Hs.
Qed.

(** The message of the demonstration names an address the session does not
    hold yet. *)
Lemma preextract_takes_from_message_witness :
  email_shape
    "add Bob@Example.com and ada@example.com, see https://meet.example/b"
    "ada@example.com".
Proof.
  destruct (proj1 (preextract_takes_from_message Demo.linked eq_refl)
              "ada@example.com"
              ltac:(vm_compute; right; left; reflexivity))
    as [Hin|Hs]; [|exact Hs].
  exfalso. cbn in Hin. destruct Hin as [H|[]]. discriminate H.
Defined.

(* ===================================================================== *)
(** ** The session store                                                 *)
(* ===================================================================== *)

Section StoreFacts.
Import Sessions.
Local Open Scope list_scope.

Lemma assoc_dict_set_same {V} k (v : V) d : assoc k (dict_set k v d) = Some v.
Proof.
  induction d as [|[k' v'] tl IH]; cbn.
  - rewrite String.eqb_refl. reflexivity.
  - destruct (String.eqb k k') eqn:Hk; cbn.
    + rewrite String.eqb_refl. reflexivity.
    + rewrite Hk. exact IH.
Qed.

Lemma assoc_dict_set_other {V} k k0 (v : V) d :
  k0 <> k -> assoc k0 (dict_set k v d) = assoc k0 d.
Proof.
  intros Hne. apply String.eqb_neq in Hne.
  induction d as [|[k' v'] tl IH]; cbn.
  - rewrite Hne. reflexivity.
  - destruct (String.eqb k k') eqn:Hk; cbn.
    + apply String.eqb_eq in Hk. subst k'. rewrite Hne. reflexivity.
    + rewrite IH. reflexivity.
Qed.

Lemma keys_dict_set {V W} k (v : V) (v' : W) d d' :
  map fst d = map fst d' ->
  map fst (dict_set k v d) = map fst (dict_set k v' d').
Proof.
  revert d'. induction d as [|[k1 v1] tl IH]; intros [|[k2 v2] tl'] H;
    cbn in H; try discriminate; [reflexivity|].
  inversion H; subst k2. cbn. destruct (String.eqb k k1); cbn.
  - f_equal. assumption.
  - f_equal. apply IH. assumption.
Qed.

Lemma keys_dict_set_present {V} k (v : V) d :
  In k (map fst d) -> map fst (dict_set k v d) = map fst d.
Proof.
  induction d as [|[k' v'] tl IH]; cbn; [contradiction|].
  destruct (String.eqb k k') eqn:Hk; cbn.
  - apply String.eqb_eq in Hk. subst. reflexivity.
  - intros [H|H]; [subst; rewrite String.eqb_refl in Hk; discriminate|].
    rewrite IH by exact H. reflexivity.
Qed.

Lemma keys_dict_set_in {V} k k0 (v : V) d :
  In k0 (map fst (dict_set k v d)) <-> k0 = k \/ In k0 (map fst d).
Proof.
  induction d as [|[k' v'] tl IH]; cbn.
  - intuition.
  - destruct (String.eqb k k') eqn:Hk; cbn.
    + apply String.eqb_eq in Hk. subst. intuition.
    + rewrite IH. intuition.
Qed.

Lemma NoDup_dict_set {V} k (v : V) d :
  NoDup (map fst d) -> NoDup (map fst (dict_set k v d)).
Proof.
  induction d as [|[k' v'] tl IH]; cbn; intros H.
  - repeat constructor. auto.
  - inversion H as [|? ? Hn Hd]; subst.
    destruct (String.eqb k k') eqn:Hk; cbn.
    + apply String.eqb_eq in Hk. subst. constructor; assumption.
    + constructor; [|apply IH; exact Hd].
      rewrite keys_dict_set_in. intros [Heq|Hin]; [|contradiction].
      subst. rewrite String.eqb_refl in Hk. discriminate.
Qed.

Lemma assoc_in_keys {V} k (d : dict V) :
  assoc k d <> None <-> In k (map fst d).
Proof.
  induction d as [|[k' v'] tl IH]; cbn; [intuition|].
  destruct (String.eqb k k') eqn:Hk.
  - apply String.eqb_eq in Hk. subst. split; [auto|discriminate].
  - rewrite IH. apply String.eqb_neq in Hk. intuition congruence.
Qed.

Lemma keys_filter {V W} (p : string -> bool) (d : dict V) (d' : dict W) :
  map fst d = map fst d' ->
  map fst (filter (fun kv => p (fst kv)) d)
  = map fst (filter (fun kv => p (fst kv)) d').
Proof.
  revert d'. induction d as [|[k1 v1] tl IH]; intros [|[k2 v2] tl'] H;
    cbn in H; try discriminate; [reflexivity|].
  inversion H; subst k2. cbn. destruct (p k1); cbn; [f_equal|]; auto.
Qed.

Lemma keys_filter_eq {V} (p : string -> bool) (d : dict V) :
  map fst (filter (fun kv => p (fst kv)) d) = filter p (map fst d).
Proof.
  induction d as [|[k v] tl IH]; cbn; [reflexivity|].
  destruct (p k); cbn; rewrite IH; reflexivity.
Qed.

Lemma assoc_filter {V} (p : string -> bool) k (d : dict V) :
  assoc k (filter (fun kv => p (fst kv)) d) = if p k then assoc k d else None.
Proof.
  induction d as [|[k' v'] tl IH]; cbn; [destruct (p k); reflexivity|].
  destruct (p k') eqn:Hp'; cbn.
  - destruct (String.eqb k k') eqn:Hk.
    + apply String.eqb_eq in Hk. subst. rewrite Hp'. reflexivity.
    + exact IH.
  - destruct (String.eqb k k') eqn:Hk; [|exact IH].
    apply String.eqb_eq in Hk. subst. rewrite Hp'.
    rewrite IH, Hp'. reflexivity.
Qed.

Lemma assoc_dict_pop {V} k k0 (d : dict V) :
  assoc k0 (dict_pop k d) = if String.eqb k k0 then None else assoc k0 d.
Proof.
  unfold dict_pop.
  rewrite (assoc_filter (fun x => negb (String.eqb k x)) k0 d).
  destruct (String.eqb k k0); reflexivity.
Qed.

Variable time : Type.
Variable idle : time -> time -> bool.

Lemma filter_all {A} (f : A -> bool) l :
  (forall x, f x = true) -> filter f l = l.
Proof.
  intros H. induction l as [|x tl IH]; cbn; [reflexivity|].
  rewrite H, IH. reflexivity.
Qed.

Lemma filter_filter {A} (f g : A -> bool) l :
  filter f (filter g l) = filter (fun x => g x && f x) l.
Proof.
  induction l as [|x tl IH]; cbn; [reflexivity|].
  destruct (g x); cbn; [destruct (f x); rewrite IH; reflexivity|exact IH].
Qed.

Lemma reap_fold now : forall items (srv : Server time),
  SESSIONS (fold_left (reap_one idle now) items srv)
  = filter (fun kv => negb (dropped idle now items (fst kv))) (SESSIONS srv)
  /\ TOUCHED (fold_left (reap_one idle now) items srv)
     = filter (fun kv => negb (dropped idle now items (fst kv))) (TOUCHED srv)
  /\ calls (fold_left (reap_one idle now) items srv) = calls srv.
Proof.
  induction items as [|[k ts] tl IH]; intros srv; cbn [fold_left].
  - cbn. rewrite !filter_all by reflexivity. auto.
  - destruct (IH (reap_one idle now srv (k, ts))) as (Hs & Ht & Hc).
    rewrite Hs, Ht, Hc. unfold reap_one. cbn [fst snd dropped existsb].
    destruct (idle now ts); cbn [SESSIONS TOUCHED calls].
    + unfold dict_pop. rewrite !filter_filter.
      repeat split; apply filter_ext; intros [k' v']; cbn;
        rewrite String.eqb_sym; rewrite andb_true_r, negb_orb; reflexivity.
    + repeat split; apply filter_ext; intros [k' v']; cbn;
        rewrite andb_false_r; reflexivity.
Qed.

Lemma dropped_assoc now (d : dict time) k :
  NoDup (map fst d) ->
  dropped idle now d k
  = match assoc k d with Some ts => idle now ts | None => false end.
Proof.
  induction d as [|[k' ts] tl IH]; intros Hnd; cbn; [reflexivity|].
  inversion Hnd as [|? ? Hn Hd]; subst.
  rewrite (String.eqb_sym k' k).
  destruct (String.eqb k k') eqn:Hk; cbn.
  - apply String.eqb_eq in Hk. subst k'.
    destruct (idle now ts); [reflexivity|]. cbn.
    unfold dropped in IH. rewrite (IH Hd).
    destruct (assoc k tl) eqn:Ha; [|reflexivity].
    exfalso. apply Hn. apply assoc_in_keys. rewrite Ha. discriminate.
  - apply IH, Hd.
Qed.

Lemma store_ok_touched_NoDup (srv : Server time) :
  store_ok srv -> NoDup (map fst (TOUCHED srv)).
Proof. intros [Hk Hn]. rewrite <- Hk. exact Hn. Qed.

Lemma store_ok_filter (p : string -> bool) (srv : Server time) :
  store_ok srv ->
  store_ok {| SESSIONS := filter (fun kv => p (fst kv)) (SESSIONS srv);
              TOUCHED := filter (fun kv => p (fst kv)) (TOUCHED srv);
              calls := calls srv |}.
Proof.
  intros [Hk Hn]. split; cbn [SESSIONS TOUCHED].
  - apply keys_filter, Hk.
  - rewrite keys_filter_eq. apply NoDup_filter, Hn.
Qed.

Lemma store_ok_reap now (srv : Server time) : store_ok srv -> store_ok (_reap idle now srv).
Proof.
  intros H. unfold _reap.
  destruct (reap_fold now (TOUCHED srv) srv) as (Hs & Ht & Hc).
  pose proof (store_ok_filter
                (fun k => negb (dropped idle now (TOUCHED srv) k)) srv H) as [Hk Hn].
  cbn [SESSIONS TOUCHED] in Hk, Hn.
  split; [rewrite Hs, Ht; exact Hk | rewrite Hs; exact Hn].
Qed.

Lemma store_ok_set (srv : Server time) sid st now :
  store_ok srv ->
  store_ok {| SESSIONS := dict_set sid st (SESSIONS srv);
              TOUCHED := dict_set sid now (TOUCHED srv);
              calls := calls srv |}.
Proof.
  intros [Hk Hn]. split; cbn [SESSIONS TOUCHED].
  - apply keys_dict_set, Hk.
  - apply NoDup_dict_set, Hn.
Qed.

Lemma store_ok_get (srv : Server time) sid now :
  store_ok srv -> store_ok (fst (_get_session sid now srv)).
Proof.
  intros H. unfold _get_session.
  destruct (assoc sid (SESSIONS srv)) as [st|] eqn:Ha; cbn [fst]; [|exact H].
  destruct H as [Hk Hn]. split; cbn [SESSIONS TOUCHED]; [|exact Hn].
  rewrite keys_dict_set_present; [exact Hk|].
  rewrite <- Hk. apply assoc_in_keys. rewrite Ha. discriminate.
Qed.

Lemma store_ok_serve1 r (srv : Server time) :
  store_ok srv -> store_ok (serve1 idle r srv).
Proof.
  intros H. destruct r as [E now1 sid now2|E G now1 now2 sid message|sid];
    cbn [serve1].
  - unfold agent_start, _new_session. cbv zeta.
    match goal with |- context [assoc sid ?d] => destruct (assoc sid d) end;
      cbn [fst]; apply store_ok_set, store_ok_reap, H.
  - unfold agent_chat. cbv zeta.
    pose proof (store_ok_get (_reap idle now1 srv) sid now2
                  (store_ok_reap now1 srv H)) as Hg.
    unfold _get_session in *.
    destruct (assoc sid (SESSIONS (_reap idle now1 srv))) as [st|] eqn:Ha;
      cbn [fst] in *; [|exact Hg].
    destruct (Chat.agent_chat E G message _) as [w o]. cbn [fst].
    destruct Hg as [Hk Hn]. cbn [SESSIONS TOUCHED] in *.
    split; cbn [SESSIONS TOUCHED].
    + rewrite keys_dict_set_present; [exact Hk|].
      apply assoc_in_keys. rewrite Ha. discriminate.
    + apply NoDup_dict_set, Hn.
  - unfold agent_end. cbn [fst]. unfold dict_pop.
    apply (store_ok_filter (fun k => negb (String.eqb sid k)) srv H).
Qed.

Lemma store_ok_serve rs : forall (srv : Server time),
  store_ok srv -> store_ok (serve idle rs srv).
Proof.
  unfold serve. induction rs as [|r tl IH]; intros srv H; cbn [fold_left];
    [exact H|]. apply IH, store_ok_serve1, H.
Qed.

Lemma assoc_reap now (srv : Server time) sid :
  store_ok srv ->
  assoc sid (SESSIONS (_reap idle now srv))
  = match assoc sid (TOUCHED srv) with
    | Some ts => if idle now ts then None else assoc sid (SESSIONS srv)
    | None => assoc sid (SESSIONS srv)
    end
  /\ assoc sid (TOUCHED (_reap idle now srv))
     = match assoc sid (TOUCHED srv) with
       | Some ts => if idle now ts then None else Some ts
       | None => None
       end.
Proof.
  intros H. unfold _reap.
  destruct (reap_fold now (TOUCHED srv) srv) as (Hs & Ht & _).
  rewrite Hs, Ht.
  rewrite (assoc_filter (fun k => negb (dropped idle now (TOUCHED srv) k))),
          (assoc_filter (fun k => negb (dropped idle now (TOUCHED srv) k))).
  rewrite (dropped_assoc now _ sid (store_ok_touched_NoDup srv H)).
  destruct (assoc sid (TOUCHED srv)) as [ts|]; [|auto].
  destruct (idle now ts); auto.
Qed.

Lemma keys_assoc_none {V W} (d : dict V) (d' : dict W) k :
  map fst d = map fst d' -> (assoc k d = None <-> assoc k d' = None).
Proof.
  intros H.
  pose proof (assoc_in_keys k d) as H1. pose proof (assoc_in_keys k d') as H2.
  rewrite H in H1.
  destruct (assoc k d) as [v|], (assoc k d') as [v'|]; split; intros Hx;
    try reflexivity; try discriminate; exfalso.
  - assert (Hin : In k (map fst d')) by (apply H1; discriminate).
    apply (proj2 H2 Hin). reflexivity.
  - assert (Hin : In k (map fst d')) by (apply H2; discriminate).
    apply (proj2 H1 Hin). reflexivity.
Qed.

End StoreFacts.

(** X10: The two dictionaries of the store stay in step. After any
    sequence of start, chat and end requests on the empty store, whatever
    the clock and the identifiers drawn, [SESSIONS] and [TOUCHED] hold the
    same identifiers in the same order, none twice: a session is stored
    exactly when it has a time stamp. *)
Theorem store_stays_in_step (time : Type) (idle : time -> time -> bool)
                            (rs : list (Sessions.request time)) :
  let srv := Sessions.serve idle rs (Sessions.empty_server time) in
  map fst (Sessions.SESSIONS srv) = map fst (Sessions.TOUCHED srv)
  /\ NoDup (map fst (Sessions.SESSIONS srv))
  /\ forall sid, assoc sid (Sessions.SESSIONS srv) = None
                 <-> assoc sid (Sessions.TOUCHED srv) = None.
Proof.
  cbv zeta.
  assert (H : Sessions.store_ok
                (Sessions.serve idle rs (Sessions.empty_server time))).
  { apply store_ok_serve. split; cbn; [reflexivity|constructor]. }
  destruct H as [Hk Hn]. split; [exact Hk|]. split; [exact Hn|].
  intros sid. apply keys_assoc_none, Hk.
Qed.

(** X11: What [_reap] does to a store that is in step. A session is
    dropped, with its time stamp, exactly when the test [now - ts >
    TTL_SECS] holds of its time stamp; every other session is kept as it
    is, with its time stamp, and the sessions kept stay in their order. No
    call is made. *)
Theorem reap_drops_idle_sessions (time : Type) (idle : time -> time -> bool)
                                 (now : time) (srv : Sessions.Server time) :
  Sessions.store_ok srv ->
  let srv' := Sessions._reap idle now srv in
  (forall sid,
      assoc sid (Sessions.SESSIONS srv')
      = match assoc sid (Sessions.TOUCHED srv) with
        | Some ts => if idle now ts then None
                     else assoc sid (Sessions.SESSIONS srv)
        | None => None
        end
      /\ assoc sid (Sessions.TOUCHED srv')
         = match assoc sid (Sessions.TOUCHED srv) with
           | Some ts => if idle now ts then None else Some ts
           | None => None
           end)
  /\ map fst (Sessions.SESSIONS srv')
     = filter (fun k => negb (Sessions.dropped idle now
                                (Sessions.TOUCHED srv) k))
              (map fst (Sessions.SESSIONS srv))
  /\ Sessions.store_ok srv'
  /\ Sessions.calls srv' = Sessions.calls srv.
Proof.
  intros H. cbv zeta. split; [|split; [|split]].
  - intros sid. destruct (assoc_reap time idle now srv sid H) as [Hs Ht].
    split; [|exact Ht]. rewrite Hs.
    destruct (assoc sid (Sessions.TOUCHED srv)) eqn:Ha; [reflexivity|].
    apply (keys_assoc_none _ _ sid (proj1 H)). exact Ha.
  - unfold Sessions._reap.
    destruct (reap_fold time idle now (Sessions.TOUCHED srv) srv) as (Hs & _).
    rewrite Hs.
    apply (keys_filter_eq
             (fun k => negb (Sessions.dropped idle now (Sessions.TOUCHED srv) k))).
  - apply store_ok_reap, H.
  - unfold Sessions._reap.
    apply (reap_fold time idle now (Sessions.TOUCHED srv) srv).
Qed.

(** At 1000 s the session opened at 0 s is dropped, the one opened at
    600 s is kept. *)
Lemma reap_drops_idle_sessions_witness :
  Sessions.store_ok DemoStore.two
  /\ assoc "s1" (Sessions.SESSIONS (Sessions._reap DemoStore.idle 1000
                                      DemoStore.two)) = None
  /\ assoc "s2" (Sessions.TOUCHED (Sessions._reap DemoStore.idle 1000
                                     DemoStore.two)) = Some 600.
Proof.
  assert (Hok : Sessions.store_ok DemoStore.two).
  { split; [reflexivity|]. cbn. repeat constructor; cbn; intuition discriminate. }
  split; [exact Hok|].
  destruct (reap_drops_idle_sessions nat DemoStore.idle 1000 DemoStore.two Hok)
    as (H & _).
  split.
  - rewrite (proj1 (H "s1")). reflexivity.
  - rewrite (proj2 (H "s2")). reflexivity.
Defined.

(** X12: A chat request finds no session, and is answered with the 404
    exception without any call on a collaborator and without touching a
    session, in three cases: the identifier was never stored; the
    session's time stamp is past the TTL at the time of the request (the
    request itself reaps it before it looks it up); and the session was
    ended by the request before. *)
Theorem chat_without_session_404 (time : Type) (idle : time -> time -> bool)
    E G (now1 now2 : time) sid message (srv : Sessions.Server time) :
  (assoc sid (Sessions.SESSIONS srv) = None ->
   Sessions.agent_chat idle E G now1 now2 sid message srv
   = (Sessions._reap idle now1 srv, Raise Sessions.HTTP_404))
  /\ (forall ts,
        Sessions.store_ok srv ->
        assoc sid (Sessions.TOUCHED srv) = Some ts -> idle now1 ts = true ->
        Sessions.agent_chat idle E G now1 now2 sid message srv
        = (Sessions._reap idle now1 srv, Raise Sessions.HTTP_404))
  /\ Sessions.agent_chat idle E G now1 now2 sid message
       (fst (Sessions.agent_end sid srv))
     = (Sessions._reap idle now1 (fst (Sessions.agent_end sid srv)),
        Raise Sessions.HTTP_404)
  /\ Sessions.calls (Sessions._reap idle now1 srv) = Sessions.calls srv.
Proof.
  assert (Hnone : forall s : Sessions.Server time,
             assoc sid (Sessions.SESSIONS (Sessions._reap idle now1 s)) = None ->
             Sessions.agent_chat idle E G now1 now2 sid message s
             = (Sessions._reap idle now1 s, Raise Sessions.HTTP_404)).
  { intros s H. unfold Sessions.agent_chat, Sessions._get_session. cbv zeta.
    rewrite H. reflexivity. }
  split; [|split; [|split]].
  - intros Ha. apply Hnone. unfold Sessions._reap.
    destruct (reap_fold time idle now1 (Sessions.TOUCHED srv) srv) as (Hs & _).
    rewrite Hs.
    rewrite (assoc_filter
               (fun k => negb (Sessions.dropped idle now1
                                 (Sessions.TOUCHED srv) k))).
    rewrite Ha.
    match goal with |- (if ?b then _ else _) = _ => destruct b end; reflexivity.
  - intros ts Hok Ht Hidle. apply Hnone.
    rewrite (proj1 (assoc_reap time idle now1 srv sid Hok)), Ht, Hidle.
    reflexivity.
  - apply Hnone. unfold Sessions._reap.
    match goal with |- context [fold_left ?f ?items ?s] =>
      destruct (reap_fold time idle now1 items s) as (Hs & _) end.
    rewrite Hs.
    rewrite (assoc_filter
               (fun k => negb (Sessions.dropped idle now1
                                 (Sessions.TOUCHED
                                    (fst (Sessions.agent_end sid srv))) k))).
    cbn [Sessions.agent_end fst Sessions.SESSIONS].
    rewrite assoc_dict_pop, String.eqb_refl.
    match goal with |- (if ?b then _ else _) = _ => destruct b end; reflexivity.
  - unfold Sessions._reap.
    apply (reap_fold time idle now1 (Sessions.TOUCHED srv) srv).
Qed.

(** A request at 1000 s for the session opened at 0 s, and one for an
    identifier that was never given out. *)
Lemma chat_without_session_404_witness :
  snd (Sessions.agent_chat DemoStore.idle Demo.E_set NodeUpdates 1000 1000
         "s1" "hello" DemoStore.two) = Raise Sessions.HTTP_404
  /\ snd (Sessions.agent_chat DemoStore.idle Demo.E_set NodeUpdates 700 700
            "s3" "hello" DemoStore.two) = Raise Sessions.HTTP_404.
Proof.
  assert (Hok : Sessions.store_ok DemoStore.two).
  { split; [reflexivity|]. cbn. repeat constructor; cbn; intuition discriminate. }
  split.
  - rewrite (proj1 (proj2 (chat_without_session_404 nat DemoStore.idle
                             Demo.E_set NodeUpdates 1000 1000 "s1" "hello"
                             DemoStore.two)) 0 Hok eq_refl eq_refl).
    reflexivity.
  - rewrite (proj1 (chat_without_session_404 nat DemoStore.idle
                      Demo.E_set NodeUpdates 700 700 "s3" "hello"
                      DemoStore.two) eq_refl).
    reflexivity.
Defined.

(** X13: A chat request leaves every other session alone: for an
    identifier other than the one of the request, the stored session and
    its time stamp after the request are what the reaping at the start of
    the request left of them, whatever the turn did and however it
    ended. *)
Theorem chat_leaves_other_sessions (time : Type) (idle : time -> time -> bool)
    E G (now1 now2 : time) sid message (srv : Sessions.Server time) sid' :
  sid' <> sid ->
  let srv' := fst (Sessions.agent_chat idle E G now1 now2 sid message srv) in
  assoc sid' (Sessions.SESSIONS srv')
  = assoc sid' (Sessions.SESSIONS (Sessions._reap idle now1 srv))
  /\ assoc sid' (Sessions.TOUCHED srv')
     = assoc sid' (Sessions.TOUCHED (Sessions._reap idle now1 srv)).
Proof.
  intros Hne. cbv zeta. unfold Sessions.agent_chat, Sessions._get_session.
  cbv zeta.
  destruct (assoc sid (Sessions.SESSIONS (Sessions._reap idle now1 srv)))
    as [st|]; [|split; reflexivity].
  destruct (Chat.agent_chat E G message _) as [w o].
  cbn [fst Sessions.SESSIONS Sessions.TOUCHED].
  rewrite !assoc_dict_set_other by exact Hne. split; reflexivity.
Qed.

(** A turn on the second session leaves the first as it was opened. *)
Lemma chat_leaves_other_sessions_witness :
  assoc "s1"
    (Sessions.SESSIONS
       (fst (Sessions.agent_chat DemoStore.idle Demo.E_set NodeUpdates 700 700
               "s2" "schedule sync with bob@example.com" DemoStore.two)))
  = Some (Chat._new_session Demo.E_set).
Proof.
  rewrite (proj1 (chat_leaves_other_sessions nat DemoStore.idle Demo.E_set
                    NodeUpdates 700 700 "s2"
                    "schedule sync with bob@example.com" DemoStore.two "s1"
                    ltac:(discriminate))).
  reflexivity.
Defined.

(** X14: Opening a session and then using it. [agent_start] never raises:
    it stores a new session under the identifier drawn, stamped with the
    time of the request, and answers with that identifier and the
    greeting. A chat request for that identifier, made while the stamp is
    within the TTL, runs the turn on that new session and stores what the
    turn made of it, also when the turn raised; its answer is the answer
    of the turn. *)
Theorem start_then_chat (time : Type) (idle : time -> time -> bool)
    E (now1 : time) sid (now2 : time) (srv : Sessions.Server time)
    E' G (now3 now4 : time) message :
  Sessions.store_ok srv ->
  idle now3 now2 = false ->
  let started := Sessions.agent_start idle E now1 sid now2 srv in
  let turn := Chat.agent_chat E' G message
                {| sess := Chat._new_session E;
                   log := Sessions.calls srv |} in
  let chatted := Sessions.agent_chat idle E' G now3 now4 sid message
                   (fst started) in
  snd started = Ok (sid, "Hi! What should I schedule?")
  /\ assoc sid (Sessions.SESSIONS (fst started)) = Some (Chat._new_session E)
  /\ assoc sid (Sessions.TOUCHED (fst started)) = Some now2
  /\ snd chatted = snd turn
  /\ assoc sid (Sessions.SESSIONS (fst chatted)) = Some (sess (fst turn))
  /\ assoc sid (Sessions.TOUCHED (fst chatted)) = Some now4
  /\ Sessions.calls (fst chatted) = log (fst turn).
Proof.
  intros Hok Hidle. cbv zeta.
  unfold Sessions.agent_start, Sessions._new_session. cbv zeta.
  cbn [Sessions.SESSIONS]. rewrite assoc_dict_set_same. cbn [fst snd].
  split; [reflexivity|]. cbn [Sessions.SESSIONS Sessions.TOUCHED].
  rewrite !assoc_dict_set_same. split; [reflexivity|]. split; [reflexivity|].
  set (srv1 := {| Sessions.SESSIONS :=
                    Sessions.dict_set sid (Chat._new_session E)
                      (Sessions.SESSIONS (Sessions._reap idle now1 srv));
                  Sessions.TOUCHED :=
                    Sessions.dict_set sid now2
                      (Sessions.TOUCHED (Sessions._reap idle now1 srv));
                  Sessions.calls := Sessions.calls (Sessions._reap idle now1 srv) |}).
  assert (Hok1 : Sessions.store_ok srv1)
    by (apply store_ok_set, store_ok_reap, Hok).
  assert (Hcalls : Sessions.calls (Sessions._reap idle now1 srv)
                   = Sessions.calls srv).
  { unfold Sessions._reap.
    apply (reap_fold time idle now1 (Sessions.TOUCHED srv) srv). }
  assert (Hcalls3 : Sessions.calls (Sessions._reap idle now3 srv1)
                    = Sessions.calls srv).
  { unfold Sessions._reap.
    rewrite (proj2 (proj2 (reap_fold time idle now3 (Sessions.TOUCHED srv1) srv1))).
    exact Hcalls. }
  destruct (assoc_reap time idle now3 srv1 sid Hok1) as [Hs Ht].
  cbn [srv1 Sessions.SESSIONS Sessions.TOUCHED] in Hs, Ht.
  repeat rewrite assoc_dict_set_same in Hs.
  repeat rewrite assoc_dict_set_same in Ht.
  rewrite Hidle in Hs, Ht.
  unfold Sessions.agent_chat, Sessions._get_session. cbv zeta.
  rewrite Hs. cbn [Sessions.calls Sessions.SESSIONS Sessions.TOUCHED].
  rewrite Hcalls3.
  destruct (Chat.agent_chat E' G message _) as [w o].
  cbn [fst snd Sessions.SESSIONS Sessions.TOUCHED Sessions.calls].
  repeat rewrite assoc_dict_set_same. repeat split.
Qed.

(** A third session opened at 700 s and used at 800 s. *)
Lemma start_then_chat_witness :
  Sessions.store_ok DemoStore.two
  /\ DemoStore.idle 800 700 = false
  /\ snd (Sessions.agent_chat DemoStore.idle Demo.E_set NodeUpdates 800 800
            "s3" "am I free tomorrow 2-3pm?"
            (fst (Sessions.agent_start DemoStore.idle Demo.E_set 700 "s3" 700
                    DemoStore.two)))
     = snd (Chat.agent_chat Demo.E_set NodeUpdates "am I free tomorrow 2-3pm?"
              {| sess := Chat._new_session Demo.E_set;
                 log := Sessions.calls DemoStore.two |}).
Proof.
  assert (Hok : Sessions.store_ok DemoStore.two).
  { split; [reflexivity|]. cbn. repeat constructor; cbn; intuition discriminate. }
  split; [exact Hok|]. split; [reflexivity|].
  exact (proj1 (proj2 (proj2 (proj2
           (start_then_chat nat DemoStore.idle Demo.E_set 700 "s3" 700
              DemoStore.two Demo.E_set NodeUpdates 800 800
              "am I free tomorrow 2-3pm?" Hok eq_refl))))).
Defined.

(* ===================================================================== *)
(** ** Invariants of the session over a conversation                     *)
(* ===================================================================== *)

Lemma keeps_weaken {A} P (Q1 Q2 : A -> Prop) (c : M A) :
  keeps P Q1 c -> (forall a, Q1 a -> Q2 a) -> keeps P Q2 c.
Proof. intros H HQ w Hw. destruct (H w Hw) as [Hp Hr]. split; auto. Qed.

Lemma keeps_bind {A B} P (Q1 : A -> Prop) (Q : B -> Prop) (c : M A)
      (f : A -> M B) :
  keeps P Q1 c -> (forall a, Q1 a -> keeps P Q (f a)) -> keeps P Q (bind c f).
Proof.
  intros Hc Hf w Hw. unfold bind. destruct (Hc w Hw) as [Hp Hr].
  destruct (c w) as [w' [a|e]]; cbn [fst snd] in *.
  - apply (Hf a (Hr a eq_refl) w' Hp).
  - split; [exact Hp|discriminate].
Qed.

Lemma keeps_bind_any {A B} P (Q : B -> Prop) (c : M A) (f : A -> M B) :
  keeps P any c -> (forall a, keeps P Q (f a)) -> keeps P Q (bind c f).
Proof. intros Hc Hf. eapply keeps_bind; [exact Hc|auto]. Qed.

Lemma keeps_ret {A} P (Q : A -> Prop) a : Q a -> keeps P Q (ret a).
Proof. intros H w Hw. split; [exact Hw|]. cbn. intros ? [= <-]. exact H. Qed.

Lemma keeps_raise {A} P (Q : A -> Prop) e : keeps P Q (raise e).
Proof. intros w Hw. split; [exact Hw|discriminate]. Qed.

Lemma keeps_lift {A} P (Q : A -> Prop) (o : outcome A) :
  (forall a, o = Ok a -> Q a) -> keeps P Q (lift o).
Proof. intros H w Hw. split; [exact Hw|exact H]. Qed.

Lemma keeps_get P : keeps P P get.
Proof. intros w Hw. split; [exact Hw|]. cbn. intros ? [= <-]. exact Hw. Qed.

Lemma keeps_modify P f :
  (forall st, P st -> P (f st)) -> keeps P any (modify f).
Proof. intros H w Hw. split; [apply H, Hw|auto]. Qed.

Lemma keeps_emit P e : keeps P any (emit e).
Proof. intros w Hw. split; [exact Hw|auto]. Qed.

Lemma keeps_try {A} P (Q : A -> Prop) (c : M A) h :
  keeps P Q c -> (forall e, keeps P Q (h e)) -> keeps P Q (try_catch c h).
Proof.
  intros Hc Hh w Hw. unfold try_catch. destruct (Hc w Hw) as [Hp Hr].
  destruct (c w) as [w' [a|e]]; cbn [fst snd] in *.
  - split; [exact Hp|exact Hr].
  - apply (Hh e w' Hp).
Qed.

Lemma build_confirm_summary_nonempty E s : _build_confirm_summary E s <> "".
Proof. unfold _build_confirm_summary. cbv zeta. discriminate. Qed.

Lemma str_or_nonempty v d s : d <> "" -> str_or v d = Ok s -> s <> "".
Proof.
  intros Hd. unfold str_or. destruct v as [j|]; [|intros [= <-]; exact Hd].
  destruct (json_truthy j) eqn:Hj; [|intros [= <-]; exact Hd].
  destruct j; try discriminate. intros [= <-]. cbn in Hj.
  apply negb_true_iff in Hj. apply String.eqb_neq. exact Hj.
Qed.

Section Invariants.
Variable P : AgentState -> Prop.
Variable Qu : Updates -> Prop.
Hypothesis P_slots : forall s st, P st -> P (set_slots s st).
Hypothesis P_update : forall u st, Qu u -> P st -> P (state_update u st).
Hypothesis P_history : forall r c st, P st -> P (history_append r c st).
Hypothesis P_message : forall t st, P st -> P (set_new_user_message t st).
Hypothesis P_unconfirm : forall st, P st -> P (set_confirm false "" st).
Hypothesis P_confirm :
  forall s st, s <> "" -> P st -> P (set_confirm true s st).
Hypothesis Qu_plain :
  forall u, u_awaiting_confirm u = None -> u_confirm_summary u = None -> Qu u.
Hypothesis Qu_confirm : forall s, s <> "" -> Qu (upd_confirm s).
Hypothesis Qu_full : forall st, P st -> Qu (full_updates st).

Lemma P_preextract st : P st -> P (_preextract_slots st).
Proof.
  intros H. unfold _preextract_slots. destruct (String.eqb _ _); auto.
Qed.

Ltac kp_side :=
  first [ exact I
        | apply Qu_plain; reflexivity
        | apply Qu_confirm; apply build_confirm_summary_nonempty
        | apply Qu_confirm; assumption
        | intros; apply P_slots; assumption
        | intros; apply P_history; assumption
        | intros; apply P_message; assumption
        | intros; apply P_unconfirm; assumption
        | intros; apply P_preextract; assumption
        | intros; exact I ].

Ltac kp_step :=
  first [ apply keeps_ret; kp_side
        | apply keeps_raise
        | apply keeps_lift; intros; kp_side
        | apply keeps_emit
        | apply keeps_modify; kp_side
        | apply keeps_try; [|intros ?]
        | match goal with
          | |- keeps _ _ (bind (lift (str_or _ (_build_confirm_summary _ _))) _) =>
              eapply keeps_bind;
              [apply keeps_lift;
               let s := fresh "s" in let Hs := fresh "Hs" in
               intros s Hs;
               exact (str_or_nonempty _ _ s
                        (build_confirm_summary_nonempty _ _) Hs)
              |intros ? ?]
          end
        | apply keeps_bind_any; [|intros ?]
        | match goal with
          | |- keeps _ _ (match ?x with _ => _ end) => destruct x
          | |- keeps _ _ (if ?x then _ else _) => destruct x
          | |- keeps _ _ (let _ := _ in _) => cbv zeta
          | |- keeps _ any get => eapply keeps_weaken; [apply keeps_get|auto]
          | |- keeps _ _ (modify_slots _) => unfold modify_slots
          end ].
Ltac kp_tac := repeat kp_step.

Variable E : Env.

Lemma keeps_get_busy self s e tz : keeps P any (get_busy E self s e tz).
Proof. unfold get_busy. kp_tac. Qed.

Lemma keeps_tool_check_availability : keeps P Qu (tool_check_availability E).
Proof.
  unfold tool_check_availability. kp_tac.
Qed.

Lemma keeps_create_event self e : keeps P any (create_event E self e).
Proof. unfold create_event. kp_tac. Qed.

Lemma keeps_send self to subj body : keeps P any (send E self to subj body).
Proof. unfold send. kp_tac. Qed.

Lemma keeps_tool_create_event : keeps P Qu (tool_create_event E).
Proof.
  unfold tool_create_event. kp_tac.
Qed.

Lemma keeps_tool_send_email yes : keeps P Qu (tool_send_email E yes).
Proof.
  unfold tool_send_email. kp_tac.
Qed.

Lemma keeps_set_one k v : keeps P any (set_one k v).
Proof. unfold set_one. kp_tac. Qed.

Lemma keeps_set_all kvs : keeps P any (set_all kvs).
Proof.
  induction kvs as [|[k v] tl IH]; cbn [set_all]; kp_tac.
  - apply keeps_set_one.
  - exact IH.
Qed.

Lemma keeps_present_confirmation : keeps P Qu (present_confirmation E).
Proof. unfold present_confirmation. kp_tac. Qed.

Lemma keeps_fallback : keeps P Qu (fallback E).
Proof. unfold fallback. kp_tac; apply keeps_present_confirmation. Qed.

Lemma keeps_dispatch d : keeps P Qu (dispatch E d).
Proof.
  unfold dispatch. kp_tac;
    try apply keeps_present_confirmation;
    try apply keeps_tool_check_availability;
    try apply keeps_tool_create_event;
    try apply keeps_tool_send_email;
    try apply keeps_set_all.
Qed.

Lemma keeps_llm_complete prompt : keeps P any (_llm_complete E prompt).
Proof. unfold _llm_complete. kp_tac. Qed.

Lemma keeps_decide_and_act : keeps P Qu (decide_and_act E).
Proof.
  unfold decide_and_act.
  kp_tac; first [apply keeps_set_all | apply keeps_tool_send_email].
Qed.

Variable G : graph_output.

Lemma keeps_APP_GRAPH_invoke : keeps P Qu (APP_GRAPH_invoke E G).
Proof.
  unfold APP_GRAPH_invoke.
  eapply keeps_bind; [apply keeps_decide_and_act|]. intros u Hu.
  eapply keeps_bind; [apply keeps_get|]. intros st Hst.
  destruct G; apply keeps_ret; [exact Hu|].
  apply Qu_full, P_update; assumption.
Qed.

Lemma keeps_update {A} (Q : A -> Prop) (c : M Updates) (k : Updates -> M A) :
  keeps P Qu c -> (forall u, keeps P Q (k u)) ->
  keeps P Q (bind c (fun u => bind (modify (state_update u)) (fun _ => k u))).
Proof.
  intros Hc Hk. eapply keeps_bind; [exact Hc|]. intros u Hu.
  apply keeps_bind_any; [|intros _; apply Hk].
  apply keeps_modify. intros st. apply P_update, Hu.
Qed.

Lemma keeps_follow_up text ev : keeps P any (follow_up E text ev).
Proof.
  unfold follow_up. cbv zeta. destruct (negb _); [|kp_tac].
  apply keeps_update; [apply keeps_tool_send_email|]. intros u. kp_tac.
Qed.

Lemma keeps_create_and_answer text : keeps P any (create_and_answer E text).
Proof.
  unfold create_and_answer.
  apply keeps_update; [apply keeps_tool_create_event|]. intros u.
  kp_tac. apply keeps_follow_up.
Qed.

Lemma keeps_availability_path : keeps P any (availability_path E).
Proof.
  unfold availability_path.
  do 3 (apply keeps_bind_any; [kp_tac|intros ?]).
  destruct (_missing _ _); [|kp_tac].
  apply keeps_update; [apply keeps_tool_check_availability|].
  intros u. kp_tac.
Qed.

Lemma keeps_decline : keeps P any decline.
Proof. unfold decline. kp_tac. Qed.

Lemma keeps_policy_path text : keeps P any (policy_path E G text).
Proof.
  unfold policy_path.
  apply keeps_update; [apply keeps_APP_GRAPH_invoke|]. intros u.
  kp_tac; apply keeps_follow_up.
Qed.

Lemma keeps_continue_or_policy text :
  keeps P any (continue_or_policy E G text).
Proof.
  unfold continue_or_policy.
  do 3 (apply keeps_bind_any; [kp_tac|intros ?]).
  destruct (_ && _).
  - apply keeps_bind_any; [|intros _; apply keeps_create_and_answer].
    apply keeps_modify. intros st.
    apply P_confirm, build_confirm_summary_nonempty.
  - apply keeps_policy_path.
Qed.

(** The turn from the point where the message has been appended to the
    history. *)
Lemma keeps_agent_chat_received message w :
  P (history_append "user" (strip message) (sess w)) ->
  P (sess (fst (agent_chat E G message w))).
Proof.
  intros H. unfold agent_chat. cbv zeta. rewrite bind_modify.
  match goal with |- P (sess (fst (?k ?w1))) =>
    assert (Hk : keeps P any k); [|exact (proj1 (Hk w1 H))] end.
  apply keeps_bind_any; [kp_tac|intros ?].
  destruct (wants_check_availability _); [apply keeps_availability_path|].
  apply keeps_bind_any; [kp_tac|intros st].
  destruct (awaiting_confirm st); [|apply keeps_continue_or_policy].
  destruct (is_affirmative _); [apply keeps_create_and_answer|].
  destruct (is_negative _);
    [apply keeps_decline | apply keeps_continue_or_policy].
Qed.

Lemma keeps_agent_chat message w :
  P (sess w) -> P (sess (fst (agent_chat E G message w))).
Proof. intros H. apply keeps_agent_chat_received, P_history, H. Qed.

End Invariants.

Lemma conf_ok_keeps E G message w :
  conf_ok (sess w) -> conf_ok (sess (fst (agent_chat E G message w))).
Proof.
  revert w.
  apply (keeps_agent_chat conf_ok upd_conf_ok); unfold conf_ok, upd_conf_ok.
  - intros s st H. exact H.
  - intros u st Hu H. cbn [state_update awaiting_confirm confirm_summary].
    destruct (u_awaiting_confirm u) as [b|], (u_confirm_summary u) as [s|];
      cbn [or_else]; try contradiction; assumption.
  - intros r c st H. exact H.
  - intros t st H. exact H.
  - intros st _. reflexivity.
  - intros s st Hs _. cbn. apply String.eqb_neq in Hs. rewrite Hs. reflexivity.
  - intros u -> ->. exact I.
  - intros s Hs. cbn. apply String.eqb_neq in Hs. rewrite Hs. reflexivity.
  - intros st H. cbn. exact H.
Qed.

Lemma conf_ok_chat G turns : forall w,
  conf_ok (sess w) -> conf_ok (sess (fst (chat G turns w))).
Proof.
  induction turns as [|[E msg] tl IH]; intros w H; cbn [chat]; [exact H|].
  pose proof (conf_ok_keeps E G msg w H) as H1.
  destruct (agent_chat E G msg w) as [w1 o]. cbn [fst] in H1.
  specialize (IH w1 H1). destruct (chat G tl w1) as [w2 os]. exact IH.
Qed.

Lemma extends_history_received h E G message w :
  extends_history h (history_append "user" (strip message) (sess w)) ->
  extends_history h (sess (fst (agent_chat E G message w))).
Proof.
  revert w.
  apply (keeps_agent_chat_received (extends_history h) any);
    unfold extends_history; try (intros; exact I); try (intros; assumption).
  intros r c st [more H]. exists (more ++ [(r, c)])%list.
  cbn [history_append history]. rewrite H, app_assoc. reflexivity.
Qed.

Section StoredSessions.
Variable time : Type.
Variable idle : time -> time -> bool.

Lemma stored_filter (P : AgentState -> Prop) (p : string -> bool)
      (d : Sessions.dict AgentState) :
  (forall sid st, assoc sid d = Some st -> P st) ->
  forall sid st,
    assoc sid (filter (fun kv => p (fst kv)) d) = Some st -> P st.
Proof.
  intros H sid st. rewrite (assoc_filter p sid d).
  destruct (p sid); [apply H|discriminate].
Qed.

Lemma stored_set (P : AgentState -> Prop) k v (d : Sessions.dict AgentState) :
  P v -> (forall sid st, assoc sid d = Some st -> P st) ->
  forall sid st, assoc sid (Sessions.dict_set k v d) = Some st -> P st.
Proof.
  intros Hv H sid st. destruct (String.eqb sid k) eqn:Hk.
  - apply String.eqb_eq in Hk. subst sid. rewrite assoc_dict_set_same.
    intros [= <-]. exact Hv.
  - apply String.eqb_neq in Hk. rewrite assoc_dict_set_other by exact Hk.
    apply H.
Qed.

Lemma stored_reap (P : AgentState -> Prop) now (srv : Sessions.Server time) :
  (forall sid st, assoc sid (Sessions.SESSIONS srv) = Some st -> P st) ->
  forall sid st,
    assoc sid (Sessions.SESSIONS (Sessions._reap idle now srv)) = Some st ->
    P st.
Proof.
  intros H. unfold Sessions._reap.
  rewrite (proj1 (reap_fold time idle now (Sessions.TOUCHED srv) srv)).
  apply (stored_filter P
           (fun k => negb (Sessions.dropped idle now (Sessions.TOUCHED srv) k))).
  exact H.
Qed.

Lemma stored_serve1 (P : AgentState -> Prop) r (srv : Sessions.Server time) :
  (forall E, P (_new_session E)) ->
  (forall E G message w,
      P (sess w) -> P (sess (fst (agent_chat E G message w)))) ->
  (forall sid st, assoc sid (Sessions.SESSIONS srv) = Some st -> P st) ->
  forall sid st,
    assoc sid (Sessions.SESSIONS (Sessions.serve1 idle r srv)) = Some st -> P st.
Proof.
  intros Hnew Hkeep H.
  destruct r as [E now1 sid0 now2|E G now1 now2 sid0 message|sid0];
    cbn [Sessions.serve1].
  - unfold Sessions.agent_start, Sessions._new_session. cbv zeta.
    match goal with |- context [assoc sid0 ?d] => destruct (assoc sid0 d) end;
      cbn [fst Sessions.SESSIONS];
      apply stored_set; [apply Hnew|apply stored_reap, H|apply Hnew
                        |apply stored_reap, H].
  - unfold Sessions.agent_chat, Sessions._get_session. cbv zeta.
    destruct (assoc sid0 (Sessions.SESSIONS (Sessions._reap idle now1 srv)))
      as [st0|] eqn:Ha; cbn [fst]; [|apply stored_reap, H].
    pose proof (stored_reap P now1 srv H sid0 st0 Ha) as Hst0.
    cbn [Sessions.calls Sessions.SESSIONS].
    match goal with |- context [agent_chat E G message ?w0] =>
      pose proof (Hkeep E G message w0 Hst0) as Hw;
      destruct (agent_chat E G message w0) as [w o] end.
    cbn [fst Sessions.SESSIONS] in *.
    apply stored_set; [exact Hw|apply stored_reap, H].
  - unfold Sessions.agent_end. cbn [fst Sessions.SESSIONS].
    unfold Sessions.dict_pop.
    apply (stored_filter P (fun k => negb (String.eqb sid0 k))). exact H.
Qed.

Lemma stored_serve (P : AgentState -> Prop) rs :
  (forall E, P (_new_session E)) ->
  (forall E G message w,
      P (sess w) -> P (sess (fst (agent_chat E G message w)))) ->
  forall (srv : Sessions.Server time),
    (forall sid st, assoc sid (Sessions.SESSIONS srv) = Some st -> P st) ->
    forall sid st,
      assoc sid (Sessions.SESSIONS (Sessions.serve idle rs srv)) = Some st ->
      P st.
Proof.
  intros Hnew Hkeep. unfold Sessions.serve.
  induction rs as [|r tl IH]; intros srv H; cbn [fold_left]; [exact H|].
  apply IH. apply stored_serve1; assumption.
Qed.

End StoredSessions.

(** X15: The two confirmation fields agree on every session, as long as
    the decisions of the completion collaborator are typed (the values of
    a [set] are strings, and a list of strings for [attendees]; a
    [question], [summary] or [message] is a string). In every session
    stored after any sequence of start, chat and end requests, and after
    every conversation on a session in which they agree,
    [awaiting_confirm] is true exactly when [confirm_summary] is not
    empty: the summary is set when the confirmation is asked for and
    cleared when it is answered. (A value of another type is stored by
    the source as it is, and can make the rendering of the summary raise
    between the two assignments.) *)
Theorem confirmation_fields_agree :
  (forall (time : Type) (idle : time -> time -> bool)
          (rs : list (Sessions.request time)) sid st,
      Forall typed_request rs ->
      assoc sid (Sessions.SESSIONS
                   (Sessions.serve idle rs (Sessions.empty_server time)))
      = Some st ->
      (awaiting_confirm st = true <-> confirm_summary st <> ""))
  /\ (forall G turns w,
        Forall (fun t => typed_env (fst t)) turns ->
        (awaiting_confirm (sess w) = true <-> confirm_summary (sess w) <> "") ->
        (awaiting_confirm (sess (fst (chat G turns w))) = true
         <-> confirm_summary (sess (fst (chat G turns w))) <> "")).
Proof.
  assert (Hiff : forall st,
             conf_ok st <->
             (awaiting_confirm st = true <-> confirm_summary st <> "")).
  { intros st. unfold conf_ok.
    destruct (String.eqb (confirm_summary st) "") eqn:He; cbn [negb].
    - apply String.eqb_eq in He. rewrite He.
      destruct (awaiting_confirm st); split; intros H.
      + discriminate H.
      + exfalso. apply (proj1 H eq_refl). reflexivity.
      + split; [discriminate|]. intros Hne. exfalso. apply Hne. reflexivity.
      + reflexivity.
    - apply String.eqb_neq in He.
      destruct (awaiting_confirm st); split; intros H.
      + split; [intros _; exact He|reflexivity].
      + reflexivity.
      + discriminate H.
      + exact (proj2 H He). }
  split.
  - intros time idle rs sid st _ Ha. apply Hiff.
    refine (stored_serve time idle conf_ok rs
              (fun E => eq_refl) conf_ok_keeps (Sessions.empty_server time)
              _ sid st Ha).
    intros sid0 st0 H0. discriminate.
  - intros G turns w _ H. apply Hiff, conf_ok_chat, Hiff, H.
Qed.

(** The first turn of the demonstration, which ends awaiting
    confirmation. *)
Lemma confirmation_fields_agree_witness :
  (awaiting_confirm (sess (Demo.start Demo.fresh)) = true
   <-> confirm_summary (sess (Demo.start Demo.fresh)) <> "")
  /\ (awaiting_confirm
        (sess (fst (chat NodeUpdates
                      [(Demo.E_set, "schedule sync with bob@example.com")]
                      (Demo.start Demo.fresh)))) = true
      <-> confirm_summary
            (sess (fst (chat NodeUpdates
                          [(Demo.E_set, "schedule sync with bob@example.com")]
                          (Demo.start Demo.fresh)))) <> "").
Proof.
  assert (H0 : awaiting_confirm (sess (Demo.start Demo.fresh)) = true
               <-> confirm_summary (sess (Demo.start Demo.fresh)) <> "").
  { split; [discriminate|]. intros H. exfalso. apply H. reflexivity. }
  split; [exact H0|].
  refine (proj2 confirmation_fields_agree NodeUpdates
            [(Demo.E_set, "schedule sync with bob@example.com")]
            (Demo.start Demo.fresh) _ H0).
  constructor; [|constructor].
  intros s d. cbn. unfold Demo.loads.
  destruct (String.eqb s Demo.raw_set);
    [intros H; injection H as <-; reflexivity|].
  destruct (String.eqb s Demo.raw_finish);
    [intros H; injection H as <-; reflexivity|].
  destruct (String.eqb s Demo.raw_create);
    [intros H; injection H as <-; reflexivity|discriminate].
Defined.

(** X16: The history is append-only. A turn first appends the message it
    received, stripped, as a [user] entry, and whatever follows in the
    turn, however it ends, only appends; so after any conversation the
    history begins with the history before it. *)
Theorem history_append_only :
  (forall E G message w,
      exists more,
        history (sess (fst (agent_chat E G message w)))
        = (history (sess w) ++ ("user", strip message) :: more)%list)
  /\ (forall G turns w,
        exists more,
          history (sess (fst (chat G turns w)))
          = (history (sess w) ++ more)%list).
Proof.
  assert (Hturn : forall E G message w,
             exists more,
               history (sess (fst (agent_chat E G message w)))
               = (history (sess w) ++ ("user", strip message) :: more)%list).
  { intros E G message w.
    destruct (extends_history_received
                (history (sess w) ++ [("user", strip message)])%list
                E G message w) as [more H].
    - exists []. cbn [history_append history]. rewrite app_nil_r. reflexivity.
    - exists more. rewrite H, <- app_assoc. reflexivity. }
  split; [exact Hturn|].
  intros G turns. induction turns as [|[E msg] tl IH]; intros w; cbn [chat].
  - exists []. rewrite app_nil_r. reflexivity.
  - destruct (Hturn E G msg w) as [m1 H1].
    destruct (agent_chat E G msg w) as [w1 o]. cbn [fst] in H1.
    destruct (IH w1) as [m2 H2]. destruct (chat G tl w1) as [w2 os].
    cbn [fst] in *. rewrite H2, H1. rewrite <- app_assoc.
    eexists. reflexivity.
Qed.

(* ===================================================================== *)
(** ** Further properties of the turn                                    *)
(* ===================================================================== *)







(** The follow-up after a creation: it only calls the Email collaborator,
    and returns unless the request of the email client raised. *)
Lemma follow_up_cases E text r w :
  created_event (sess w) = Some r ->
  exists new,
    forallb is_gm_event new = true
    /\ ((exists w' rd,
            follow_up E text r w = (w', Ok rd)
            /\ log w' = (log w ++ new)%list
            /\ created_event (sess w') = Some r
            /\ slots (sess w') = slots (sess w)
            /\ assoc "event" (snd rd) = Some r)
        \/ (exists w' ex raw,
               follow_up E text r w = (w', Raise ex)
               /\ log w' = (log w ++ new)%list
               /\ created_event (sess w') = Some r
               /\ slots (sess w') = slots (sess w)
               /\ gmail_send E raw = ApiOther ex)).
Proof.
  intros Hce. unfold follow_up. cbv zeta.
  destruct (wants_no_email text); cbn [negb].
  { exists []. split; [reflexivity|]. left. eexists. eexists.
    split; [reflexivity|]. cbn [ret fst snd]. rewrite app_nil_r.
    repeat split; auto. }
  unfold tool_send_email. cbn [negb].
  unfold bind, get, send, bind, emit, modify, ret. rewrite Hce.
  destruct (attendees (slots (sess w))) as [|a l].
  { exists []. split; [reflexivity|]. left. eexists. eexists.
    split; [reflexivity|]. cbn. rewrite app_nil_r, Hce.
    repeat split. destruct (email_result (sess w)); reflexivity. }
  cbn [sess log].
  destruct (String.eqb (gmail_from (settings E)) "").
  { eexists. split; [|left; eexists; eexists; split; [reflexivity|]].
    2:{ cbn. rewrite Hce. repeat split. }
    reflexivity. }
  match goal with |- context [gmail_send E ?raw] =>
    destruct (gmail_send E raw) as [i|m|ex] eqn:Hg end; cbn [sess log].
  - eexists. split; [|left; eexists; eexists; split; [reflexivity|]].
    2:{ cbn. rewrite Hce, <- app_assoc. repeat split. }
    reflexivity.
  - eexists. split; [|left; eexists; eexists; split; [reflexivity|]].
    2:{ cbn. rewrite Hce, <- app_assoc. repeat split. }
    reflexivity.
  - eexists. split; [|right; eexists; eexists; eexists; split; [reflexivity|]].
    2:{ cbn. rewrite <- app_assoc. repeat split; [exact Hce|exact Hg]. }
    reflexivity.
Qed.





(* ===================================================================== *)
(** ** The answer to a confirmation is not read for details              *)
(* ===================================================================== *)

Section DetailFacts.
Variable E : Env.
Variable d : option string * option string * option string * option string
             * list string * option string * option string * option string.







End DetailFacts.



(* ===================================================================== *)
(** ** What an answer says of the session                                *)
(* ===================================================================== *)

Lemma ends_bind {A B} P (Q : A -> AgentState -> Prop)
      (R : B -> AgentState -> Prop) (c : M A) (f : A -> M B) :
  ends P c Q -> (forall a, ends (Q a) (f a) R) -> ends P (bind c f) R.
Proof.
  intros Hc Hf w Hw b Hb. unfold bind in *. specialize (Hc w Hw).
  destruct (c w) as [w1 [a|e]]; cbn [fst snd] in *; [|discriminate].
  exact (Hf a w1 (Hc a eq_refl) b Hb).
Qed.

Lemma ends_pre {A} (P P' : AgentState -> Prop) (R : A -> AgentState -> Prop)
      (c : M A) :
  (forall st, P st -> P' st) -> ends P' c R -> ends P c R.
Proof. intros H Hc w Hw. apply Hc, H, Hw. Qed.

Lemma ends_skip {A B} P (R : B -> AgentState -> Prop) (c : M A)
      (f : A -> M B) :
  (forall a, ends (fun _ => True) (f a) R) -> ends P (bind c f) R.
Proof.
  intros Hf. apply (ends_bind P (fun _ _ => True)); [|exact Hf].
  intros w _ a _. exact I.
Qed.

Lemma ends_get {B} P (R : B -> AgentState -> Prop) (f : AgentState -> M B) :
  (forall st, ends (fun s => s = st /\ P s) (f st) R) -> ends P (bind get f) R.
Proof.
  intros Hf. apply (ends_bind P (fun a s => s = a /\ P s)); [|exact Hf].
  intros w Hw a [= <-]. cbn. auto.
Qed.

Lemma ends_modify {B} (P : AgentState -> Prop) (R : B -> AgentState -> Prop)
      g (k : M B) :
  (forall st, P st -> P (g st)) -> ends P k R ->
  ends P (bind (modify g) (fun _ => k)) R.
Proof.
  intros Hg Hk. apply (ends_bind P (fun _ s => P s)); [|intros _; exact Hk].
  intros w Hw a _. cbn. apply Hg, Hw.
Qed.

Lemma ends_ret {A} (P : AgentState -> Prop) (R : A -> AgentState -> Prop) a :
  (forall st, P st -> R a st) -> ends P (ret a) R.
Proof. intros H w Hw b [= <-]. cbn. apply H, Hw. Qed.

Section AnswerFacts.
Variable E : Env.

Lemma ends_follow_up text ev :
  ends (fun st => created_event st = Some ev) (follow_up E text ev)
       (fun rd st => created_event st = Some ev
                     /\ assoc "event" (snd rd) = Some ev).
Proof.
  intros w Hw rd Hrd.
  destruct (follow_up_cases E text ev w Hw)
    as (new & _ & [(w' & rd' & Hf & _ & Hc & _ & Hd)
                  |(w' & ex & raw & Hf & _)]);
    rewrite Hf in *; cbn [fst snd] in *; [|discriminate].
  injection Hrd as <-. auto.
Qed.

Ltac en_last :=
  apply ends_get; intros ?; apply ends_ret;
  let s := fresh "s" in let H := fresh "H" in
  intros s [-> H]; unfold reflects;
  cbn [out_slots done data or_else assoc];
  split; [reflexivity|split; [discriminate|discriminate]].

Lemma reflects_create_and_answer text :
  ends (fun _ => True) (create_and_answer E text) reflects.
Proof.
  unfold create_and_answer.
  apply ends_skip; intros u. apply ends_skip; intros _.
  apply ends_get; intros st.
  destruct (created_event st) as [ev|] eqn:Hce.
  - apply (ends_bind _ (fun rd s => created_event s = Some ev
                                    /\ assoc "event" (snd rd) = Some ev)).
    + apply (ends_pre _ (fun s => created_event s = Some ev));
        [intros s [-> _]; exact Hce|apply ends_follow_up].
    + intros rd.
      apply ends_modify; [intros s H; exact H|].
      apply ends_modify; [intros s H; exact H|].
      apply ends_modify; [intros s H; exact H|].
      apply ends_get; intros st'. apply ends_ret.
      intros s [-> [Hc Hd]]. unfold reflects. cbn [out_slots done data or_else].
      split; [reflexivity|]. split; [intros _; exists ev; exact Hc|].
      intros r Hr. rewrite Hd in Hr. rewrite Hc. exact Hr.
  - cbv zeta. apply ends_skip; intros _. apply ends_skip; intros _.
    apply ends_skip; intros _. en_last.
Qed.

Lemma reflects_decline : ends (fun _ => True) decline reflects.
Proof.
  unfold decline. apply ends_skip; intros _. apply ends_skip; intros _.
  cbv zeta. apply ends_skip; intros _. en_last.
Qed.

Lemma reflects_availability_path :
  ends (fun _ => True) (availability_path E) reflects.
Proof.
  unfold availability_path. apply ends_skip; intros _.
  apply ends_skip; intros _. apply ends_skip; intros st.
  destruct (_missing E (slots st)).
  - apply ends_skip; intros u. apply ends_skip; intros _.
    apply ends_skip; intros _. apply ends_skip; intros st0. cbv zeta.
    apply ends_skip; intros _. en_last.
  - cbv zeta. apply ends_skip; intros _. apply ends_skip; intros _. en_last.
Qed.

Variable G : graph_output.

Lemma reflects_policy_path text :
  ends (fun _ => True) (policy_path E G text) reflects.
Proof.
  unfold policy_path.
  apply ends_skip; intros u. apply ends_skip; intros _.
  apply ends_skip; intros _. apply ends_get; intros st. cbv zeta.
  apply (ends_bind _ (fun rd s =>
                        forall r, assoc "event" (snd rd) = Some r ->
                                  created_event s = Some r)).
  - destruct (is_some (u_created_event u));
      [destruct (created_event st) as [ev|] eqn:Hce|].
    + apply (ends_bind _ (fun rd s => created_event s = Some ev
                                      /\ assoc "event" (snd rd) = Some ev)).
      * apply (ends_pre _ (fun s => created_event s = Some ev));
          [intros s [-> _]; exact Hce|apply ends_follow_up].
      * intros rd. apply ends_modify; [intros s H; exact H|].
        apply ends_ret. intros s [Hc Hd] r Hr. cbn [snd] in Hr.
        rewrite Hd in Hr. rewrite Hc. exact Hr.
    + apply ends_ret. intros s _ r Hr. discriminate Hr.
    + apply ends_ret. intros s _ r Hr. discriminate Hr.
  - intros rd. apply ends_get; intros st2.
    apply (ends_pre _ (fun s => created_event s = created_event st2
                                /\ forall r, assoc "event" (snd rd) = Some r ->
                                             created_event s = Some r)).
    { intros s [-> H]. auto. }
    apply (ends_bind _ (fun _ s =>
                          created_event s = created_event st2
                          /\ forall r, assoc "event" (snd rd) = Some r ->
                                       created_event s = Some r)).
    + destruct (String.eqb (fst rd) "").
      * apply ends_ret. auto.
      * intros w Hw a _. cbn. exact Hw.
    + intros _. apply ends_get; intros st3. apply ends_ret.
      intros s [-> [Hc Hd]]. unfold reflects.
      cbn [out_slots done data or_else].
      split; [reflexivity|]. split; [|exact Hd].
      rewrite <- Hc. destruct (created_event st3) as [r|];
        [intros _; exists r; reflexivity|discriminate].
Qed.

Lemma reflects_continue_or_policy text :
  ends (fun _ => True) (continue_or_policy E G text) reflects.
Proof.
  unfold continue_or_policy. apply ends_skip; intros _.
  apply ends_skip; intros _. apply ends_skip; intros st.
  match goal with |- ends _ (if ?b then _ else _) _ => destruct b end.
  - apply ends_skip; intros _. apply reflects_create_and_answer.
  - apply reflects_policy_path.
Qed.

Lemma reflects_agent_chat message :
  ends (fun _ => True) (agent_chat E G message) reflects.
Proof.
  unfold agent_chat. cbv zeta. apply ends_skip; intros _.
  apply ends_skip; intros _.
  destruct (wants_check_availability (strip message));
    [apply reflects_availability_path|].
  apply ends_skip; intros st.
  destruct (awaiting_confirm st); [|apply reflects_continue_or_policy].
  destruct (is_affirmative (strip message));
    [apply reflects_create_and_answer|].
  destruct (is_negative (strip message));
    [apply reflects_decline|apply reflects_continue_or_policy].
Qed.

End AnswerFacts.

(** X21: What an answer says of the session. Whenever a turn returns an
    answer, on every path through [agent_chat], the slots in the answer
    are the slots the session holds after the turn; [done] is true only
    if the session then holds a created event; and an [event] under
    [data] is that created event. *)
Theorem answer_reflects_session E G message w out :
  snd (agent_chat E G message w) = Ok out ->
  out_slots out = slots (sess (fst (agent_chat E G message w)))
  /\ (done out = true ->
      exists r, created_event (sess (fst (agent_chat E G message w))) = Some r)
  /\ (forall r,
        assoc "event" (or_else (data out) []) = Some r ->
        created_event (sess (fst (agent_chat E G message w))) = Some r).
Proof.
  intros H. exact (reflects_agent_chat E G message w I out H).
Qed.

(** The turn in which the demonstration's event is created. *)
Lemma answer_reflects_session_witness :
  match snd (agent_chat Demo.E_prose NodeUpdates "yes"
               (Demo.start Demo.confirming)) with
  | Ok out =>
      done out = true
      /\ out_slots out
         = slots (sess (fst (agent_chat Demo.E_prose NodeUpdates "yes"
                               (Demo.start Demo.confirming))))
  | Raise _ => False
  end.
Proof.
  destruct (snd (agent_chat Demo.E_prose NodeUpdates "yes"
                   (Demo.start Demo.confirming))) as [out|e] eqn:H.
  - split.
    + vm_compute in H. injection H as <-. reflexivity.
    + exact (proj1 (answer_reflects_session Demo.E_prose NodeUpdates "yes"
                      (Demo.start Demo.confirming) out H)).
  - vm_compute in H. discriminate H.
Defined.

(* ===================================================================== *)
(** ** A completion call that fails                                      *)
(* ===================================================================== *)



(* ===================================================================== *)
(** ** The email gate                                                    *)
(* ===================================================================== *)

Lemma mail_ok_refl w : mail_ok w w.
Proof.
  exists []. rewrite app_nil_r. split; [reflexivity|].
  split; [auto|discriminate].
Qed.

Lemma mail_ok_trans w1 w2 w3 : mail_ok w1 w2 -> mail_ok w2 w3 -> mail_ok w1 w3.
Proof.
  intros (n1 & L1 & K1 & G1) (n2 & L2 & K2 & G2).
  exists (n1 ++ n2)%list. rewrite L2, L1, app_assoc.
  split; [reflexivity|]. split; [auto|].
  rewrite existsb_app. intros H. apply orb_true_iff in H as [H|H]; auto.
Qed.

Lemma mc_bind {A B} (c : M A) (f : A -> M B) :
  mc c -> (forall a, mc (f a)) -> mc (bind c f).
Proof.
  intros Hc Hf w. unfold bind. pose proof (Hc w) as H1.
  destruct (c w) as [w1 [a|e]]; cbn [fst] in *; [|exact H1].
  exact (mail_ok_trans _ _ _ H1 (Hf a w1)).
Qed.

Lemma mc_ret {A} (a : A) : mc (ret a).
Proof. intros w. apply mail_ok_refl. Qed.

Lemma mc_raise {A} e : mc (@raise A e).
Proof. intros w. apply mail_ok_refl. Qed.

Lemma mc_lift {A} (o : outcome A) : mc (lift o).
Proof. intros w. apply mail_ok_refl. Qed.

Lemma mc_get : mc get.
Proof. intros w. apply mail_ok_refl. Qed.

Lemma mc_modify f :
  (forall st, created_event st <> None -> created_event (f st) <> None) ->
  mc (modify f).
Proof.
  intros H w. exists []. cbn. rewrite app_nil_r.
  split; [reflexivity|]. split; [apply H|discriminate].
Qed.

Lemma mc_emit e : is_gm_event e = false -> mc (emit e).
Proof.
  intros H w. exists [e]. cbn. rewrite H.
  split; [reflexivity|]. split; [auto|discriminate].
Qed.

Lemma mc_try {A} (c : M A) h : mc c -> (forall e, mc (h e)) -> mc (try_catch c h).
Proof.
  intros Hc Hh w. unfold try_catch. pose proof (Hc w) as H1.
  destruct (c w) as [w1 [a|e]]; cbn [fst] in *; [exact H1|].
  exact (mail_ok_trans _ _ _ H1 (Hh e w1)).
Qed.

Lemma created_preextract st :
  created_event st <> None -> created_event (_preextract_slots st) <> None.
Proof.
  intros H. unfold _preextract_slots. destruct (String.eqb _ _); exact H.
Qed.

Lemma created_update u st :
  created_event st <> None -> created_event (state_update u st) <> None.
Proof.
  intros H. cbn [created_event state_update].
  destruct (u_created_event u); cbn; [discriminate|exact H].
Qed.

Ltac mc_side :=
  first [ reflexivity
        | apply created_preextract
        | apply created_update
        | let st := fresh "st" in let H := fresh "H" in
          intros st H; exact H ].

Ltac mc_step :=
  first [ apply mc_ret
        | apply mc_raise
        | apply mc_lift
        | apply mc_get
        | apply mc_emit; reflexivity
        | apply mc_modify; mc_side
        | apply mc_try; [|intros ?]
        | apply mc_bind; [|intros ?]
        | match goal with
          | |- mc (match ?x with _ => _ end) => destruct x
          | |- mc (if ?x then _ else _) => destruct x
          | |- mc (let _ := _ in _) => cbv zeta
          | |- mc (modify_slots _) => unfold modify_slots
          end ].
Ltac mc_tac := repeat mc_step.

Section MailFacts.
Variable E : Env.

(** The one place that calls the Email collaborator looks for the created
    event first. *)
Lemma mc_tool_send_email yes : mc (tool_send_email E yes).
Proof.
  intros w. unfold tool_send_email.
  destruct yes; cbn [negb]; [|apply mail_ok_refl].
  unfold bind at 1. unfold get at 1. cbn [fst snd].
  destruct (created_event (sess w)) as [ev|] eqn:Hce; [|apply mail_ok_refl].
  destruct (attendees (slots (sess w))) as [|a l]; [apply mail_ok_refl|].
  cbv zeta.
  match goal with |- mail_ok _ (fst (?c w)) =>
    assert (Hs : sess (fst (c w)) = sess w
                 /\ exists new, log (fst (c w)) = (log w ++ new)%list)
  end.
  { unfold send, bind, emit, ret, raise. cbn [sess log fst snd].
    destruct (String.eqb (gmail_from (settings E)) "").
    - cbn. split; [reflexivity|]. eexists. reflexivity.
    - match goal with |- context [gmail_send E ?raw] =>
        destruct (gmail_send E raw) end; cbn;
        (split; [reflexivity|]); rewrite <- app_assoc; eexists; reflexivity. }
  destruct Hs as [Hs [new Hl]]. exists new. rewrite Hs, Hce.
  split; [exact Hl|]. split; intros _; discriminate.
Qed.

Lemma mc_tool_create_event : mc (tool_create_event E).
Proof. unfold tool_create_event, create_event. mc_tac. Qed.

Lemma mc_tool_check_availability : mc (tool_check_availability E).
Proof. unfold tool_check_availability, get_busy. mc_tac. Qed.

Lemma mc_set_all kvs : mc (set_all kvs).
Proof.
  induction kvs as [|[k v] tl IH]; cbn [set_all]; [apply mc_ret|].
  apply mc_bind; [|intros _; exact IH]. unfold set_one. mc_tac.
Qed.

Lemma mc_present_confirmation : mc (present_confirmation E).
Proof. unfold present_confirmation. mc_tac. Qed.

Lemma mc_fallback : mc (fallback E).
Proof.
  unfold fallback. mc_tac; apply mc_present_confirmation.
Qed.

Lemma mc_dispatch d : mc (dispatch E d).
Proof.
  unfold dispatch.
  repeat first [ apply mc_set_all
               | apply mc_present_confirmation
               | apply mc_tool_check_availability
               | apply mc_tool_create_event
               | apply mc_tool_send_email
               | mc_step ].
Qed.

Lemma mc_decide_and_act : mc (decide_and_act E).
Proof.
  unfold decide_and_act, _llm_complete.
  repeat first [ apply mc_fallback | apply mc_dispatch | mc_step ].
Qed.

Variable G : graph_output.

Lemma mc_follow_up text ev : mc (follow_up E text ev).
Proof.
  unfold follow_up. cbv zeta.
  repeat first [ apply mc_tool_send_email | mc_step ].
Qed.

Lemma mc_create_and_answer text : mc (create_and_answer E text).
Proof.
  unfold create_and_answer.
  repeat first [ apply mc_tool_create_event | apply mc_follow_up | mc_step ].
Qed.

Lemma mc_policy_path text : mc (policy_path E G text).
Proof.
  unfold policy_path, APP_GRAPH_invoke.
  repeat first [ apply mc_decide_and_act | apply mc_follow_up | mc_step ].
Qed.

Lemma mc_agent_chat message : mc (agent_chat E G message).
Proof.
  unfold agent_chat, continue_or_policy, availability_path, decline.
  repeat first [ apply mc_create_and_answer | apply mc_policy_path
               | apply mc_tool_check_availability | mc_step ].
Qed.

End MailFacts.

Lemma mail_ok_chat G turns : forall w, mail_ok w (fst (chat G turns w)).
Proof.
  induction turns as [|[E msg] tl IH]; intros w; cbn [chat].
  - apply mail_ok_refl.
  - pose proof (mc_agent_chat E G msg w) as H1.
    destruct (agent_chat E G msg w) as [w1 o]. cbn [fst] in H1.
    specialize (IH w1). destruct (chat G tl w1) as [w2 os]. cbn [fst] in *.
    exact (mail_ok_trans _ _ _ H1 IH).
Qed.

(** X23: The email gate. Over any conversation, whatever the completion
    collaborator answers in each turn (a [send_email] action included) and
    however the turns end, the calls are only added to, a created event on
    record is never taken back, and a call on the Email collaborator is
    made only if the session holds a created event: on a session that has
    never had one, no invitation is sent. *)
Theorem email_only_with_event_on_record G turns w :
  exists new,
    log (fst (chat G turns w)) = (log w ++ new)%list
    /\ ((exists r, created_event (sess w) = Some r) ->
        exists r, created_event (sess (fst (chat G turns w))) = Some r)
    /\ (created_event (sess (fst (chat G turns w))) = None ->
        existsb is_gm_event new = false).
Proof.
  destruct (mail_ok_chat G turns w) as (new & Hl & Hk & Hg).
  exists new. split; [exact Hl|]. split.
  - intros [r Hr].
    destruct (created_event (sess (fst (chat G turns w)))) as [r'|] eqn:Hc;
      [exists r'; reflexivity|].
    exfalso. apply Hk; [rewrite Hr; discriminate|reflexivity].
  - intros Hc. destruct (existsb is_gm_event new) eqn:He; [|reflexivity].
    exfalso. apply (Hg eq_refl). exact Hc.
Qed.
